(** * Chatly conversation store: a shallow embedding and its properties

    The development follows the compaction-bearing script of the
    repository: the cipher service ([deriveKey], [encryptMessage],
    [decryptMessage]), the persisted store ([loadData], [saveData]), the
    message lifecycle ([sendMessage], [updateStatus],
    [markAllSeenIfAtBottom], [onDeleteMessage] and its undo callback),
    pagination ([getVisibleMessages]) and the auto-reply scheduler
    ([simulateBotResponse], [botTimers]).
    Around them it covers the unread count ([setupUnreadJump]), the
    sidebar previews, the send button ([onSendClick]), the auto-reply text
    ([botReply]), [escapeHtml], the undo toast ([toastUndo]) and the first
    run ([seedDemoIfEmpty], [start]).

    Conventions of the embedding.
    - A JavaScript object field that may be absent is an [option]; [None]
      stands for [undefined] (and for JSON [null]).
    - Timestamps are integers ([Z], milliseconds), as [Date.now()] returns.
    - Identifiers (message ids, conversation ids, peer ids) are [string]s.
    - Message text is a JavaScript string, that is a sequence of UTF-16
      code units ([list Z]).
    - A JavaScript [Map] keeps its keys in insertion order, and [set] on a
      key already present rewrites the value in place; it is an
      association list here. *)

From Stdlib Require Import ZArith List String Ascii Lia Bool.
From Stdlib.Strings Require Import Byte.
From Stdlib Require Import DecimalString Permutation Sorted.
From Stdlib Require DecimalZ.
From stdpp Require Import base list gmap strings.

Import ListNotations.
Local Open Scope string_scope.
Local Open Scope list_scope.
Local Open Scope Z_scope.

(** ** JavaScript values used by the store *)

(** [String(n)] for an integer [n]. *)
Definition show_Z (n : Z) : string := NilZero.string_of_int (Z.to_int n).

(** An element of an array under [Array.prototype.join]: [undefined] and
    [null] print as the empty string. *)
Definition join_elem (s : option string) : string :=
  match s with Some x => x | None => "" end.

(** [xs.join(sep)] on strings. *)
Definition join (sep : string) (xs : list string) : string := String.concat sep xs.

(** Truthiness of a string-valued field: [undefined] and [""] are falsy. *)
Definition truthy (s : option string) : bool :=
  match s with
  | Some x => negb (String.eqb x "")
  | None => false
  end.

(** [x || 0] on a numeric field. For an integer [x] the result is [x]
    itself ([0 || 0] is [0]). *)
Definition or0 (x : option Z) : Z :=
  match x with Some v => v | None => 0 end.

(** A JavaScript string: its UTF-16 code units. *)
Abbreviation jsstring := (list Z).

(** A string literal of ASCII characters as a JavaScript string. *)
Definition js (s : string) : jsstring :=
  map (fun a => Z.of_N (N_of_ascii a)) (list_ascii_of_string s).

(** The result of an operation that may throw (a promise that may reject). *)
Inductive outcome (A : Type) : Type :=
| Returned (a : A)
| Thrown.
Arguments Returned {A} a.
Arguments Thrown {A}.

(** ** Data model *)

(** [{ iv, data }]: the arrays of byte values produced by [Array.from]. *)
Record CipherPayload : Type := mkCipher {
  iv : option (list Z);
  data : option (list Z)
}.

Inductive Status : Type := sent | delivered | seen.

(** message: { id, convId, from, to, cipher, createdAt, editedAt?,
    deleted?, status: 'sent'|'delivered'|'seen', seenAt? } *)
Record Message : Type := mkMessage {
  id : option string;
  convId : option string;
  from : option string;
  to : option string;
  cipher : option CipherPayload;
  createdAt : option Z;
  editedAt : option Z;
  deleted : option bool;
  status : Status;
  seenAt : option Z
}.

(** An element of a stored [messages] array: [None] is a [null] entry. *)
Abbreviation entry := (option Message).

Record Conversation : Type := mkConversation {
  conv_id : string;
  conv_peerId : string
}.

#[global] Instance CipherPayload_eq_dec : EqDecision CipherPayload.
Proof. solve_decision. Defined.
#[global] Instance Status_eq_dec : EqDecision Status.
Proof. solve_decision. Defined.
#[global] Instance Message_eq_dec : EqDecision Message.
Proof. solve_decision. Defined.
#[global] Instance Conversation_eq_dec : EqDecision Conversation.
Proof. solve_decision. Defined.

(** [!m.deleted] *)
Definition not_deleted (m : Message) : bool :=
  match deleted m with Some true => false | _ => true end.

(** ** Insertion-ordered maps ([new Map()]) *)

Section JsMap.
Context {K V : Type} `{EqDecision K}.

Definition JsMap : Type := list (K * V).

Fixpoint Map_get (k : K) (m : JsMap) : option V :=
  match m with
  | [] => None
  | (k', v) :: m' => if decide (k' = k) then Some v else Map_get k m'
  end.

Fixpoint Map_set (k : K) (v : V) (m : JsMap) : JsMap :=
  match m with
  | [] => [(k, v)]
  | (k', v') :: m' =>
      if decide (k' = k) then (k, v) :: m' else (k', v') :: Map_set k v m'
  end.

Definition Map_values (m : JsMap) : list V := map snd m.
Definition Map_keys (m : JsMap) : list K := map fst m.
End JsMap.

Arguments JsMap : clear implicits.

(** ** Compaction (the body shared by [loadData] and [saveData]) *)

(** First loop: [if (m && m.id) byId.set(m.id, m)]. *)
Definition byId_step (byId : JsMap string Message) (e : entry) : JsMap string Message :=
  match e with
  | Some m =>
      match id m with
      | Some k => if truthy (Some k) then Map_set k m byId else byId
      | None => byId
      end
  | None => byId
  end.

Definition identity_merge (messages : list entry) : list Message :=
  Map_values (fold_left byId_step messages []).

(** [(m.cipher && m.cipher.iv ? m.cipher.iv.join(",") : "")] *)
Definition ivStr (m : Message) : string :=
  match cipher m with
  | Some c => match iv c with
              | Some bytes => join "," (map show_Z bytes)
              | None => ""
              end
  | None => ""
  end.

(** [(m.cipher && m.cipher.data ? m.cipher.data.slice(0, 24).join(",") : "")] *)
Definition dataStr (m : Message) : string :=
  match cipher m with
  | Some c => match data c with
              | Some bytes => join "," (map show_Z (firstn 24 bytes))
              | None => ""
              end
  | None => ""
  end.

(** [Math.round(x / 200)] for an integer [x]: [Math.round] rounds to the
    nearest integer and a half goes up, so the result is
    [floor((x + 100) / 200)]. *)
Definition Math_round_div200 (x : Z) : Z := (x + 100) / 200.

Definition bucket (m : Message) : Z := Math_round_div200 (or0 (createdAt m)).

(** [[m.convId, m.from, m.to, bucket, ivStr, dataStr].join("|")] *)
Definition fingerprint (m : Message) : string :=
  join "|" [join_elem (convId m); join_elem (from m); join_elem (to m);
            show_Z (bucket m); ivStr m; dataStr m].

(** Second loop:
    [if (!prev || (m.createdAt || 0) >= (prev.createdAt || 0)) byFp.set(fp, m)]. *)
Definition byFp_step (byFp : JsMap string Message) (m : Message) : JsMap string Message :=
  let fp := fingerprint m in
  match Map_get fp byFp with
  | None => Map_set fp m byFp
  | Some prev =>
      if or0 (createdAt prev) <=? or0 (createdAt m) then Map_set fp m byFp else byFp
  end.

Definition fingerprint_merge (arr : list Message) : list Message :=
  Map_values (fold_left byFp_step arr []).

(** [.sort((a, b) => (a.createdAt || 0) - (b.createdAt || 0))].
    [Array.prototype.sort] is stable, and with this comparator the result
    is the stable ascending arrangement, which insertion from the right
    computes. *)
Fixpoint sort_insert (a : Message) (l : list Message) : list Message :=
  match l with
  | [] => [a]
  | b :: l' =>
      if or0 (createdAt a) <=? or0 (createdAt b) then a :: b :: l'
      else b :: sort_insert a l'
  end.

Fixpoint sort_by_createdAt (l : list Message) : list Message :=
  match l with
  | [] => []
  | a :: l' => sort_insert a (sort_by_createdAt l')
  end.

Definition compact (messages : list entry) : list Message :=
  sort_by_createdAt (fingerprint_merge (identity_merge messages)).

(** ** Persisted store *)

Record Contact : Type := mkContact {
  contact_id : string;
  name : string;
  initials : string
}.

Definition CONTACTS : list Contact :=
  [ mkContact "u-1" "Ayesha" "A"; mkContact "u-2" "Bilal" "B";
    mkContact "u-3" "Danish" "D"; mkContact "u-4" "Fatima" "F" ].

(** What [JSON.parse(raw)] yields: [raw_messages] is [None] when the
    [messages] field is not an array. *)
Record Snapshot : Type := mkSnapshot {
  raw_conversations : list Conversation;
  raw_messages : option (list entry)
}.

(** The object [loadData] returns: [messages] is an array of messages. *)
Record Data : Type := mkData {
  conversations : list Conversation;
  messages : list Message
}.

(** [JSON.stringify(data)] followed by [JSON.parse]. *)
Definition to_snapshot (d : Data) : Snapshot :=
  mkSnapshot (conversations d) (Some (map Some (messages d))).

(** [localStorage]: the item under [STORAGE_KEY], and the items under
    [LAST_READ_KEY:convId] and [DRAFT_KEY:convId], keyed by [convId]. *)
Record Storage : Type := mkStorage {
  stored : option Snapshot;
  lastRead : gmap string Z;
  drafts : gmap string jsstring
}.

Definition setItem_data (ls : Storage) (d : Snapshot) : Storage :=
  mkStorage (Some d) (lastRead ls) (drafts ls).

Definition getConversationId (peer : string) : string := String.append "conv-" peer.

Definition loadData (ls : Storage) : Data * Storage :=
  match stored ls with
  | Some raw =>
      let data :=
        mkData (raw_conversations raw)
               (match raw_messages raw with
                | Some l => compact l
                | None => []
                end) in
      (data, setItem_data ls (to_snapshot data))
  | None =>
      let convs :=
        map (fun c => mkConversation (getConversationId (contact_id c)) (contact_id c))
            CONTACTS in
      let data := mkData convs [] in
      (data, setItem_data ls (to_snapshot data))
  end.

Definition saveData (data : Snapshot) (ls : Storage) : Storage :=
  let messages := match raw_messages data with Some l => l | None => [] end in
  let clean := mkSnapshot (raw_conversations data) (Some (map Some (compact messages))) in
  setItem_data ls clean.

(** ** Cipher service *)

(** *** Text encoding: [TextEncoder] and [TextDecoder] (UTF-8) *)

Definition is_high_surrogate (u : Z) : bool := (0xD800 <=? u) && (u <=? 0xDBFF).
Definition is_low_surrogate (u : Z) : bool := (0xDC00 <=? u) && (u <=? 0xDFFF).

(** The scalar values [TextEncoder] reads off a string: a surrogate pair
    is one scalar value, and a surrogate without its partner is replaced by
    U+FFFD. *)
Fixpoint scalar_values (s : jsstring) : list Z :=
  match s with
  | [] => []
  | u :: rest =>
      if is_high_surrogate u then
        match rest with
        | v :: rest' =>
            if is_low_surrogate v
            then 0x10000 + (u - 0xD800) * 0x400 + (v - 0xDC00) :: scalar_values rest'
            else 0xFFFD :: scalar_values rest
        | [] => [0xFFFD]
        end
      else if is_low_surrogate u then 0xFFFD :: scalar_values rest
      else u :: scalar_values rest
  end.

Definition utf8_encode_scalar (c : Z) : list Z :=
  if c <? 0x80 then [c]
  else if c <? 0x800 then [0xC0 + c / 0x40; 0x80 + c mod 0x40]
  else if c <? 0x10000 then
    [0xE0 + c / 0x1000; 0x80 + (c / 0x40) mod 0x40; 0x80 + c mod 0x40]
  else
    [0xF0 + c / 0x40000; 0x80 + (c / 0x1000) mod 0x40;
     0x80 + (c / 0x40) mod 0x40; 0x80 + c mod 0x40].

#[global] Instance byte_eq_decision : EqDecision byte := Byte.byte_eq_dec.

(** A [Uint8Array] element from a number, and back. *)
Definition byte_of_Z (z : Z) : byte :=
  match Byte.of_N (Z.to_N (z mod 256)) with
  | Some b => b
  | None => Byte.x00
  end.

Definition Z_of_byte (b : byte) : Z := Z.of_N (Byte.to_N b).

(** [new TextEncoder().encode(s)] *)
Definition TextEncoder_encode (s : jsstring) : list byte :=
  map byte_of_Z (flat_map utf8_encode_scalar (scalar_values s)).

Definition between (lo hi b : Z) : bool := (lo <=? b) && (b <=? hi).

(** The UTF-8 decoder of [TextDecoder] in its default, non-fatal mode: an
    ill-formed sequence yields U+FFFD and decoding resumes at the byte that
    broke it. *)
Fixpoint utf8_decode (bs : list Z) : list Z :=
  match bs with
  | [] => []
  | b0 :: r0 =>
      if b0 <? 0x80 then b0 :: utf8_decode r0
      else if between 0xC2 0xDF b0 then
        match r0 with
        | b1 :: r1 =>
            if between 0x80 0xBF b1
            then (b0 - 0xC0) * 0x40 + (b1 - 0x80) :: utf8_decode r1
            else 0xFFFD :: utf8_decode r0
        | [] => [0xFFFD]
        end
      else if between 0xE0 0xEF b0 then
        match r0 with
        | b1 :: r1 =>
            if between (if b0 =? 0xE0 then 0xA0 else 0x80)
                       (if b0 =? 0xED then 0x9F else 0xBF) b1
            then
              match r1 with
              | b2 :: r2 =>
                  if between 0x80 0xBF b2
                  then (b0 - 0xE0) * 0x1000 + (b1 - 0x80) * 0x40 + (b2 - 0x80)
                       :: utf8_decode r2
                  else 0xFFFD :: utf8_decode r1
              | [] => [0xFFFD]
              end
            else 0xFFFD :: utf8_decode r0
        | [] => [0xFFFD]
        end
      else if between 0xF0 0xF4 b0 then
        match r0 with
        | b1 :: r1 =>
            if between (if b0 =? 0xF0 then 0x90 else 0x80)
                       (if b0 =? 0xF4 then 0x8F else 0xBF) b1
            then
              match r1 with
              | b2 :: r2 =>
                  if between 0x80 0xBF b2
                  then
                    match r2 with
                    | b3 :: r3 =>
                        if between 0x80 0xBF b3
                        then (b0 - 0xF0) * 0x40000 + (b1 - 0x80) * 0x1000
                             + (b2 - 0x80) * 0x40 + (b3 - 0x80)
                             :: utf8_decode r3
                        else 0xFFFD :: utf8_decode r2
                    | [] => [0xFFFD]
                    end
                  else 0xFFFD :: utf8_decode r1
              | [] => [0xFFFD]
              end
            else 0xFFFD :: utf8_decode r0
        | [] => [0xFFFD]
        end
      else 0xFFFD :: utf8_decode r0
  end.

Definition utf16_encode_scalar (c : Z) : list Z :=
  if c <? 0x10000 then [c]
  else [0xD800 + (c - 0x10000) / 0x400; 0xDC00 + (c - 0x10000) mod 0x400].

(** [TextDecoder] drops a leading byte order mark. *)
Definition strip_bom (bs : list Z) : list Z :=
  match bs with
  | b0 :: b1 :: b2 :: rest =>
      if (b0 =? 0xEF) && (b1 =? 0xBB) && (b2 =? 0xBF) then rest else bs
  | _ => bs
  end.

(** [new TextDecoder().decode(bytes)] *)
Definition TextDecoder_decode (bs : list byte) : jsstring :=
  flat_map utf16_encode_scalar (utf8_decode (strip_bom (map Z_of_byte bs))).

(** [Array.from(bytes)] and [new Uint8Array(array)]; [new
    Uint8Array(undefined)] is empty. *)
Definition Array_from (bs : list byte) : list Z := map Z_of_byte bs.

Definition Uint8Array_of (a : option (list Z)) : list byte :=
  match a with
  | Some l => map byte_of_Z l
  | None => []
  end.

(** *** Keys and messages *)

Definition bind {A B : Type} (x : outcome A) (f : A -> outcome B) : outcome B :=
  match x with
  | Returned a => f a
  | Thrown => Thrown
  end.

Notation "'await' x <- c 'in' k" := (bind c (fun x => k))
  (at level 10, x name, c at level 100, k at level 200).

Definition DEMO_SECRET : string := "chatly-demo-secret-v1".

Definition UNABLE_TO_DECRYPT : jsstring := js "[Unable to decrypt]".

Section CipherService.

(** Web Crypto, as the script uses it: PBKDF2 key derivation (password
    bytes, salt bytes; 100000 iterations of SHA-256, a 256-bit AES-GCM key)
    and AES-GCM under a key and a nonce. Each may throw. *)
Variable Key : Type.
Variable PBKDF2 : list byte -> list byte -> outcome Key.
Variable AES_GCM_encrypt : Key -> list byte -> list byte -> outcome (list byte).
Variable AES_GCM_decrypt : Key -> list byte -> list byte -> outcome (list byte).

(** Conversation ids are ASCII, so their characters are their UTF-8 bytes. *)
Definition deriveKey (conversationId : string) : outcome Key :=
  PBKDF2 (list_byte_of_string (String.append DEMO_SECRET (String.append "|" conversationId)))
         (list_byte_of_string conversationId).

(** [nonce] is what [crypto.getRandomValues(new Uint8Array(12))] drew. *)
Definition encryptMessage (conversationId : string) (plaintext : jsstring)
  (nonce : list byte) : outcome CipherPayload :=
  await key <- deriveKey conversationId in
  await ct <- AES_GCM_encrypt key nonce (TextEncoder_encode plaintext) in
  Returned (mkCipher (Some (Array_from nonce)) (Some (Array_from ct))).

(** The [try] block of [decryptMessage]; reading [cipher.iv] off
    [undefined] throws. *)
Definition decrypt_attempt (conversationId : string) (payload : option CipherPayload)
  : outcome jsstring :=
  await key <- deriveKey conversationId in
  await c <- match payload with Some c => Returned c | None => Thrown end in
  await pt <- AES_GCM_decrypt key (Uint8Array_of (iv c)) (Uint8Array_of (data c)) in
  Returned (TextDecoder_decode pt).

Definition decryptMessage (conversationId : string) (payload : option CipherPayload)
  : outcome jsstring :=
  match decrypt_attempt conversationId payload with
  | Returned text => Returned text
  | Thrown => Returned UNABLE_TO_DECRYPT
  end.

End CipherService.

(** ** UI state, timers and the world the callbacks run in *)

(** [state.lastSend] and [state.lastBot]: [{ convId, text, ts }]. *)
Record LastAction : Type := mkLast {
  la_convId : string;
  la_text : jsstring;
  la_ts : Z
}.

(** The [state] object. Its [peerTypingTimer] field is never read or
    written by this script and is left out. *)
Record State : Type := mkState {
  peerId : option string;
  pageIndex : Z;
  typingTimer : option positive;
  sending : bool;
  lastSend : option LastAction;
  lastBot : option LastAction
}.

(** A pending [setTimeout] callback: the delivery receipt of a sent
    message, an auto-reply, the end of the typing indicator, or one that
    touches the page only (the click gate of the send button, the removal
    and focus of the undo toast). *)
Inductive Job : Type :=
| JobUpdateStatus (messageId : string) (s : Status)
| JobBotReply (userText : jsstring) (convId : string) (peer : string)
| JobTypingOff
| JobPageOnly.

(** The world: the [state] object, [localStorage], the [botTimers] map and
    the browser's pending timers. Timer handles are the positive integers
    [setTimeout] returns; the browser hands them out in increasing order and
    never twice. *)
Record World : Type := mkWorld {
  state : State;
  localStorage : Storage;
  botTimers : gmap string positive;
  timers : gmap positive Job;
  nextTimer : positive
}.

Definition set_state (w : World) (st : State) : World :=
  mkWorld st (localStorage w) (botTimers w) (timers w) (nextTimer w).

Definition set_storage (w : World) (ls : Storage) : World :=
  mkWorld (state w) ls (botTimers w) (timers w) (nextTimer w).

Definition set_botTimers (w : World) (b : gmap string positive) : World :=
  mkWorld (state w) (localStorage w) b (timers w) (nextTimer w).

Definition setTimeout (j : Job) (w : World) : positive * World :=
  let tid := nextTimer w in
  (tid, mkWorld (state w) (localStorage w) (botTimers w)
                (<[tid := j]> (timers w)) (Pos.succ tid)).

Definition clearTimeout (tid : positive) (w : World) : World :=
  mkWorld (state w) (localStorage w) (botTimers w) (delete tid (timers w)) (nextTimer w).

(** ** Pagination *)

Definition PAGE_SIZE : Z := 20.

Definition in_conversation (c : string) (m : Message) : bool :=
  bool_decide (convId m = Some c).

(** [all.slice(start, end)] for [0 <= start]. *)
Definition slice {A : Type} (start stop : Z) (l : list A) : list A :=
  firstn (Z.to_nat (stop - start)) (skipn (Z.to_nat start) l).

Record Visible : Type := mkVisible {
  vis_slice : list Message;
  vis_total : Z
}.

Definition getVisibleMessages (w : World) : Visible * World :=
  match peerId (state w) with
  | None => (mkVisible [] 0, w)
  | Some p =>
      let '(data, ls) := loadData (localStorage w) in
      let convId := getConversationId p in
      let all := List.filter (fun m => in_conversation convId m && not_deleted m)
                             (messages data) in
      let total := Z.of_nat (length all) in
      let stop := total in
      let start := Z.max 0 (stop - PAGE_SIZE * (pageIndex (state w) + 1)) in
      (mkVisible (slice start stop all) total, set_storage w ls)
  end.

(** The store effects of [renderMessages] and [updateSidebarPreviews]:
    both read through [loadData], which writes the cleaned snapshot back.
    [renderMessages] returns at once when no conversation is open. *)
Definition updateSidebarPreviews (w : World) : World :=
  set_storage w (snd (loadData (localStorage w))).

Definition renderMessages (w : World) : World :=
  match peerId (state w) with
  | None => w
  | Some _ => snd (getVisibleMessages (snd (getVisibleMessages w)))
  end.

(** ** Lifecycle *)

(** [x => x.id === k] *)
Definition has_id (k : string) (m : Message) : bool := bool_decide (id m = Some k).

(** [data.messages.find(x => x.id === k)] *)
Definition find_by_id (k : string) (l : list Message) : option Message :=
  List.find (has_id k) l.

(** A write through the reference [find] returned: the first match is
    the object that changes, in place. *)
Fixpoint update_first (p : Message -> bool) (f : Message -> Message)
  (l : list Message) : list Message :=
  match l with
  | [] => []
  | x :: l' => if p x then f x :: l' else x :: update_first p f l'
  end.

Definition set_status (s : Status) (now : Z) (m : Message) : Message :=
  mkMessage (id m) (convId m) (from m) (to m) (cipher m) (createdAt m)
            (editedAt m) (deleted m) s
            (match s with seen => Some now | _ => seenAt m end).

Definition updateStatus (messageId : string) (s : Status) (now : Z) (w : World) : World :=
  let '(data, ls) := loadData (localStorage w) in
  match find_by_id messageId (messages data) with
  | Some _ =>
      let data' :=
        mkData (conversations data)
               (update_first (has_id messageId) (set_status s now) (messages data)) in
      renderMessages (set_storage w (saveData (to_snapshot data') ls))
  | None => set_storage w ls
  end.

(** [m.convId === convId && m.from !== "me" && !m.deleted] *)
Definition unseen_target (c : string) (m : Message) : bool :=
  in_conversation c m && negb (bool_decide (from m = Some "me")) && not_deleted m.

Definition mark_seen (c : string) (now : Z) (m : Message) : Message :=
  if unseen_target c m && negb (bool_decide (status m = seen))
  then set_status seen now m else m.

(** [nearBottom] is the scroll test on the message pane; [now] is
    [Date.now()]. *)
Definition markAllSeenIfAtBottom (nearBottom : bool) (now : Z) (w : World) : World :=
  match peerId (state w) with
  | None => w
  | Some p =>
      if negb nearBottom then w else
      let '(data, ls) := loadData (localStorage w) in
      let c := getConversationId p in
      let changed :=
        existsb (fun m => unseen_target c m && negb (bool_decide (status m = seen)))
                (messages data) in
      let data' := mkData (conversations data) (map (mark_seen c now) (messages data)) in
      let w1 :=
        if changed
        then renderMessages (set_storage w (saveData (to_snapshot data') ls))
        else set_storage w ls in
      set_storage w1 (mkStorage (stored (localStorage w1))
                                (<[c := now]> (lastRead (localStorage w1)))
                                (drafts (localStorage w1)))
  end.

(** The guard shared by [sendMessage] and [simulateBotResponse]:
    [last && last.convId === convId && last.text === text && now - last.ts < 600]. *)
Definition duplicate_within_600 (last : option LastAction) (c : string)
  (text : jsstring) (now : Z) : bool :=
  match last with
  | Some la =>
      bool_decide (la_convId la = c) && bool_decide (la_text la = text)
      && (now - la_ts la <? 600)
  | None => false
  end.

Definition simulateBotResponse (userText : jsstring) (c : string) (peer : string)
  (now : Z) (w : World) : World :=
  if duplicate_within_600 (lastBot (state w)) c userText now then w else
  let st := state w in
  let w1 := set_state w (mkState (peerId st) (pageIndex st) (typingTimer st) (sending st)
                                 (lastSend st) (Some (mkLast c userText now))) in
  let w2 :=
    match botTimers w1 !! c with
    | Some prev => set_botTimers (clearTimeout prev w1) (delete c (botTimers w1))
    | None => w1
    end in
  let '(tid, w3) := setTimeout (JobBotReply userText c peer) w2 in
  set_botTimers w3 (<[c := tid]> (botTimers w3)).

(** [sendMessage] up to its [await]: the guards, [state.lastSend],
    [state.sending] and [loadData]. *)
Record PendingSend : Type := mkPending {
  ps_convId : string;
  ps_text : jsstring;
  ps_now : Z;
  ps_peerIdAtSend : string;
  ps_data : Data
}.

Definition sendMessage_begin (text : jsstring) (now : Z) (w : World)
  : World * option PendingSend :=
  match peerId (state w) with
  | None => (w, None)
  | Some p =>
      if sending (state w) then (w, None) else
      let c := getConversationId p in
      if duplicate_within_600 (lastSend (state w)) c text now then (w, None) else
      let st := state w in
      let w1 := set_state w (mkState (peerId st) (pageIndex st) (typingTimer st) true
                                     (Some (mkLast c text now)) (lastBot st)) in
      let '(data, ls) := loadData (localStorage w1) in
      (set_storage w1 ls, Some (mkPending c text now p data))
  end.

Definition new_message (k : string) (c : string) (sender receiver : string)
  (payload : CipherPayload) (now : Z) (s : Status) : Message :=
  mkMessage (Some k) (Some c) (Some sender) (Some receiver) (Some payload)
            (Some now) None None s None.

(** [sendMessage] after the [await]: [enc] is what [encryptMessage]
    settled to, [newId] is [uuid()], [botNow] the [Date.now()] read by
    [simulateBotResponse]. The [finally] block runs on both paths. *)
Definition sendMessage_resume (ps : PendingSend) (enc : outcome CipherPayload)
  (newId : string) (botNow : Z) (w : World) : World :=
  let w' :=
    match enc with
    | Returned payload =>
        let msg := new_message newId (ps_convId ps) "me" (ps_peerIdAtSend ps)
                               payload (ps_now ps) sent in
        let data' := mkData (conversations (ps_data ps)) (messages (ps_data ps) ++ [msg]) in
        let w1 := set_storage w (saveData (to_snapshot data') (localStorage w)) in
        let w2 := renderMessages w1 in
        let w3 := snd (setTimeout (JobUpdateStatus newId delivered) w2) in
        simulateBotResponse (ps_text ps) (ps_convId ps) (ps_peerIdAtSend ps) botNow w3
    | Thrown => w
    end in
  let st := state w' in
  set_state w' (mkState (peerId st) (pageIndex st) (typingTimer st) false
                        (lastSend st) (lastBot st)).

(** [sendMessage] run without any other callback between its two halves. *)
Definition sendMessage (text : jsstring) (now : Z) (enc : outcome CipherPayload)
  (newId : string) (botNow : Z) (w : World) : World :=
  match sendMessage_begin text now w with
  | (w1, Some ps) => sendMessage_resume ps enc newId botNow w1
  | (w1, None) => w1
  end.

(** The auto-reply timer callback. [enc] is what encrypting
    [botReply(userText)] settled to. *)
Definition botReply_callback (c : string) (peer : string) (enc : outcome CipherPayload)
  (newId : string) (now : Z) (nearBottom : bool) (seenNow : Z) (w : World) : World :=
  let w1 := set_botTimers w (delete c (botTimers w)) in
  let '(data, ls) := loadData (localStorage w1) in
  let w2 := set_storage w1 ls in
  match enc with
  | Thrown => w2
  | Returned payload =>
      let msg := new_message newId c peer "me" payload now delivered in
      let data' := mkData (conversations data) (messages data ++ [msg]) in
      let w3 := set_storage w2 (saveData (to_snapshot data') (localStorage w2)) in
      match peerId (state w3) with
      | Some p =>
          if bool_decide (getConversationId p = c)
          then markAllSeenIfAtBottom nearBottom seenNow (renderMessages w3)
          else updateSidebarPreviews w3
      | None => updateSidebarPreviews w3
      end
  end.

(** A timer fires: it leaves the pending set and its callback runs. *)
Definition fire (tid : positive) (enc : outcome CipherPayload) (newId : string)
  (now : Z) (nearBottom : bool) (w : World) : World :=
  match timers w !! tid with
  | None => w
  | Some j =>
      let w1 := clearTimeout tid w in
      match j with
      | JobUpdateStatus k s => updateStatus k s now w1
      | JobBotReply _ c peer => botReply_callback c peer enc newId now nearBottom now w1
      | JobTypingOff => w1
      | JobPageOnly => w1
      end
  end.

(** [onEditMessage]: the part that loads the store and finds the message. *)
Definition onEditMessage_begin (k : string) (w : World) : World * option Data :=
  let '(data, ls) := loadData (localStorage w) in
  match find_by_id k (messages data) with
  | Some _ => (set_storage w ls, Some data)
  | None => (set_storage w ls, None)
  end.

Definition set_cipher (payload : CipherPayload) (now : Z) (m : Message) : Message :=
  mkMessage (id m) (convId m) (from m) (to m) (Some payload) (createdAt m)
            (Some now) (deleted m) (status m) (seenAt m).

(** [finish(commit)], on the [data] and the message reference the handler
    captured when it started. *)
Definition onEditMessage_finish (data : Data) (k : string) (commit : bool)
  (original newText : jsstring) (enc : outcome CipherPayload) (now : Z)
  (w : World) : World :=
  if commit && negb (bool_decide (newText = [])) && negb (bool_decide (newText = original))
  then
    match enc with
    | Returned payload =>
        let data' :=
          mkData (conversations data)
                 (update_first (has_id k) (set_cipher payload now) (messages data)) in
        renderMessages (set_storage w (saveData (to_snapshot data') (localStorage w)))
    | Thrown => w
    end
  else w.

Definition set_deleted (b : bool) (m : Message) : Message :=
  mkMessage (id m) (convId m) (from m) (to m) (cipher m) (createdAt m)
            (editedAt m) (Some b) (status m) (seenAt m).

(** [onDeleteMessage] up to the toast: the second component is the
    [snapshot = { ...m }] the undo callback closes over. *)
Definition onDeleteMessage (k : string) (w : World) : World * option Message :=
  let '(data, ls) := loadData (localStorage w) in
  match find_by_id k (messages data) with
  | None => (set_storage w ls, None)
  | Some m =>
      let data' :=
        mkData (conversations data)
               (update_first (has_id k) (set_deleted true) (messages data)) in
      let w1 := set_storage w (saveData (to_snapshot data') ls) in
      (updateSidebarPreviews (renderMessages w1), Some (set_deleted true m))
  end.

(** A property of the source overrides the target's when the source has
    it. *)
Definition assign_field {A : Type} (target source : option A) : option A :=
  match source with Some v => Some v | None => target end.

(** [Object.assign(mm, snapshot, { deleted: false })] *)
Definition Object_assign_restore (mm snapshot : Message) : Message :=
  mkMessage (assign_field (id mm) (id snapshot))
            (assign_field (convId mm) (convId snapshot))
            (assign_field (from mm) (from snapshot))
            (assign_field (to mm) (to snapshot))
            (assign_field (cipher mm) (cipher snapshot))
            (assign_field (createdAt mm) (createdAt snapshot))
            (assign_field (editedAt mm) (editedAt snapshot))
            (Some false)
            (status snapshot)
            (assign_field (seenAt mm) (seenAt snapshot)).

(** The callback handed to [toastUndo]. *)
Definition undoDelete (k : string) (snapshot : Message) (w : World) : World :=
  let '(d2, ls) := loadData (localStorage w) in
  match find_by_id k (messages d2) with
  | Some _ =>
      let d2' :=
        mkData (conversations d2)
               (update_first (has_id k) (fun mm => Object_assign_restore mm snapshot)
                             (messages d2)) in
      updateSidebarPreviews
        (renderMessages (set_storage w (saveData (to_snapshot d2') ls)))
  | None => set_storage w ls
  end.

(** The order Sent < Delivered < Seen. *)
Definition rank (s : Status) : nat :=
  match s with sent => 0 | delivered => 1 | seen => 2 end.

(** ** Operations and events *)

(** The operations of the lifecycle, each run to completion. *)
Inductive Op : Type :=
| OpUpdateStatus (messageId : string) (s : Status) (now : Z)
| OpMarkAllSeen (nearBottom : bool) (now : Z)
| OpSend (text : jsstring) (now : Z) (enc : outcome CipherPayload) (newId : string)
         (botNow : Z)
| OpEdit (k : string) (commit : bool) (original newText : jsstring)
         (enc : outcome CipherPayload) (now : Z)
| OpDelete (k : string)
| OpUndo (k : string) (snapshot : Message).

Definition run_op (o : Op) (w : World) : World :=
  match o with
  | OpUpdateStatus k s now => updateStatus k s now w
  | OpMarkAllSeen nearBottom now => markAllSeenIfAtBottom nearBottom now w
  | OpSend text now enc newId botNow => sendMessage text now enc newId botNow w
  | OpEdit k commit original newText enc now =>
      match onEditMessage_begin k w with
      | (w1, Some data) => onEditMessage_finish data k commit original newText enc now w1
      | (w1, None) => w1
      end
  | OpDelete k => fst (onDeleteMessage k w)
  | OpUndo k snapshot => undoDelete k snapshot w
  end.

(** The [input] listener of the composer: the draft is stored, and the
    typing timer is cleared and armed again. [getConversationId(null)] is
    ["conv-null"]. *)
Definition onInput (value : jsstring) (w : World) : World :=
  let c := getConversationId (match peerId (state w) with Some p => p | None => "null" end) in
  let ls := localStorage w in
  let w1 := set_storage w (mkStorage (stored ls) (lastRead ls) (<[c := value]> (drafts ls))) in
  let w2 := match typingTimer (state w1) with
            | Some t => clearTimeout t w1
            | None => w1
            end in
  let '(tid, w3) := setTimeout JobTypingOff w2 in
  let st := state w3 in
  set_state w3 (mkState (peerId st) (pageIndex st) (Some tid) (sending st)
                        (lastSend st) (lastBot st)).

Definition switchConversation (peer : string) (nearBottom : bool) (now : Z)
  (w : World) : World :=
  let st := state w in
  let w1 := set_state w (mkState (Some peer) 0 (typingTimer st) (sending st)
                                 (lastSend st) (lastBot st)) in
  markAllSeenIfAtBottom nearBottom now (renderMessages (updateSidebarPreviews w1)).

(** The click listener of the close button. *)
Definition closeChat (w : World) : World :=
  let st := state w in
  updateSidebarPreviews
    (set_state w (mkState None 0 (typingTimer st) (sending st) (lastSend st) (lastBot st))).

(** The [scroll] listener of the message pane; [atTop] is
    [messagesEl.scrollTop === 0]. *)
Definition onScroll (atTop nearBottom : bool) (now : Z) (w : World) : World :=
  match peerId (state w) with
  | None => w
  | Some p =>
      let w1 :=
        if atTop then
          let '(data, ls) := loadData (localStorage w) in
          let count :=
            Z.of_nat (length (List.filter (in_conversation (getConversationId p))
                                          (messages data))) in
          let st := state w in
          if PAGE_SIZE * (pageIndex st + 1) <? count
          then renderMessages
                 (set_state (set_storage w ls)
                            (mkState (peerId st) (pageIndex st + 1) (typingTimer st)
                                     (sending st) (lastSend st) (lastBot st)))
          else set_storage w ls
        else w in
      markAllSeenIfAtBottom nearBottom now w1
  end.

(** What can happen to the page. [EvArmPageTimer] is a [setTimeout] of a
    page-only callback; [EvStorage] is any other write to [localStorage]
    (the demo seeding at start, the draft removal after a send, another
    tab). *)
Inductive Event : Type :=
| EvOp (o : Op)
| EvReply (userText : jsstring) (c : string) (peer : string) (now : Z)
| EvFire (tid : positive) (enc : outcome CipherPayload) (newId : string) (now : Z)
         (nearBottom : bool)
| EvInput (value : jsstring)
| EvSwitch (peer : string) (nearBottom : bool) (now : Z)
| EvClose
| EvScroll (atTop nearBottom : bool) (now : Z)
| EvArmPageTimer
| EvStorage (ls : Storage).

Definition handle (e : Event) (w : World) : World :=
  match e with
  | EvOp o => run_op o w
  | EvReply userText c peer now => simulateBotResponse userText c peer now w
  | EvFire tid enc newId now nearBottom => fire tid enc newId now nearBottom w
  | EvInput value => onInput value w
  | EvSwitch peer nearBottom now => switchConversation peer nearBottom now w
  | EvClose => closeChat w
  | EvScroll atTop nearBottom now => onScroll atTop nearBottom now w
  | EvArmPageTimer => snd (setTimeout JobPageOnly w)
  | EvStorage ls => set_storage w ls
  end.

(** The page has just loaded: no conversation open, no timer armed,
    whatever [localStorage] holds. *)
Definition initial_world (ls : Storage) : World :=
  mkWorld (mkState None 0 None false None None) ls ∅ ∅ 1%positive.

Inductive reachable : World -> Prop :=
| reachable_initial (ls : Storage) : reachable (initial_world ls)
| reachable_handle (e : Event) (w : World) : reachable w -> reachable (handle e w).

(** ** Further parts of the page *)

(** As everywhere in this development, the peer id of an open conversation
    is one of the contact ids, hence not empty: [state.peerId] is [Some] of
    it while a conversation is open and [None] otherwise. *)

(** *** Unread messages and sidebar previews *)

(** [m.createdAt > lastReadTs && m.from !== "me" && !m.deleted]; a
    comparison with [undefined] is false. *)
Definition is_unread (lastReadTs : Z) (m : Message) : bool :=
  match createdAt m with Some t => lastReadTs <? t | None => false end
  && negb (bool_decide (from m = Some "me")) && not_deleted m.

(** [setupUnreadJump]: the [unread] array, whose length the button shows and
    whose first element it jumps to. The stored last-read time is the
    decimal print of an integer, which [parseInt] reads back; without one
    the time is 0. *)
Definition setupUnreadJump (w : World) : list Message * World :=
  match peerId (state w) with
  | None => ([], w)
  | Some p =>
      let convId := getConversationId p in
      let lastReadTs :=
        match lastRead (localStorage w) !! convId with Some t => t | None => 0 end in
      let '(v, w1) := getVisibleMessages w in
      (List.filter (is_unread lastReadTs) (vis_slice v), w1)
  end.

(** [updateSidebarPreviews], for the conversation with one contact: the
    message [msgs.at(-1)] whose text and time the sidebar shows, if any. *)
Definition preview_message (c : Contact) (data : Data) : option Message :=
  let convId := getConversationId (contact_id c) in
  last (List.filter (fun m => in_conversation convId m && not_deleted m) (messages data)).

(** *** Text on the page *)

(** What [escapeHtml] puts for one code unit: the five characters
    ampersand, less-than, greater-than, double quote and apostrophe become
    character references, every other code unit stays. *)
Definition escape_unit (u : Z) : jsstring :=
  if u =? 38 then js "&amp;"
  else if u =? 60 then js "&lt;"
  else if u =? 62 then js "&gt;"
  else if u =? 34 then js "&quot;"
  else if u =? 39 then js "&#39;"
  else [u].

(** [s.replace(/[...]/g, m => table[m])] *)
Definition escapeHtml (s : jsstring) : jsstring := flat_map escape_unit s.

(** White space and line terminators, the code units
    [String.prototype.trim] strips. *)
Definition is_white_space (u : Z) : bool :=
  (u =? 0x09) || (u =? 0x0A) || (u =? 0x0B) || (u =? 0x0C) || (u =? 0x0D)
  || (u =? 0x20) || (u =? 0xA0) || (u =? 0x1680)
  || ((0x2000 <=? u) && (u <=? 0x200A))
  || (u =? 0x2028) || (u =? 0x2029) || (u =? 0x202F) || (u =? 0x205F)
  || (u =? 0x3000) || (u =? 0xFEFF).

Fixpoint trimStart (s : jsstring) : jsstring :=
  match s with
  | u :: rest => if is_white_space u then trimStart rest else s
  | [] => []
  end.

Definition trimEnd (s : jsstring) : jsstring := rev (trimStart (rev s)).

(** [s.trim()] *)
Definition trim (s : jsstring) : jsstring := trimEnd (trimStart s).

(** *** The send button *)

(** What a click on the send button leaves behind: the [clickGate] flag
    its handler closes over, the value of the composer input, and the
    world. *)
Record Composer : Type := mkComposer {
  clickGate : bool;
  inputValue : jsstring;
  world : World
}.

(** The statements of [onSendClick] after [await sendMessage(text)]: the
    composer is emptied and the draft of the conversation open by then is
    removed. *)
Definition clear_composer (w : World) : Composer :=
  let c := getConversationId (match peerId (state w) with Some p => p | None => "null" end) in
  let ls := localStorage w in
  mkComposer true []
             (set_storage w (mkStorage (stored ls) (lastRead ls) (delete c (drafts ls)))).

(** [onSendClick], with [sendMessage] run without any other callback
    between its two halves. The gate closes and a timer is armed to reopen
    it after 350 ms. When [sendMessage] rejects (the encryption threw), the
    handler stops at the [await]. *)
Definition onSendClick (gate : bool) (value : jsstring) (now : Z)
  (enc : outcome CipherPayload) (newId : string) (botNow : Z) (w : World) : Composer :=
  if gate then mkComposer gate value w else
  let w1 := snd (setTimeout JobPageOnly w) in
  match peerId (state w1) with
  | None => mkComposer true value w1
  | Some _ =>
      if sending (state w1) then mkComposer true value w1 else
      let text := trim value in
      if bool_decide (text = []) then mkComposer true value w1 else
      match sendMessage_begin text now w1 with
      | (w2, Some ps) =>
          match enc with
          | Returned _ => clear_composer (sendMessage_resume ps enc newId botNow w2)
          | Thrown => mkComposer true value (sendMessage_resume ps enc newId botNow w2)
          end
      | (w2, None) => clear_composer w2
      end
  end.

(** *** The auto-reply text *)

Fixpoint starts_with (p s : jsstring) : bool :=
  match p, s with
  | [], _ => true
  | a :: p', b :: s' => (a =? b) && starts_with p' s'
  | _ :: _, [] => false
  end.

(** [s.includes(p)] *)
Fixpoint includes (p s : jsstring) : bool :=
  starts_with p s || match s with [] => false | _ :: s' => includes p s' end.

(** The seven texts [botReply] chooses from, in the order of its tests:
    the greeting, the answer to how are you, the hints on the theme, on
    editing, on deleting and on scrolling, and the fallback. *)
Inductive Reply : Type :=
| ReplyGreeting | ReplyWellbeing | ReplyTheme | ReplyEdit | ReplyDelete | ReplyScroll
| ReplyFallback.

Section BotReply.

(** [String.prototype.toLowerCase], which follows the Unicode case
    mappings. *)
Variable toLowerCase : jsstring -> jsstring.

Definition botReply (text : jsstring) : Reply :=
  let t := trim (toLowerCase text) in
  if includes (js "hello") t || includes (js "hi") t then ReplyGreeting
  else if includes (js "how are you") t then ReplyWellbeing
  else if includes (js "theme") t then ReplyTheme
  else if includes (js "edit") t then ReplyEdit
  else if includes (js "delete") t then ReplyDelete
  else if includes (js "paginate") t || includes (js "scroll") t then ReplyScroll
  else ReplyFallback.

End BotReply.

(** *** The undo toast *)

(** The variables the callbacks of [toastUndo] close over. *)
Record Toast : Type := mkToast {
  removed : bool;
  remaining : Z;
  lastTick : Z;
  paused : bool
}.

(** The toast as [toastUndo] leaves it; [now] is [Date.now()]. *)
Definition toast_shown (now : Z) : Toast := mkToast false 6000 now false.

(** [remove] *)
Definition toast_remove (t : Toast) : Toast :=
  mkToast true (remaining t) (lastTick t) (paused t).

(** [tick], the animation-frame callback. *)
Definition tick (now : Z) (t : Toast) : Toast :=
  if removed t || paused t then t else
  let delta := now - lastTick t in
  let t1 := mkToast (removed t) (Z.max 0 (remaining t - delta)) now (paused t) in
  if remaining t1 <=? 0 then toast_remove t1 else t1.

(** What happens to a toast: an animation frame, the pointer entering or
    leaving it, a click on it. *)
Inductive ToastEvent : Type :=
| Frame (now : Z)
| MouseEnter
| MouseLeave (now : Z)
| ClickToast.

Definition toast_step (e : ToastEvent) (t : Toast) : Toast :=
  match e with
  | Frame now => tick now t
  | MouseEnter => mkToast (removed t) (remaining t) (lastTick t) true
  | MouseLeave now => mkToast (removed t) (remaining t) now false
  | ClickToast => toast_remove t
  end.

(** *** The first run *)

(** [CONTACTS[0].id] *)
Definition first_contact : string :=
  match CONTACTS with c :: _ => contact_id c | [] => "" end.

(** The two messages [seedDemoIfEmpty] pushes. Each object literal draws
    its id, awaits its cipher and then reads the clock: once in the first,
    twice in the second. *)
Definition seed_received (k : string) (payload : CipherPayload) (now : Z) : Message :=
  mkMessage (Some k) (Some (getConversationId first_contact)) (Some first_contact)
            (Some "me") (Some payload) (Some (now - 1000 * 60 * 2)) None None delivered None.

Definition seed_sent (k : string) (payload : CipherPayload) (now now' : Z) : Message :=
  mkMessage (Some k) (Some (getConversationId first_contact)) (Some "me")
            (Some first_contact) (Some payload) (Some (now - 1000 * 60 * 1)) None None seen
            (Some (now' - 1000 * 50)).

(** [seedDemoIfEmpty], its asynchronous body run without any other
    callback in between. When an encryption throws, the body stops there and
    nothing is saved. *)
Definition seedDemoIfEmpty (id1 id2 : string) (enc1 enc2 : outcome CipherPayload)
  (now1 now2 now3 : Z) (nearBottom : bool) (seenNow : Z) (w : World) : World :=
  let '(data, ls) := loadData (localStorage w) in
  let w1 := set_storage w ls in
  match messages data with
  | _ :: _ => w1
  | [] =>
      match enc1, enc2 with
      | Returned c1, Returned c2 =>
          let data' :=
            mkData (conversations data)
                   (messages data ++ [seed_received id1 c1 now1; seed_sent id2 c2 now2 now3]) in
          let w2 := set_storage w1 (saveData (to_snapshot data') (localStorage w1)) in
          markAllSeenIfAtBottom nearBottom seenNow (renderMessages (updateSidebarPreviews w2))
      | _, _ => w1
      end
  end.

(** [start], as far as the store goes: [loadData], [saveData] of what it
    returned, the sidebar, [renderMessages] when a conversation is open, and
    the seeding. The theme, density and mode items it reads and writes are
    not part of [Storage]. *)
Definition start (id1 id2 : string) (enc1 enc2 : outcome CipherPayload)
  (now1 now2 now3 : Z) (nearBottom : bool) (seenNow : Z) (w : World) : World :=
  let '(tmp, ls) := loadData (localStorage w) in
  let w1 := set_storage w (saveData (to_snapshot tmp) ls) in
  let w2 := updateSidebarPreviews w1 in
  let w3 := match peerId (state w2) with Some _ => renderMessages w2 | None => w2 end in
  seedDemoIfEmpty id1 id2 enc1 enc2 now1 now2 now3 nearBottom seenNow w3.

(** ** Vocabulary of the properties *)

(** The key a message is filed under in [byId]. *)
Definition the_id (m : Message) : string := join_elem (id m).

(** [m.cipher.iv] and [m.cipher.data] as byte lists, empty when absent. *)
Definition nonce_bytes (m : Message) : list Z :=
  match cipher m with
  | Some c => match iv c with Some b => b | None => [] end
  | None => []
  end.

Definition ciphertext_bytes (m : Message) : list Z :=
  match cipher m with
  | Some c => match data c with Some b => b | None => [] end
  | None => []
  end.

(** Ascending [createdAt || 0], neighbour by neighbour. *)
Definition createdAt_le (a b : Message) : Prop := or0 (createdAt a) <= or0 (createdAt b).

(** A list the store can hold after a save. *)
Record compacted (l : list Message) : Prop := mkCompacted {
  compacted_truthy : Forall (fun m => truthy (id m) = true) l;
  compacted_ids : List.NoDup (map the_id l);
  compacted_fps : List.NoDup (map fingerprint l);
  compacted_sorted : Sorted createdAt_le l
}.

(** What compaction looks at in a message. *)
Definition compaction_view (m : Message) : option string * string * option Z :=
  (id m, fingerprint m, createdAt m).

(** What the first loop maintains: keys are distinct, every value is
    filed under its own truthy id and comes from the input. *)
Definition byId_inv (S : list entry) (acc : JsMap string Message) : Prop :=
  List.NoDup (Map_keys acc) /\
  Forall (fun p => the_id (snd p) = fst p /\ truthy (id (snd p)) = true
                   /\ In (Some (snd p)) S) acc.

(** What the second loop maintains. *)
Definition byFp_inv (arr : list Message) (acc : JsMap string Message) : Prop :=
  List.NoDup (Map_keys acc) /\
  Forall (fun p => fingerprint (snd p) = fst p /\ In (snd p) arr) acc.

(** The last [n] elements of a list (all of it when it is shorter). *)
Definition last_n {A : Type} (n : nat) (l : list A) : list A :=
  skipn (length l - n) l.

(** The non-tombstoned messages of a conversation, in stored order. *)
Definition visible_in (c : string) (l : list Message) : list Message :=
  List.filter (fun m => in_conversation c m && not_deleted m) l.

(** What [loadData] returns for the current storage. *)
Definition loaded (w : World) : list Message := messages (fst (loadData (localStorage w))).

(** The world's store holds exactly the compacted list [l]. *)
Definition holds (w : World) (l : list Message) : Prop :=
  compacted l /\
  exists convs, stored (localStorage w) = Some (mkSnapshot convs (Some (map Some l))).

(** The status [loadData] shows for the message with id [k], if any. *)
Definition status_of (k : string) (w : World) : option Status :=
  option_map status (find_by_id k (loaded w)).

(** An operation that writes a status it is handed keeps the order only
    when that status is not earlier than the stored one: the status asked
    of [updateStatus], and the status in the snapshot the undo callback
    closes over (whose id is the id it looks up). A sent message gets a
    fresh [uuid()]. *)
Definition order_respecting (o : Op) (w : World) : Prop :=
  match o with
  | OpUpdateStatus k s _ =>
      forall s0, status_of k w = Some s0 -> (rank s0 <= rank s)%nat
  | OpUndo k snapshot =>
      id snapshot = Some k /\
      forall s0, status_of k w = Some s0 -> (rank s0 <= rank (status snapshot))%nat
  | OpSend _ _ _ newId _ => find_by_id newId (loaded w) = None
  | _ => True
  end.

(** No message present before and after the step has moved backward. *)
Definition step_monotone (w w' : World) : Prop :=
  forall k s0 s1, status_of k w = Some s0 -> status_of k w' = Some s1 ->
                  (rank s0 <= rank s1)%nat.

Fixpoint run (ops : list Op) (w : World) : World :=
  match ops with
  | [] => w
  | o :: ops' => run ops' (run_op o w)
  end.

Fixpoint respecting_run (ops : list Op) (w : World) : Prop :=
  match ops with
  | [] => True
  | o :: ops' => order_respecting o w /\ respecting_run ops' (run_op o w)
  end.

Fixpoint monotone_run (ops : list Op) (w : World) : Prop :=
  match ops with
  | [] => True
  | o :: ops' => step_monotone w (run_op o w) /\ monotone_run ops' (run_op o w)
  end.

(** The part of the world the timers live in. *)
Definition timer_view (w : World)
  : gmap string positive * gmap positive Job * positive * option positive :=
  (botTimers w, timers w, nextTimer w, typingTimer (state w)).

(** [botTimers] and the pending reply timers mirror each other; handles
    are handed out in increasing order; the typing handle never names a
    pending timer of another kind. *)
Record timer_inv (w : World) : Prop := mkTimerInv {
  inv_tracked : forall c tid, botTimers w !! c = Some tid ->
                  exists u p, timers w !! tid = Some (JobBotReply u c p);
  inv_single : forall tid u c p, timers w !! tid = Some (JobBotReply u c p) ->
                 botTimers w !! c = Some tid;
  inv_below : forall tid j, timers w !! tid = Some j -> (tid < nextTimer w)%positive;
  inv_typing : forall t, typingTimer (state w) = Some t ->
                 (t < nextTimer w)%positive /\
                 forall j, timers w !! t = Some j -> j = JobTypingOff
}.

(** A string with every surrogate in a pair, and code units in range. *)
Fixpoint well_formed (s : jsstring) : bool :=
  match s with
  | [] => true
  | u :: rest =>
      if is_high_surrogate u then
        match rest with
        | v :: rest' => is_low_surrogate v && well_formed rest'
        | [] => false
        end
      else negb (is_low_surrogate u) && (0 <=? u) && (u <=? 0xFFFF) && well_formed rest
  end.

Definition starts_with_bom (s : jsstring) : bool :=
  match s with
  | u :: _ => u =? 0xFEFF
  | [] => false
  end.

(** A Unicode scalar value: a code point that is not a surrogate. *)
Definition is_scalar (c : Z) : Prop := 0 <= c < 0xD800 \/ 0xE000 <= c <= 0x10FFFF.

Definition is_byte (b : Z) : Prop := 0 <= b < 256.

(** What the page shows of the [state] object: the open conversation and
    how many pages of it are loaded. *)
Definition page_of (w : World) : option string * Z :=
  (peerId (state w), pageIndex (state w)).

(** The page index counts pages loaded beyond the newest, and is 0 while no
    conversation is open. *)
Definition page_inv (w : World) : Prop :=
  0 <= pageIndex (state w) /\ (peerId (state w) = None -> pageIndex (state w) = 0).

(** The character references [escapeHtml] writes, read back. *)
Fixpoint decode_references (s : jsstring) : jsstring :=
  match s with
  | [] => []
  | u :: r =>
      let plain := u :: decode_references r in
      if u =? 38 then
        match r with
        | a :: r1 =>
            match r1 with
            | b :: r2 =>
                match r2 with
                | c :: r3 =>
                    if (a =? 108) && (b =? 116) && (c =? 59)
                    then 60 :: decode_references r3
                    else if (a =? 103) && (b =? 116) && (c =? 59)
                    then 62 :: decode_references r3
                    else
                      match r3 with
                      | d :: r4 =>
                          if (a =? 97) && (b =? 109) && (c =? 112) && (d =? 59)
                          then 38 :: decode_references r4
                          else if (a =? 35) && (b =? 51) && (c =? 57) && (d =? 59)
                          then 39 :: decode_references r4
                          else
                            match r4 with
                            | e :: r5 =>
                                if (a =? 113) && (b =? 117) && (c =? 111) && (d =? 116)
                                   && (e =? 59)
                                then 34 :: decode_references r5
                                else plain
                            | [] => plain
                            end
                      | [] => plain
                      end
                | [] => plain
                end
            | [] => plain
            end
        | [] => plain
        end
      else plain
  end.

(** [toLowerCase] on a string of ASCII characters. *)
Definition ascii_lower (u : Z) : Z := if (65 <=? u) && (u <=? 90) then u + 32 else u.
Definition ascii_upper (u : Z) : Z := if (97 <=? u) && (u <=? 122) then u - 32 else u.
Definition is_ascii (u : Z) : Prop := 0 <= u < 128.

(** A run of events on a toast. *)
Definition toast_run (evs : list ToastEvent) (t : Toast) : Toast :=
  fold_left (fun t e => toast_step e t) evs t.

(** The clock does not run backwards: every reading is at or after the
    one before it, starting from [since]. *)
Fixpoint clock_forward (since : Z) (evs : list ToastEvent) : Prop :=
  match evs with
  | [] => True
  | Frame now :: evs' => since <= now /\ clock_forward now evs'
  | MouseLeave now :: evs' => since <= now /\ clock_forward now evs'
  | _ :: evs' => clock_forward since evs'
  end.

(** What a toast left alone keeps true from frame to frame, [last] being
    the time of the latest frame (or of its showing). *)
Definition toast_alone (shown last : Z) (t : Toast) : Prop :=
  paused t = false /\ shown <= last
  /\ remaining t = Z.max 0 (6000 - (last - shown))
  /\ removed t = (remaining t <=? 0)
  /\ (removed t = false -> lastTick t = last).

(** An entry of a stored array that is a message with id [k]. *)
Definition entry_has_id (k : string) (e : entry) : bool :=
  match e with Some m => has_id k m | None => false end.

(** At most one timer that hides the typing indicator is pending, and
    [state.typingTimer] names it. *)
Definition typing_single (w : World) : Prop :=
  forall t, timers w !! t = Some JobTypingOff -> typingTimer (state w) = Some t.

(** A step that arms no timer of the typing indicator and keeps
    [state.typingTimer]. *)
Definition no_new_typing (w w' : World) : Prop :=
  (forall t, timers w' !! t = Some JobTypingOff -> timers w !! t = Some JobTypingOff)
  /\ typingTimer (state w') = typingTimer (state w).

(** ** Sample data *)

(** Sample messages for the concrete instances below. *)
Definition sample_payload : CipherPayload :=
  mkCipher (Some [11; 22; 33; 44; 55; 66; 77; 88; 99; 110; 121; 132])
           (Some [201; 17; 5; 240; 63; 128; 9; 31]).

Definition msg_at (k : string) (t : Z) : Message :=
  new_message k "conv-u-1" "me" "u-1" sample_payload t sent.

Definition with_status (s : Status) (m : Message) : Message :=
  mkMessage (id m) (convId m) (from m) (to m) (cipher m) (createdAt m)
            (editedAt m) (deleted m) s (seenAt m).

(** A world with conversation [conv-u-1] open and the given stored messages. *)
Definition world_with (msgs : list Message) : World :=
  mkWorld (mkState (Some "u-1") 0 None false None None)
          (mkStorage (Some (mkSnapshot [] (Some (map Some msgs)))) ∅ ∅)
          ∅ ∅ 1%positive.

(** Send, delete within the delivery delay, let the delivery timer fire,
    then undo. *)
Definition after_send : World :=
  sendMessage (js "hi") 1000 (Returned sample_payload) "m-1" 1001 (world_with []).
Definition after_delete : World * option Message := onDeleteMessage "m-1" after_send.
Definition after_delivery : World :=
  fire 1%positive Thrown "unused" 1300 false (fst after_delete).
Definition after_undo : World :=
  match snd after_delete with
  | Some snapshot => undoDelete "m-1" snapshot after_delivery
  | None => after_delivery
  end.

Definition sample_nonce : list byte :=
  map byte_of_Z [11; 22; 33; 44; 55; 66; 77; 88; 99; 110; 121; 132].

(** A stand-in for Web Crypto to run the service on: the key is the
    password, sealing appends the nonce and the key as a tag, opening checks
    the tag. *)
Definition toy_PBKDF2 (password salt : list byte) : outcome (list byte) :=
  Returned password.

Definition toy_seal (key nonce pt : list byte) : outcome (list byte) :=
  Returned (pt ++ nonce ++ key).

Definition toy_open (key nonce ct : list byte) : outcome (list byte) :=
  let n := (length ct - length (nonce ++ key))%nat in
  if bool_decide (skipn n ct = nonce ++ key) then Returned (firstn n ct) else Thrown.

(** ** Proof steps used more than once *)

#[local] Instance createdAt_le_trans : Transitive createdAt_le.
Proof. unfold createdAt_le. intros a b c. lia. Qed.

Ltac dlia := Z.div_mod_to_equations; lia.

(** Decide the integer tests in the goal one at a time, keeping the
    branch the context allows. *)
Ltac ztest :=
  match goal with
  | |- context [Z.eqb ?a ?b] => destruct (Z.eqb_spec a b); try (exfalso; dlia)
  | |- context [Z.ltb ?a ?b] => destruct (Z.ltb_spec a b); try (exfalso; dlia)
  | |- context [Z.leb ?a ?b] => destruct (Z.leb_spec a b); try (exfalso; dlia)
  end; cbn [andb negb].

(** * Properties *)

(** ** Insertion-ordered maps *)

Section JsMapFacts.
Context {K V : Type} `{EqDecision K}.
Implicit Types (m : JsMap K V) (k : K) (v : V).

Lemma Map_get_None k m : Map_get k m = None <-> ~ In k (Map_keys m).
Proof.
  induction m as [|[k' v'] m IH]; simpl; [tauto|].
  destruct (decide (k' = k)) as [->|Hne]; [split; [discriminate | tauto]|].
  rewrite IH. tauto.
Qed.

Lemma Map_get_Some k v m : Map_get k m = Some v -> In (k, v) m.
Proof.
  induction m as [|[k' v'] m IH]; simpl; [discriminate|].
  destruct (decide (k' = k)) as [->|Hne]; [intros [= ->]; auto | auto].
Qed.

Lemma Map_set_fresh k v m : ~ In k (Map_keys m) -> Map_set k v m = m ++ [(k, v)].
Proof.
  induction m as [|[k' v'] m IH]; simpl; [reflexivity|].
  intros Hn. destruct (decide (k' = k)) as [->|Hne]; [tauto|].
  rewrite IH by tauto. reflexivity.
Qed.

Lemma Map_set_keys_present k v m : In k (Map_keys m) -> Map_keys (Map_set k v m) = Map_keys m.
Proof.
  induction m as [|[k' v'] m IH]; simpl; [tauto|].
  intros Hin. destruct (decide (k' = k)) as [->|Hne]; simpl; [reflexivity|].
  rewrite IH; [reflexivity | tauto].
Qed.

Lemma Map_set_keys_NoDup k v m : List.NoDup (Map_keys m) -> List.NoDup (Map_keys (Map_set k v m)).
Proof.
  intros Hnd. destruct (in_dec (fun a b => decide (a = b)) k (Map_keys m)) as [Hin|Hn].
  - rewrite Map_set_keys_present; assumption.
  - rewrite Map_set_fresh by assumption. unfold Map_keys in *. rewrite map_app. simpl.
    apply List.NoDup_app; auto.
    + repeat constructor. simpl. tauto.
    + intros x Hx [<-|[]]. tauto.
Qed.

Lemma Map_set_In k v m k0 v0 :
  In (k0, v0) (Map_set k v m) -> (k0, v0) = (k, v) \/ In (k0, v0) m.
Proof.
  induction m as [|[k' v'] m IH]; simpl; [intuition|].
  destruct (decide (k' = k)) as [->|Hne]; simpl; intuition.
Qed.

Lemma Map_set_In_new k v m :
  In (k, v) (Map_set k v m).
Proof.
  induction m as [|[k' v'] m IH]; simpl; [now left|].
  destruct (decide (k' = k)); simpl; auto.
Qed.

Lemma Map_set_In_other k k0 v v0 m :
  k0 <> k -> In (k0, v0) m -> In (k0, v0) (Map_set k v m).
Proof.
  intros Hne. induction m as [|[k' v'] m IH]; simpl; [tauto|].
  intros [Heq|Hin].
  - injection Heq as -> ->. rewrite decide_False by assumption. now left.
  - destruct (decide (k' = k)); simpl; auto.
Qed.

Lemma keys_unique k v1 v2 m :
  List.NoDup (Map_keys m) -> In (k, v1) m -> In (k, v2) m -> v1 = v2.
Proof.
  unfold Map_keys. induction m as [|[k' v'] m IH]; simpl; [tauto|].
  intros Hnd H1 H2. inversion Hnd as [|? ? Hk Hm]; subst.
  assert (Hkey : forall v, In (k', v) m -> False).
  { intros v Hv. apply Hk. apply in_map_iff. now exists (k', v). }
  destruct H1 as [H1|H1], H2 as [H2|H2]; try congruence.
  - injection H1 as -> ->. now destruct (Hkey v2).
  - injection H2 as -> ->. now destruct (Hkey v1).
  - auto.
Qed.

End JsMapFacts.

(** ** Compaction *)

Lemma values_keys {K V : Type} (f : V -> K) (acc : JsMap K V) :
  Forall (fun p => f (snd p) = fst p) acc -> map f (Map_values acc) = Map_keys acc.
Proof.
  unfold Map_values, Map_keys. induction 1 as [|[k v] acc Hp _ IH]; simpl; [reflexivity|].
  simpl in Hp. now rewrite Hp, IH.
Qed.

Lemma truthy_the_id (m : Message) : truthy (id m) = true -> id m = Some (the_id m).
Proof. unfold the_id. destruct (id m); simpl; [reflexivity | discriminate]. Qed.

Lemma byId_step_inv (S : list entry) (acc : JsMap string Message) (e : entry) :
  In e S -> byId_inv S acc -> byId_inv S (byId_step acc e).
Proof.
  intros He [Hnd Hall]. unfold byId_step.
  destruct e as [m|]; [|split; assumption].
  destruct (id m) as [k|] eqn:Hid; [|split; assumption].
  destruct (truthy (Some k)) eqn:Ht; [|split; assumption].
  split; [apply Map_set_keys_NoDup; assumption|].
  apply List.Forall_forall. intros [k0 m0] Hin.
  apply Map_set_In in Hin as [Heq|Hin].
  - inversion Heq; subst. simpl. unfold the_id. rewrite Hid. simpl. auto.
  - rewrite List.Forall_forall in Hall. exact (Hall _ Hin).
Qed.

Lemma byId_fold_inv (S : list entry) (l : list entry) (acc : JsMap string Message) :
  (forall e, In e l -> In e S) -> byId_inv S acc -> byId_inv S (fold_left byId_step l acc).
Proof.
  revert acc. induction l as [|e l IH]; simpl; intros acc Hsub Hacc; [assumption|].
  apply IH; [auto | apply byId_step_inv; auto].
Qed.

Lemma identity_merge_inv (S : list entry) : byId_inv S (fold_left byId_step S []).
Proof. apply byId_fold_inv; [auto | split; constructor]. Qed.

Lemma identity_merge_In (S : list entry) (m : Message) :
  In m (identity_merge S) -> In (Some m) S /\ truthy (id m) = true.
Proof.
  unfold identity_merge, Map_values. intros Hin.
  apply in_map_iff in Hin as [[k m'] [Heq Hin]]. simpl in Heq. subst m'.
  destruct (identity_merge_inv S) as [_ Hall]. rewrite List.Forall_forall in Hall.
  apply Hall in Hin. simpl in Hin. tauto.
Qed.

Lemma identity_merge_NoDup (S : list entry) : List.NoDup (map the_id (identity_merge S)).
Proof.
  destruct (identity_merge_inv S) as [Hnd Hall]. unfold identity_merge.
  rewrite values_keys; [assumption|].
  eapply List.Forall_impl; [|exact Hall]. simpl. tauto.
Qed.

Lemma byId_fold_clean (l : list Message) (acc : JsMap string Message) :
  Forall (fun m => truthy (id m) = true) l ->
  List.NoDup (Map_keys acc ++ map the_id l) ->
  fold_left byId_step (map Some l) acc = acc ++ map (fun m => (the_id m, m)) l.
Proof.
  revert acc. induction l as [|m l IH]; intros acc Ht Hnd; cbn [map fold_left] in *.
  - now rewrite app_nil_r.
  - inversion Ht as [|? ? Hm Hl]; subst.
    assert (Hstep : byId_step acc (Some m) = Map_set (the_id m) m acc).
    { unfold byId_step, the_id. destruct (id m) as [k|]; [|discriminate].
      simpl in *. now rewrite Hm. }
    rewrite Hstep, Map_set_fresh.
    + rewrite IH; [now rewrite <- app_assoc | assumption |].
      unfold Map_keys in *. rewrite map_app, <- app_assoc. exact Hnd.
    + apply NoDup_remove_2 in Hnd. intros Hin. apply Hnd. apply in_or_app. now left.
Qed.

Lemma identity_merge_clean (l : list Message) :
  Forall (fun m => truthy (id m) = true) l -> List.NoDup (map the_id l) ->
  identity_merge (map Some l) = l.
Proof.
  intros Ht Hnd. unfold identity_merge. rewrite byId_fold_clean by assumption.
  unfold Map_values. simpl. rewrite map_map. simpl. apply map_id.
Qed.

Lemma byFp_step_inv (arr : list Message) (acc : JsMap string Message) (m : Message) :
  In m arr -> byFp_inv arr acc -> byFp_inv arr (byFp_step acc m).
Proof.
  intros Hm [Hnd Hall]. unfold byFp_step.
  assert (Hset : byFp_inv arr (Map_set (fingerprint m) m acc)).
  { split; [apply Map_set_keys_NoDup; assumption|].
    apply List.Forall_forall. intros [k0 m0] Hin.
    apply Map_set_In in Hin as [Heq|Hin].
    - inversion Heq; subst. simpl. auto.
    - rewrite List.Forall_forall in Hall. exact (Hall _ Hin). }
  destruct (Map_get (fingerprint m) acc) as [prev|]; [|exact Hset].
  destruct (or0 (createdAt prev) <=? or0 (createdAt m)); [exact Hset | split; assumption].
Qed.

Lemma byFp_fold_inv (arr l : list Message) (acc : JsMap string Message) :
  (forall m, In m l -> In m arr) -> byFp_inv arr acc ->
  byFp_inv arr (fold_left byFp_step l acc).
Proof.
  revert acc. induction l as [|m l IH]; simpl; intros acc Hsub Hacc; [assumption|].
  apply IH; [auto | apply byFp_step_inv; auto].
Qed.

Lemma fingerprint_merge_inv (arr : list Message) :
  byFp_inv arr (fold_left byFp_step arr []).
Proof. apply byFp_fold_inv; [auto | split; constructor]. Qed.

Lemma fingerprint_merge_In (arr : list Message) (m : Message) :
  In m (fingerprint_merge arr) -> In m arr.
Proof.
  unfold fingerprint_merge, Map_values. intros Hin.
  apply in_map_iff in Hin as [[k m'] [Heq Hin]]. simpl in Heq. subst m'.
  destruct (fingerprint_merge_inv arr) as [_ Hall]. rewrite List.Forall_forall in Hall.
  apply Hall in Hin. simpl in Hin. tauto.
Qed.

Lemma fingerprint_merge_NoDup (arr : list Message) :
  List.NoDup (map fingerprint (fingerprint_merge arr)).
Proof.
  destruct (fingerprint_merge_inv arr) as [Hnd Hall]. unfold fingerprint_merge.
  rewrite values_keys; [assumption|].
  eapply List.Forall_impl; [|exact Hall]. simpl. tauto.
Qed.

Lemma byFp_fold_clean (l : list Message) (acc : JsMap string Message) :
  List.NoDup (Map_keys acc ++ map fingerprint l) ->
  fold_left byFp_step l acc = acc ++ map (fun m => (fingerprint m, m)) l.
Proof.
  revert acc. induction l as [|m l IH]; simpl; intros acc Hnd.
  - now rewrite app_nil_r.
  - assert (Hfresh : ~ In (fingerprint m) (Map_keys acc)).
    { apply NoDup_remove_2 in Hnd. intros Hin. apply Hnd. apply in_or_app. now left. }
    unfold byFp_step at 2. rewrite (proj2 (Map_get_None _ _) Hfresh).
    rewrite Map_set_fresh by assumption.
    rewrite IH; [now rewrite <- app_assoc|].
    unfold Map_keys in *. rewrite map_app, <- app_assoc. exact Hnd.
Qed.

Lemma fingerprint_merge_clean (l : list Message) :
  List.NoDup (map fingerprint l) -> fingerprint_merge l = l.
Proof.
  intros Hnd. unfold fingerprint_merge. rewrite byFp_fold_clean by assumption.
  unfold Map_values. simpl. rewrite map_map. simpl. apply map_id.
Qed.

(** The sort. *)
Lemma sort_insert_perm (a : Message) (l : list Message) :
  Permutation (sort_insert a l) (a :: l).
Proof.
  induction l as [|b l IH]; simpl; [reflexivity|].
  destruct (or0 (createdAt a) <=? or0 (createdAt b)); [reflexivity|].
  rewrite IH. apply perm_swap.
Qed.

Lemma sort_perm (l : list Message) : Permutation (sort_by_createdAt l) l.
Proof.
  induction l as [|a l IH]; simpl; [reflexivity|].
  rewrite sort_insert_perm. now constructor.
Qed.

Lemma sort_insert_sorted (a : Message) (l : list Message) :
  Sorted createdAt_le l -> Sorted createdAt_le (sort_insert a l).
Proof.
  induction l as [|b l IH]; simpl; intros Hs; [repeat constructor|].
  destruct (or0 (createdAt a) <=? or0 (createdAt b)) eqn:Hab.
  - constructor; [assumption|]. constructor. unfold createdAt_le. lia.
  - inversion Hs as [|? ? Hl Hhd]; subst. constructor; [auto|].
    destruct l as [|c l]; simpl.
    + constructor. unfold createdAt_le. lia.
    + destruct (or0 (createdAt a) <=? or0 (createdAt c)).
      * constructor. unfold createdAt_le. lia.
      * inversion Hhd; subst. now constructor.
Qed.

Lemma sort_sorted (l : list Message) : Sorted createdAt_le (sort_by_createdAt l).
Proof. induction l as [|a l IH]; simpl; [constructor | now apply sort_insert_sorted]. Qed.

Lemma sort_sorted_id (l : list Message) : Sorted createdAt_le l -> sort_by_createdAt l = l.
Proof.
  induction 1 as [|a l Hl IH Hhd]; simpl; [reflexivity|].
  rewrite IH. destruct Hhd as [|b l' Hab]; simpl; [reflexivity|].
  unfold createdAt_le in Hab. destruct (Z.leb_spec (or0 (createdAt a)) (or0 (createdAt b))); [reflexivity | lia].
Qed.

Lemma compact_In (S : list entry) (m : Message) :
  In m (compact S) -> In (Some m) S /\ truthy (id m) = true.
Proof.
  unfold compact. intros Hin.
  apply (Permutation_in _ (sort_perm _)) in Hin.
  apply fingerprint_merge_In in Hin. now apply identity_merge_In.
Qed.

Lemma NoDup_map_sub {A B : Type} (f : A -> B) (l l' : list A) :
  List.NoDup (map f l) -> List.NoDup l' -> (forall x, In x l' -> In x l) ->
  List.NoDup (map f l').
Proof.
  intros Hnd Hnd' Hsub. apply NoDup_map_NoDup_ForallPairs; [|assumption].
  intros x y Hx Hy Hxy. apply Hsub in Hx, Hy.
  clear Hnd' Hsub. induction l as [|a l IH]; simpl in *; [tauto|].
  inversion Hnd as [|? ? Hna Hl]; subst.
  destruct Hx as [->|Hx], Hy as [->|Hy]; auto.
  - exfalso. apply Hna. rewrite Hxy. now apply in_map.
  - exfalso. apply Hna. rewrite <- Hxy. now apply in_map.
Qed.

Lemma compact_compacted (S : list entry) : compacted (compact S).
Proof.
  assert (Hfp : List.NoDup (map fingerprint (fingerprint_merge (identity_merge S))))
    by apply fingerprint_merge_NoDup.
  constructor.
  - apply List.Forall_forall. intros m Hm. now apply compact_In in Hm.
  - unfold compact. eapply Permutation_NoDup; [apply Permutation_map; symmetry; apply sort_perm|].
    eapply NoDup_map_sub; [apply identity_merge_NoDup | | apply fingerprint_merge_In].
    eapply NoDup_map_inv; exact Hfp.
  - unfold compact. eapply Permutation_NoDup; [apply Permutation_map; symmetry; apply sort_perm|].
    exact Hfp.
  - apply sort_sorted.
Qed.

Lemma compact_clean (l : list Message) :
  Forall (fun m => truthy (id m) = true) l -> List.NoDup (map the_id l) ->
  List.NoDup (map fingerprint l) -> compact (map Some l) = sort_by_createdAt l.
Proof.
  intros Ht Hid Hfp. unfold compact.
  now rewrite identity_merge_clean, fingerprint_merge_clean.
Qed.

Lemma compact_fix (l : list Message) : compacted l -> compact (map Some l) = l.
Proof.
  intros [Ht Hid Hfp Hs]. rewrite compact_clean by assumption. now apply sort_sorted_id.
Qed.

(** C1. Compaction is idempotent: compacting the message list that
    compaction produced (identity merge by id, fingerprint merge, sort by
    [createdAt] ascending) gives that list back, for every input list. *)
Theorem compact_idempotent (S : list entry) :
  compact (map Some (compact S)) = compact S.
Proof. apply compact_fix, compact_compacted. Qed.

Lemma ivStr_nonce (m : Message) : ivStr m = join "," (map show_Z (nonce_bytes m)).
Proof. unfold ivStr, nonce_bytes. destruct (cipher m) as [c|]; [destruct (iv c)|]; reflexivity. Qed.

Lemma dataStr_prefix (m : Message) :
  dataStr m = join "," (map show_Z (firstn 24 (ciphertext_bytes m))).
Proof.
  unfold dataStr, ciphertext_bytes.
  destruct (cipher m) as [c|]; [destruct (data c)|]; reflexivity.
Qed.

Lemma fingerprint_agree (m1 m2 : Message) :
  convId m1 = convId m2 -> from m1 = from m2 -> to m1 = to m2 ->
  nonce_bytes m1 = nonce_bytes m2 ->
  firstn 24 (ciphertext_bytes m1) = firstn 24 (ciphertext_bytes m2) ->
  bucket m1 = bucket m2 ->
  fingerprint m1 = fingerprint m2.
Proof.
  intros Hc Hf Ht Hn Hd Hb. unfold fingerprint.
  now rewrite !ivStr_nonce, !dataStr_prefix, Hc, Hf, Ht, Hn, Hd, Hb.
Qed.

(** C2, as amended. Two messages with distinct non-empty ids, identical
    [(convId, from, to)], identical nonce bytes, identical first 24
    ciphertext bytes, and [createdAt] values in the same bucket
    [Math.round(createdAt / 200)]: compaction keeps exactly the one with the
    larger [createdAt], and the later one on a tie. *)
Theorem fingerprint_collapse (m1 m2 : Message) :
  truthy (id m1) = true -> truthy (id m2) = true -> id m1 <> id m2 ->
  convId m1 = convId m2 -> from m1 = from m2 -> to m1 = to m2 ->
  nonce_bytes m1 = nonce_bytes m2 ->
  firstn 24 (ciphertext_bytes m1) = firstn 24 (ciphertext_bytes m2) ->
  Math_round_div200 (or0 (createdAt m1)) = Math_round_div200 (or0 (createdAt m2)) ->
  compact [Some m1; Some m2] =
  [if or0 (createdAt m1) <=? or0 (createdAt m2) then m2 else m1].
Proof.
  intros H1 H2 Hne Hc Hf Ht Hn Hd Hb.
  assert (Hfp : fingerprint m1 = fingerprint m2) by now apply fingerprint_agree.
  unfold compact.
  change [Some m1; Some m2] with (map Some [m1; m2]).
  rewrite identity_merge_clean.
  - unfold fingerprint_merge. cbn [fold_left]. unfold byFp_step at 2. cbn [Map_get Map_set].
    unfold byFp_step. rewrite <- Hfp. cbn [Map_get]. rewrite decide_True by reflexivity.
    destruct (or0 (createdAt m1) <=? or0 (createdAt m2)).
    + cbn [Map_set]. rewrite decide_True by reflexivity. reflexivity.
    + reflexivity.
  - repeat constructor; assumption.
  - repeat constructor; simpl; [|tauto].
    intros [Heq|[]]. apply Hne.
    now rewrite (truthy_the_id _ H1), (truthy_the_id _ H2), Heq.
Qed.

(** ** What compaction drops *)

(** C10. Compaction discards malformed entries: every message that
    survives the identity merge, and so every message of the compacted
    output, has a non-empty id; an entry that is null or whose id is missing
    or empty is therefore not in the output; [saveData] persists exactly the
    compacted list, and the store read back holds no such entry. *)
Theorem compaction_drops_malformed (data : Snapshot) (ls : Storage) :
  let S := match raw_messages data with Some l => l | None => [] end in
  Forall (fun m => truthy (id m) = true) (identity_merge S)
  /\ Forall (fun m => truthy (id m) = true) (compact S)
  /\ (forall e, In e S ->
        (e = None \/ exists m, e = Some m /\ truthy (id m) = false) ->
        ~ In e (map Some (compact S)))
  /\ stored (saveData data ls) =
       Some (mkSnapshot (raw_conversations data) (Some (map Some (compact S))))
  /\ messages (fst (loadData (saveData data ls))) = compact S.
Proof.
  intros S. assert (Hall : Forall (fun m => truthy (id m) = true) (compact S)).
  { apply List.Forall_forall. intros m Hm. now apply compact_In in Hm. }
  split; [apply List.Forall_forall; intros m Hm; now apply identity_merge_In in Hm|].
  split; [exact Hall|]. split; [|split].
  - intros e _ Hbad Hin. apply in_map_iff in Hin as [m [<- Hm]].
    rewrite List.Forall_forall in Hall. specialize (Hall _ Hm).
    destruct Hbad as [?|[m' [[= ->] Hf]]]; congruence.
  - reflexivity.
  - unfold loadData, saveData. simpl. apply compact_fix, compact_compacted.
Qed.

Lemma fingerprint_collapse_witness :
  compact [Some (msg_at "a" 100); Some (msg_at "b" 250)] = [msg_at "b" 250].
Proof.
  apply (fingerprint_collapse (msg_at "a" 100) (msg_at "b" 250)); try reflexivity.
  discriminate.
Defined.

(** C2, as stated, fails: [createdAt] 99 and 100 share the bucket
    [floor(createdAt / 200) = 0] and everything else, yet [Math.round]
    files them under buckets 0 and 1 and compaction keeps both. *)
Lemma fingerprint_collapse_floor_counterexample :
  let m1 := msg_at "a" 99 in
  let m2 := msg_at "b" 100 in
  (convId m1, from m1, to m1) = (convId m2, from m2, to m2)
  /\ nonce_bytes m1 = nonce_bytes m2
  /\ firstn 24 (ciphertext_bytes m1) = firstn 24 (ciphertext_bytes m2)
  /\ or0 (createdAt m1) / 200 = or0 (createdAt m2) / 200
  /\ compact [Some m1; Some m2] = [m1; m2]
  /\ compact [Some m1; Some m2] <> [m2].
Proof. repeat split; vm_compute; discriminate. Qed.

(** ** The store as [loadData] sees it *)

Lemma loadData_compacted (ls : Storage) : compacted (messages (fst (loadData ls))).
Proof.
  unfold loadData. destruct (stored ls) as [raw|]; simpl.
  - destruct (raw_messages raw); [apply compact_compacted|].
    constructor; constructor.
  - constructor; constructor.
Qed.

Lemma loaded_compacted (w : World) : compacted (loaded w).
Proof. apply loadData_compacted. Qed.

Lemma Sorted_filter_createdAt (p : Message -> bool) (l : list Message) :
  Sorted createdAt_le l -> Sorted createdAt_le (List.filter p l).
Proof.
  intros Hs. apply Sorted_StronglySorted in Hs; [|exact createdAt_le_trans].
  apply StronglySorted_Sorted.
  induction Hs as [|a l Hl IH Ha]; simpl; [constructor|].
  destruct (p a); [|exact IH].
  constructor; [exact IH|].
  rewrite List.Forall_forall in *. intros x Hx. apply filter_In in Hx. apply Ha. tauto.
Qed.

(** ** Pagination *)

(** C7. Pagination bound: with conversation [c] open and page index
    [k >= 0], the slice [getVisibleMessages] returns has length
    [min (PAGE_SIZE * (k + 1)) N], where [N] is the number of non-tombstoned
    messages of [c]; the returned total is [N]; and the slice is the last
    [PAGE_SIZE * (k + 1)] messages of that set, which is sorted by
    [createdAt] ascending. *)
Theorem pagination_bound (w : World) (p : string) :
  peerId (state w) = Some p ->
  0 <= pageIndex (state w) ->
  let k := pageIndex (state w) in
  let all := visible_in (getConversationId p) (loaded w) in
  let N := Z.of_nat (length all) in
  let r := fst (getVisibleMessages w) in
  Z.of_nat (length (vis_slice r)) = Z.min (PAGE_SIZE * (k + 1)) N
  /\ vis_total r = N
  /\ vis_slice r = last_n (Z.to_nat (PAGE_SIZE * (k + 1))) all
  /\ Sorted createdAt_le all.
Proof.
  intros Hp Hk k all N r.
  assert (Hr : r = mkVisible (slice (Z.max 0 (N - PAGE_SIZE * (k + 1))) N all) N).
  { subst r. unfold getVisibleMessages. rewrite Hp.
    subst N all k. unfold loaded, visible_in.
    destruct (loadData (localStorage w)) as [d ls]. reflexivity. }
  rewrite Hr. cbn [vis_slice vis_total]. unfold slice, last_n, PAGE_SIZE in *.
  assert (Hcut : firstn (Z.to_nat (N - Z.max 0 (N - 20 * (k + 1))))
                        (skipn (Z.to_nat (Z.max 0 (N - 20 * (k + 1)))) all)
                 = skipn (Z.to_nat (Z.max 0 (N - 20 * (k + 1)))) all).
  { apply firstn_all2. rewrite length_skipn. subst N. lia. }
  rewrite Hcut. repeat split.
  - rewrite length_skipn. subst N. lia.
  - f_equal. subst N. lia.
  - apply Sorted_filter_createdAt, loaded_compacted.
Qed.

Lemma pagination_bound_witness :
  let w := mkWorld (mkState (Some "u-1") 0 None false None None)
                   (mkStorage (Some (mkSnapshot [] (Some [Some (msg_at "a" 100);
                                                        Some (msg_at "b" 900)])))
                              ∅ ∅) ∅ ∅ 1%positive in
  Z.of_nat (length (vis_slice (fst (getVisibleMessages w)))) = 2
  /\ vis_total (fst (getVisibleMessages w)) = 2.
Proof.
  intros w.
  destruct (pagination_bound w "u-1" eq_refl ltac:(simpl; lia)) as (Hlen & Htot & _).
  split; [exact Hlen | exact Htot].
Defined.

(** ** The store across operations *)

Lemma holds_loadData (w : World) (l : list Message) :
  holds w l ->
  exists convs, loadData (localStorage w) =
    (mkData convs l, setItem_data (localStorage w) (mkSnapshot convs (Some (map Some l)))).
Proof.
  intros [Hc [convs Hst]]. exists convs. unfold loadData. rewrite Hst. simpl.
  rewrite compact_fix by assumption. reflexivity.
Qed.

Lemma holds_loaded (w : World) (l : list Message) : holds w l -> loaded w = l.
Proof.
  intros H. destruct (holds_loadData w l H) as [convs Hl]. unfold loaded. now rewrite Hl.
Qed.

Lemma holds_after_load (w : World) :
  holds (set_storage w (snd (loadData (localStorage w)))) (loaded w).
Proof.
  split; [apply loaded_compacted|]. unfold loaded, loadData.
  destruct (stored (localStorage w)) as [raw|]; simpl; eauto.
Qed.

Lemma holds_after_save (w : World) (convs : list Conversation) (l : list Message)
  (ls : Storage) :
  holds (set_storage w (saveData (to_snapshot (mkData convs l)) ls)) (compact (map Some l)).
Proof. split; [apply compact_compacted|]. simpl. eauto. Qed.

Lemma holds_storage_irrelevant (w w' : World) (l : list Message) :
  stored (localStorage w') = stored (localStorage w) -> holds w l -> holds w' l.
Proof. intros Heq [Hc [convs Hst]]. split; [assumption|]. exists convs. congruence. Qed.

Lemma holds_getVisibleMessages (w : World) (l : list Message) :
  holds w l -> holds (snd (getVisibleMessages w)) l.
Proof.
  intros H. unfold getVisibleMessages. destruct (peerId (state w)); [|exact H].
  destruct (holds_loadData w l H) as [convs Hl]. rewrite Hl. simpl.
  destruct H as [Hc _]. split; [assumption|]. simpl. eauto.
Qed.

Lemma holds_renderMessages (w : World) (l : list Message) :
  holds w l -> holds (renderMessages w) l.
Proof.
  intros H. unfold renderMessages. destruct (peerId (state w)); [|exact H].
  now do 2 apply holds_getVisibleMessages.
Qed.

Lemma holds_updateSidebarPreviews (w : World) (l : list Message) :
  holds w l -> holds (updateSidebarPreviews w) l.
Proof.
  intros H. unfold updateSidebarPreviews.
  destruct (holds_loadData w l H) as [convs Hl]. rewrite Hl. simpl.
  destruct H as [Hc _]. split; [assumption|]. simpl. eauto.
Qed.

Lemma holds_simulateBotResponse (userText : jsstring) (c peer : string) (now : Z)
  (w : World) (l : list Message) :
  holds w l -> holds (simulateBotResponse userText c peer now w) l.
Proof.
  intros H. unfold simulateBotResponse.
  destruct (duplicate_within_600 _ _ _ _); [exact H|].
  eapply holds_storage_irrelevant; [|exact H].
  simpl. destruct (botTimers w !! c); reflexivity.
Qed.

(** ** Looking messages up by id *)

Lemma find_by_id_Some (k : string) (l : list Message) (m : Message) :
  find_by_id k l = Some m -> In m l /\ id m = Some k.
Proof.
  unfold find_by_id. intros H. apply find_some in H as [Hin Hid].
  split; [assumption|]. unfold has_id in Hid. now apply bool_decide_eq_true in Hid.
Qed.

Lemma find_by_id_unique (k : string) (l : list Message) (m : Message) :
  List.NoDup (map the_id l) -> In m l -> id m = Some k -> find_by_id k l = Some m.
Proof.
  unfold find_by_id. induction l as [|x l IH]; simpl; [tauto|].
  intros Hnd Hin Hid. inversion Hnd as [|? ? Hnx Hl]; subst.
  unfold has_id at 1. destruct (bool_decide_reflect (id x = Some k)) as [Hx|Hx].
  - destruct Hin as [->|Hin]; [reflexivity|].
    exfalso. apply Hnx. apply in_map_iff. exists m. split; [|assumption].
    unfold the_id. now rewrite Hx, Hid.
  - destruct Hin as [->|Hin]; [contradiction | auto].
Qed.

Lemma find_by_id_compact (k : string) (l : list Message) (m : Message) :
  List.NoDup (map the_id l) ->
  find_by_id k (compact (map Some l)) = Some m -> find_by_id k l = Some m.
Proof.
  intros Hnd H. apply find_by_id_Some in H as [Hin Hid].
  apply compact_In in Hin as [Hin _].
  apply in_map_iff in Hin as [m' [[= ->] Hin]].
  now apply find_by_id_unique.
Qed.

Lemma update_first_ids (p : Message -> bool) (f : Message -> Message) (l : list Message) :
  (forall x, p x = true -> id (f x) = id x) ->
  map the_id (update_first p f l) = map the_id l.
Proof.
  intros Hf. induction l as [|x l IH]; simpl; [reflexivity|].
  destruct (p x) eqn:Hp; simpl; [|now rewrite IH].
  unfold the_id at 1 3. now rewrite (Hf x Hp).
Qed.

Lemma find_update_first (k k' : string) (f : Message -> Message) (l : list Message) :
  (forall x, has_id k x = true -> id (f x) = id x) ->
  find_by_id k' (update_first (has_id k) f l) =
  if decide (k' = k) then option_map f (find_by_id k l) else find_by_id k' l.
Proof.
  intros Hf. unfold find_by_id. induction l as [|x l IH]; simpl; [now destruct (decide _)|].
  destruct (has_id k x) eqn:Hx; simpl.
  - assert (Hidx : id x = Some k) by (unfold has_id in Hx; now apply bool_decide_eq_true in Hx).
    unfold has_id at 1 3. rewrite (Hf x Hx), Hidx.
    destruct (decide (k' = k)) as [->|Hne].
    + now rewrite bool_decide_eq_true_2.
    + rewrite bool_decide_eq_false_2; [reflexivity | congruence].
  - rewrite IH. destruct (decide (k' = k)) as [->|Hne].
    + now rewrite Hx.
    + reflexivity.
Qed.

Lemma find_map (k : string) (g : Message -> Message) (l : list Message) :
  (forall x, id (g x) = id x) ->
  find_by_id k (map g l) = option_map g (find_by_id k l).
Proof.
  intros Hg. unfold find_by_id. induction l as [|x l IH]; simpl; [reflexivity|].
  unfold has_id at 1 3. rewrite Hg. destruct (bool_decide (id x = Some k)); [reflexivity | exact IH].
Qed.

Lemma find_app_last (k : string) (l : list Message) (msg : Message) :
  find_by_id k (l ++ [msg]) =
  match find_by_id k l with
  | Some m => Some m
  | None => if has_id k msg then Some msg else None
  end.
Proof.
  unfold find_by_id. induction l as [|x l IH]; simpl; [reflexivity|].
  destruct (has_id k x); [reflexivity | exact IH].
Qed.

Lemma find_None_fresh (k : string) (l : list Message) :
  Forall (fun m => truthy (id m) = true) l ->
  find_by_id k l = None -> ~ In k (map the_id l).
Proof.
  intros Ht Hf Hin. apply in_map_iff in Hin as [m [Hk Hin]].
  rewrite List.Forall_forall in Ht. specialize (Ht _ Hin).
  apply truthy_the_id in Ht. rewrite Hk in Ht.
  unfold find_by_id in Hf. apply (find_none _ _ Hf) in Hin.
  unfold has_id in Hin. apply bool_decide_eq_false in Hin. contradiction.
Qed.

(** ** Status across one operation *)

Lemma step_monotone_same (w w' : World) : loaded w' = loaded w -> step_monotone w w'.
Proof.
  intros Heq k s0 s1 H0 H1. unfold status_of in *. rewrite Heq in H1.
  rewrite H0 in H1. injection H1 as ->. lia.
Qed.

Lemma step_monotone_saved (w w' : World) (l1 : list Message) :
  loaded w' = compact (map Some l1) ->
  List.NoDup (map the_id l1) ->
  (forall k m0 m1, find_by_id k (loaded w) = Some m0 -> find_by_id k l1 = Some m1 ->
                   (rank (status m0) <= rank (status m1))%nat) ->
  step_monotone w w'.
Proof.
  intros Heq Hnd Hrel k s0 s1 H0 H1. unfold status_of in *. rewrite Heq in H1.
  destruct (find_by_id k (loaded w)) as [m0|] eqn:E0; [|discriminate].
  destruct (find_by_id k (compact (map Some l1))) as [m1|] eqn:E1; [|discriminate].
  apply find_by_id_compact in E1; [|assumption].
  simpl in H0, H1. injection H0 as <-. injection H1 as <-. eauto.
Qed.

Lemma loaded_set_storage_load (w : World) (d : Data) (ls : Storage) :
  loadData (localStorage w) = (d, ls) -> loaded (set_storage w ls) = messages d.
Proof.
  intros E. replace ls with (snd (loadData (localStorage w))) by now rewrite E.
  rewrite (holds_loaded _ _ (holds_after_load w)). unfold loaded. now rewrite E.
Qed.

Lemma loaded_stored_eq (w w' : World) :
  stored (localStorage w') = stored (localStorage w) -> loaded w' = loaded w.
Proof.
  intros H. unfold loaded, loadData. rewrite H.
  destruct (stored (localStorage w)); reflexivity.
Qed.

Lemma loaded_updateStatus (k : string) (s : Status) (now : Z) (w : World) :
  loaded (updateStatus k s now w) =
  match find_by_id k (loaded w) with
  | Some _ => compact (map Some (update_first (has_id k) (set_status s now) (loaded w)))
  | None => loaded w
  end.
Proof.
  unfold updateStatus. destruct (loadData (localStorage w)) as [d ls] eqn:E.
  assert (Hl : loaded w = messages d) by (unfold loaded; now rewrite E).
  rewrite Hl. destruct (find_by_id k (messages d)).
  - apply holds_loaded, holds_renderMessages, holds_after_save.
  - now apply loaded_set_storage_load.
Qed.

Lemma loaded_markAllSeen (nearBottom : bool) (now : Z) (w : World) :
  loaded (markAllSeenIfAtBottom nearBottom now w) = loaded w
  \/ exists c, loaded (markAllSeenIfAtBottom nearBottom now w) =
               compact (map Some (map (mark_seen c now) (loaded w))).
Proof.
  unfold markAllSeenIfAtBottom. destruct (peerId (state w)) as [p|]; [|now left].
  destruct nearBottom; simpl; [|now left].
  destruct (loadData (localStorage w)) as [d ls] eqn:E.
  assert (Hl : loaded w = messages d) by (unfold loaded; now rewrite E).
  rewrite Hl. destruct (existsb _ (messages d)).
  - right. exists (getConversationId p). apply holds_loaded.
    eapply holds_storage_irrelevant; [|apply holds_renderMessages, holds_after_save].
    reflexivity.
  - left. rewrite <- (loaded_set_storage_load w d ls E). now apply loaded_stored_eq.
Qed.

Lemma loaded_sendMessage (text : jsstring) (now : Z) (enc : outcome CipherPayload)
  (newId : string) (botNow : Z) (w : World) :
  loaded (sendMessage text now enc newId botNow w) = loaded w
  \/ exists c peer payload,
       loaded (sendMessage text now enc newId botNow w) =
       compact (map Some (loaded w ++ [new_message newId c "me" peer payload now sent])).
Proof.
  unfold sendMessage, sendMessage_begin.
  destruct (peerId (state w)) as [p|]; [|now left].
  destruct (sending (state w)); [now left|].
  destruct (duplicate_within_600 _ _ _ _); [now left|].
  cbn [localStorage set_state].
  destruct (loadData (localStorage w)) as [d ls] eqn:E.
  assert (Hl : loaded w = messages d) by (unfold loaded; now rewrite E).
  unfold sendMessage_resume. destruct enc as [payload|].
  - right. exists (getConversationId p), p, payload. rewrite Hl. apply holds_loaded.
    eapply holds_storage_irrelevant; [|apply holds_simulateBotResponse].
    + reflexivity.
    + eapply holds_storage_irrelevant; [|apply holds_renderMessages, holds_after_save].
      reflexivity.
  - left. rewrite Hl, <- (loaded_set_storage_load w d ls E). now apply loaded_stored_eq.
Qed.

Lemma loaded_edit (k : string) (commit : bool) (original newText : jsstring)
  (enc : outcome CipherPayload) (now : Z) (w : World) :
  let w' := run_op (OpEdit k commit original newText enc now) w in
  loaded w' = loaded w
  \/ exists payload,
       loaded w' = compact (map Some (update_first (has_id k) (set_cipher payload now)
                                                   (loaded w))).
Proof.
  simpl. unfold onEditMessage_begin.
  destruct (loadData (localStorage w)) as [d ls] eqn:E.
  assert (Hl : loaded w = messages d) by (unfold loaded; now rewrite E).
  assert (Hsame : loaded (set_storage w ls) = loaded w)
    by (rewrite Hl; now apply loaded_set_storage_load).
  destruct (find_by_id k (messages d)); [|now left].
  unfold onEditMessage_finish.
  destruct (commit && _ && _); [|now left].
  destruct enc as [payload|]; [|now left].
  right. exists payload. rewrite Hl.
  apply holds_loaded, holds_renderMessages, holds_after_save.
Qed.

Lemma loaded_onDeleteMessage (k : string) (w : World) :
  loaded (fst (onDeleteMessage k w)) =
  match find_by_id k (loaded w) with
  | Some _ => compact (map Some (update_first (has_id k) (set_deleted true) (loaded w)))
  | None => loaded w
  end.
Proof.
  unfold onDeleteMessage. destruct (loadData (localStorage w)) as [d ls] eqn:E.
  assert (Hl : loaded w = messages d) by (unfold loaded; now rewrite E).
  rewrite Hl. destruct (find_by_id k (messages d)); simpl.
  - apply holds_loaded, holds_updateSidebarPreviews, holds_renderMessages, holds_after_save.
  - now apply loaded_set_storage_load.
Qed.

Lemma loaded_undoDelete (k : string) (snapshot : Message) (w : World) :
  loaded (undoDelete k snapshot w) =
  match find_by_id k (loaded w) with
  | Some _ =>
      compact (map Some (update_first (has_id k)
                                      (fun mm => Object_assign_restore mm snapshot)
                                      (loaded w)))
  | None => loaded w
  end.
Proof.
  unfold undoDelete. destruct (loadData (localStorage w)) as [d ls] eqn:E.
  assert (Hl : loaded w = messages d) by (unfold loaded; now rewrite E).
  rewrite Hl. destruct (find_by_id k (messages d)); simpl.
  - apply holds_loaded, holds_updateSidebarPreviews, holds_renderMessages, holds_after_save.
  - now apply loaded_set_storage_load.
Qed.

Lemma step_monotone_update (w w' : World) (k : string) (f : Message -> Message) :
  loaded w' = compact (map Some (update_first (has_id k) f (loaded w))) ->
  (forall x, has_id k x = true -> id (f x) = id x) ->
  (forall m0, find_by_id k (loaded w) = Some m0 ->
              (rank (status m0) <= rank (status (f m0)))%nat) ->
  step_monotone w w'.
Proof.
  intros Heq Hid Hst. eapply step_monotone_saved; [exact Heq | |].
  - rewrite update_first_ids by assumption. apply loaded_compacted.
  - intros k' m0 m1 H0 H1. rewrite find_update_first in H1 by assumption.
    destruct (decide (k' = k)) as [->|Hne].
    + rewrite H0 in H1. simpl in H1. injection H1 as <-. auto.
    + rewrite H0 in H1. injection H1 as <-. lia.
Qed.

Lemma mark_seen_id (c : string) (now : Z) (m : Message) : id (mark_seen c now m) = id m.
Proof. unfold mark_seen. now destruct (_ && _). Qed.

Lemma mark_seen_rank (c : string) (now : Z) (m : Message) :
  (rank (status m) <= rank (status (mark_seen c now m)))%nat.
Proof. unfold mark_seen. destruct (_ && _); simpl; [destruct (status m); simpl; lia | lia]. Qed.

Lemma step_respecting (o : Op) (w : World) :
  order_respecting o w -> step_monotone w (run_op o w).
Proof.
  destruct o as [k s now | nearBottom now | text now enc newId botNow
                | k commit original newText enc now | k | k snapshot]; intros Hresp.
  - cbn [run_op]. pose proof (loaded_updateStatus k s now w) as Hl.
    destruct (find_by_id k (loaded w)) as [m|] eqn:Ef; [|now apply step_monotone_same].
    eapply step_monotone_update; [exact Hl | reflexivity |].
    intros m0 Hm0. simpl in Hresp. apply Hresp. unfold status_of. now rewrite Hm0.
  - cbn [run_op]. destruct (loaded_markAllSeen nearBottom now w) as [Hl | [c Hl]];
      [now apply step_monotone_same|].
    eapply step_monotone_saved; [exact Hl | |].
    + rewrite map_map. erewrite map_ext; [apply loaded_compacted|].
      intros m. unfold the_id. now rewrite mark_seen_id.
    + intros k m0 m1 H0 H1. rewrite find_map in H1 by apply mark_seen_id.
      rewrite H0 in H1. simpl in H1. injection H1 as <-. apply mark_seen_rank.
  - cbn [run_op]. destruct (loaded_sendMessage text now enc newId botNow w)
      as [Hl | (c & peer & payload & Hl)]; [now apply step_monotone_same|].
    simpl in Hresp. pose proof (loaded_compacted w) as [Ht Hid _ _].
    eapply step_monotone_saved; [exact Hl | |].
    + rewrite map_app. apply List.NoDup_app; [assumption | repeat constructor; simpl; tauto |].
      intros a Ha [<-|[]]. revert Ha. now apply find_None_fresh.
    + intros k m0 m1 H0 H1. rewrite find_app_last, H0 in H1. injection H1 as <-. lia.
  - destruct (loaded_edit k commit original newText enc now w) as [Hl | [payload Hl]];
      [now apply step_monotone_same|].
    eapply step_monotone_update; [exact Hl | reflexivity |]. intros; simpl; lia.
  - cbn [run_op]. pose proof (loaded_onDeleteMessage k w) as Hl.
    destruct (find_by_id k (loaded w)) as [m|] eqn:Ef; [|now apply step_monotone_same].
    eapply step_monotone_update; [exact Hl | reflexivity |]. intros; simpl; lia.
  - cbn [run_op]. pose proof (loaded_undoDelete k snapshot w) as Hl.
    destruct Hresp as [Hsnap Hrank].
    destruct (find_by_id k (loaded w)) as [m|] eqn:Ef; [|now apply step_monotone_same].
    eapply step_monotone_update; [exact Hl | |].
    + intros x Hx. unfold has_id in Hx. apply bool_decide_eq_true in Hx.
      simpl. now rewrite Hsnap, Hx.
    + intros m0 Hm0. simpl. apply Hrank. unfold status_of. rewrite Hm0.
      simpl. congruence.
Qed.

(** ** Status monotonicity *)

(** C3, as amended. Along every sequence of operations in which
    [updateStatus] is only asked for a status not earlier than the stored
    one, undo only restores a snapshot whose status is not earlier than the
    stored one, and every sent message gets a fresh id, no stored message's
    status moves backward in Sent < Delivered < Seen at any step:
    [markAllSeenIfAtBottom] only moves messages to Seen, and send, edit and
    delete leave the status of every stored message as it is. *)
Theorem status_never_regresses (ops : list Op) (w : World) :
  respecting_run ops w -> monotone_run ops w.
Proof.
  revert w. induction ops as [|o ops IH]; intros w; simpl; [trivial|].
  intros [Ho Hrest]. split; [now apply step_respecting | now apply IH].
Qed.

Lemma status_never_regresses_witness :
  monotone_run [OpUpdateStatus "a" delivered 150; OpMarkAllSeen true 200; OpDelete "a"]
               (world_with [msg_at "a" 100]).
Proof.
  apply status_never_regresses. cbn [respecting_run].
  split; [|repeat split].
  intros s0 H. vm_compute in H. injection H as <-. simpl. lia.
Defined.

(** C3, as stated, fails. [updateStatus] writes the status it is asked
    for: on a Seen message, asking for Delivered moves it back. And a
    message deleted before its delivery timer fires is put back to Sent by
    undo after the timer has made it Delivered. *)
Lemma status_regress_counterexample :
  let w := world_with [with_status seen (msg_at "a" 100)] in
  status_of "a" w = Some seen
  /\ status_of "a" (updateStatus "a" delivered 500 w) = Some delivered
  /\ status_of "m-1" after_send = Some sent
  /\ status_of "m-1" after_delivery = Some delivered
  /\ status_of "m-1" after_undo = Some sent.
Proof. repeat split; vm_compute; reflexivity. Qed.

(** ** Duplicate-submit suppression *)

Lemma state_getVisibleMessages (w : World) : state (snd (getVisibleMessages w)) = state w.
Proof.
  unfold getVisibleMessages. destruct (peerId (state w)); [|reflexivity].
  destruct (loadData (localStorage w)). reflexivity.
Qed.

Lemma state_renderMessages (w : World) : state (renderMessages w) = state w.
Proof.
  unfold renderMessages. destruct (peerId (state w)); [|reflexivity].
  now rewrite !state_getVisibleMessages.
Qed.

Lemma state_simulateBotResponse (userText : jsstring) (c peer : string) (now : Z)
  (w : World) :
  let w' := simulateBotResponse userText c peer now w in
  peerId (state w') = peerId (state w) /\ lastSend (state w') = lastSend (state w).
Proof.
  simpl. unfold simulateBotResponse.
  destruct (duplicate_within_600 _ _ _ _); [split; reflexivity|].
  simpl. destruct (botTimers w !! c); split; reflexivity.
Qed.

Lemma sendMessage_dropped (w : World) (p : string) (la : LastAction) (text : jsstring)
  (now : Z) (enc : outcome CipherPayload) (newId : string) (botNow : Z) :
  peerId (state w) = Some p ->
  lastSend (state w) = Some la ->
  la_convId la = getConversationId p -> la_text la = text -> now - la_ts la < 600 ->
  sendMessage text now enc newId botNow w = w.
Proof.
  intros Hp Hla Hc Ht Hnow. unfold sendMessage, sendMessage_begin. rewrite Hp.
  destruct (sending (state w)); [reflexivity|].
  unfold duplicate_within_600. rewrite Hla, Hc, Ht.
  rewrite !bool_decide_eq_true_2 by reflexivity.
  destruct (Z.ltb_spec (now - la_ts la) 600); [reflexivity | lia].
Qed.

Lemma sendMessage_accepted (w : World) (p : string) (text : jsstring) (now : Z)
  (payload : CipherPayload) (newId : string) (botNow : Z) :
  peerId (state w) = Some p ->
  sending (state w) = false ->
  duplicate_within_600 (lastSend (state w)) (getConversationId p) text now = false ->
  let w1 := sendMessage text now (Returned payload) newId botNow w in
  peerId (state w1) = Some p
  /\ lastSend (state w1) = Some (mkLast (getConversationId p) text now)
  /\ loaded w1 =
     compact (map Some (loaded w ++
                        [new_message newId (getConversationId p) "me" p payload now sent])).
Proof.
  intros Hp Hs Hd. unfold sendMessage, sendMessage_begin. rewrite Hp, Hs, Hd.
  cbn [localStorage set_state].
  destruct (loadData (localStorage w)) as [d ls] eqn:E.
  assert (Hl : loaded w = messages d) by (unfold loaded; now rewrite E).
  unfold sendMessage_resume. cbn [ps_convId ps_text ps_now ps_peerIdAtSend ps_data].
  match goal with
  | |- context [simulateBotResponse ?t ?c ?q ?n ?x] =>
      pose proof (state_simulateBotResponse t c q n x) as [Hpeer Hlast];
      pose proof (holds_simulateBotResponse t c q n x) as Hholds
  end.
  cbn zeta in *. cbn [state set_state peerId lastSend]. rewrite Hpeer, Hlast.
  cbn [setTimeout snd state]. rewrite state_renderMessages. cbn [state set_storage set_state peerId lastSend].
  repeat split. rewrite Hl. apply holds_loaded.
  eapply holds_storage_irrelevant; [|apply Hholds].
  - reflexivity.
  - eapply holds_storage_irrelevant; [|apply holds_renderMessages, holds_after_save].
    reflexivity.
Qed.

Lemma sendMessage_in_flight (w w1 : World) (ps : PendingSend) (text text' : jsstring)
  (t1 t2 : Z) (enc2 : outcome CipherPayload) (id2 : string) (b2 : Z) :
  sendMessage_begin text t1 w = (w1, Some ps) ->
  sendMessage text' t2 enc2 id2 b2 w1 = w1.
Proof.
  unfold sendMessage_begin. destruct (peerId (state w)) as [p|] eqn:Hp; [|discriminate].
  destruct (sending (state w)); [discriminate|].
  destruct (duplicate_within_600 _ _ _ _); [discriminate|].
  cbn [localStorage set_state]. destruct (loadData (localStorage w)) as [d ls].
  intros [= <- _]. reflexivity.
Qed.

(** C6. Duplicate-submit suppression. A [sendMessage] whose text equals
    that of [state.lastSend], recorded for the same conversation less than
    600ms earlier, changes nothing: the store gains no message. Sending the
    same text twice within 600ms leaves the store with exactly one new
    message, the one of the first send. And a send issued while another is
    still waiting for its encryption changes nothing either. *)
Theorem duplicate_submit_suppressed :
  (forall (w : World) (p : string) (la : LastAction) (text : jsstring) (now : Z)
          (enc : outcome CipherPayload) (newId : string) (botNow : Z),
     peerId (state w) = Some p ->
     lastSend (state w) = Some la ->
     la_convId la = getConversationId p -> la_text la = text -> now - la_ts la < 600 ->
     sendMessage text now enc newId botNow w = w)
  /\
  (forall (w : World) (p : string) (text : jsstring) (t1 t2 : Z)
          (payload : CipherPayload) (id1 id2 : string) (enc2 : outcome CipherPayload)
          (b1 b2 : Z),
     peerId (state w) = Some p ->
     sending (state w) = false ->
     duplicate_within_600 (lastSend (state w)) (getConversationId p) text t1 = false ->
     t2 - t1 < 600 ->
     let msg1 := new_message id1 (getConversationId p) "me" p payload t1 sent in
     truthy (Some id1) = true ->
     find_by_id id1 (loaded w) = None ->
     ~ In (fingerprint msg1) (map fingerprint (loaded w)) ->
     let w1 := sendMessage text t1 (Returned payload) id1 b1 w in
     let w2 := sendMessage text t2 enc2 id2 b2 w1 in
     w2 = w1 /\ Permutation (loaded w2) (loaded w ++ [msg1]))
  /\
  (forall (w w1 : World) (ps : PendingSend) (text text' : jsstring) (t1 t2 : Z)
          (enc2 : outcome CipherPayload) (id2 : string) (b2 : Z),
     sendMessage_begin text t1 w = (w1, Some ps) ->
     sendMessage text' t2 enc2 id2 b2 w1 = w1).
Proof.
  split; [exact sendMessage_dropped|]. split; [|exact sendMessage_in_flight].
  intros w p text t1 t2 payload id1 id2 enc2 b1 b2 Hp Hs Hd Ht msg1 Hid Hfresh Hfp w1 w2.
  destruct (sendMessage_accepted w p text t1 payload id1 b1 Hp Hs Hd) as (Hp1 & Hl1 & Hld).
  fold w1 in Hp1, Hl1, Hld. fold msg1 in Hld.
  assert (Hw2 : w2 = w1).
  { subst w2. eapply sendMessage_dropped; [exact Hp1 | exact Hl1 | reflexivity | reflexivity |].
    simpl. exact Ht. }
  split; [exact Hw2|]. rewrite Hw2, Hld.
  pose proof (loaded_compacted w) as [Htr Hids Hfps _].
  rewrite compact_clean.
  - apply sort_perm.
  - apply Forall_app. split; [assumption | repeat constructor; exact Hid].
  - rewrite map_app. apply List.NoDup_app; [assumption | repeat constructor; simpl; tauto |].
    intros a Ha [<-|[]]. revert Ha. now apply find_None_fresh.
  - rewrite map_app. apply List.NoDup_app; [assumption | repeat constructor; simpl; tauto |].
    intros a Ha [<-|[]]. contradiction.
Qed.

Lemma duplicate_submit_suppressed_witness :
  let w := world_with [] in
  let w1 := sendMessage (js "Hello") 1000 (Returned sample_payload) "m-1" 1001 w in
  let w2 := sendMessage (js "Hello") 1400 (Returned sample_payload) "m-2" 1401 w1 in
  w2 = w1
  /\ Permutation (loaded w2)
                 (loaded w ++ [new_message "m-1" (getConversationId "u-1") "me" "u-1"
                                           sample_payload 1000 sent]).
Proof.
  apply (proj1 (proj2 duplicate_submit_suppressed) (world_with []) "u-1" (js "Hello") 1000 1400
               sample_payload "m-1" "m-2" (Returned sample_payload) 1001 1401);
    try reflexivity.
  simpl. tauto.
Defined.

(** ** Delete and undo *)

Lemma update_first_map {B : Type} (g : Message -> B) (p : Message -> bool)
  (f : Message -> Message) (l : list Message) :
  (forall x, p x = true -> g (f x) = g x) -> map g (update_first p f l) = map g l.
Proof.
  intros Hf. induction l as [|x l IH]; simpl; [reflexivity|].
  destruct (p x) eqn:Hp; simpl; [now rewrite (Hf x Hp) | now rewrite IH].
Qed.

Lemma update_first_found (k : string) (f g : Message -> Message) (l : list Message)
  (m : Message) :
  find_by_id k l = Some m -> f m = g m ->
  update_first (has_id k) f l = update_first (has_id k) g l.
Proof.
  unfold find_by_id. induction l as [|x l IH]; simpl; [reflexivity|].
  destruct (has_id k x); [intros [= ->] ->; reflexivity|].
  intros Hf Hfg. now rewrite IH.
Qed.

Lemma update_first_twice (p : Message -> bool) (f g : Message -> Message)
  (l : list Message) :
  (forall x, p x = true -> p (g x) = true) ->
  update_first p f (update_first p g l) = update_first p (fun x => f (g x)) l.
Proof.
  intros Hg. induction l as [|x l IH]; simpl; [reflexivity|].
  destruct (p x) eqn:Hp; simpl; [now rewrite (Hg x Hp) | now rewrite Hp, IH].
Qed.

Lemma Sorted_view (l l' : list Message) :
  map createdAt l = map createdAt l' -> Sorted createdAt_le l -> Sorted createdAt_le l'.
Proof.
  revert l'. induction l as [|a l IH]; intros [|a' l'] Heq Hs; try discriminate; [constructor|].
  simpl in Heq. injection Heq as Ha Hl. inversion Hs as [|? ? Hsl Hhd]; subst.
  constructor; [now apply IH|].
  destruct l as [|b l], l' as [|b' l'']; try discriminate; constructor.
  simpl in Hl. injection Hl as Hb _. inversion Hhd; subst.
  unfold createdAt_le in *. now rewrite <- Ha, <- Hb.
Qed.

Lemma compacted_view (l l' : list Message) :
  map compaction_view l = map compaction_view l' -> compacted l -> compacted l'.
Proof.
  intros Heq [Ht Hid Hfp Hs].
  assert (Hids : map id l = map id l').
  { transitivity (map (fun v => fst (fst v)) (map compaction_view l));
      [now rewrite map_map|]. rewrite Heq. now rewrite map_map. }
  assert (Hfps : map fingerprint l = map fingerprint l').
  { transitivity (map (fun v => snd (fst v)) (map compaction_view l));
      [now rewrite map_map|]. rewrite Heq. now rewrite map_map. }
  assert (Hcs : map createdAt l = map createdAt l').
  { transitivity (map snd (map compaction_view l));
      [now rewrite map_map|]. rewrite Heq. now rewrite map_map. }
  constructor.
  - apply (Forall_map id (fun i => truthy i = true)). rewrite <- Hids.
    now apply (Forall_map id (fun i => truthy i = true)).
  - unfold the_id. rewrite <- (map_map id join_elem), <- Hids, map_map. exact Hid.
  - now rewrite <- Hfps.
  - now apply (Sorted_view l l').
Qed.

Lemma update_first_compacted (k : string) (f : Message -> Message) (l : list Message) :
  (forall x, has_id k x = true -> compaction_view (f x) = compaction_view x) ->
  compacted l -> compacted (update_first (has_id k) f l).
Proof.
  intros Hf. apply compacted_view. symmetry. now apply update_first_map.
Qed.

Lemma assign_field_same {A : Type} (x : option A) : assign_field x x = x.
Proof. now destruct x. Qed.

Lemma Object_assign_restore_same (m : Message) :
  Object_assign_restore (set_deleted true m) (set_deleted true m) = set_deleted false m.
Proof.
  unfold Object_assign_restore, set_deleted. simpl. now rewrite !assign_field_same.
Qed.

Lemma delete_then_undo (w : World) (k : string) (m0 : Message) :
  find_by_id k (loaded w) = Some m0 ->
  snd (onDeleteMessage k w) = Some (set_deleted true m0)
  /\ loaded (fst (onDeleteMessage k w)) =
     update_first (has_id k) (set_deleted true) (loaded w)
  /\ loaded (undoDelete k (set_deleted true m0) (fst (onDeleteMessage k w))) =
     update_first (has_id k) (set_deleted false) (loaded w).
Proof.
  intros Hfind.
  assert (Hdel : loaded (fst (onDeleteMessage k w)) =
                 update_first (has_id k) (set_deleted true) (loaded w)).
  { rewrite loaded_onDeleteMessage, Hfind. apply compact_fix.
    apply update_first_compacted; [reflexivity | apply loaded_compacted]. }
  split; [|split; [exact Hdel|]].
  - unfold onDeleteMessage. unfold loaded in Hfind.
    destruct (loadData (localStorage w)) as [d ls]. simpl in Hfind. now rewrite Hfind.
  - rewrite loaded_undoDelete, Hdel.
    rewrite find_update_first by reflexivity. rewrite decide_True by reflexivity.
    rewrite Hfind. cbn [option_map].
    rewrite update_first_twice by (intros x Hx; exact Hx).
    rewrite (update_first_found k _ (set_deleted false) (loaded w) m0 Hfind)
      by apply Object_assign_restore_same.
    apply compact_fix. apply update_first_compacted; [reflexivity | apply loaded_compacted].
Qed.

(** C8, as amended. Deleting a stored message and then invoking the undo
    callback, with nothing written in between, leaves the message with
    every field of the pre-delete object (id, conversation, sender,
    receiver, cipher, [createdAt], [editedAt], status, [seenAt]) and with
    [deleted] explicitly [false]; every other message is untouched, and
    the store is exactly the pre-delete store when the flag was already
    [false]. The undo callback writes nothing when the message is no longer
    in the store. *)
Theorem tombstone_restore (w : World) (k : string) (m0 : Message) :
  find_by_id k (loaded w) = Some m0 ->
  let w1 := fst (onDeleteMessage k w) in
  exists snapshot,
    snd (onDeleteMessage k w) = Some snapshot
    /\ find_by_id k (loaded w1) = Some (set_deleted true m0)
    /\ find_by_id k (loaded (undoDelete k snapshot w1)) = Some (set_deleted false m0)
    /\ loaded (undoDelete k snapshot w1) =
       update_first (has_id k) (set_deleted false) (loaded w)
    /\ (deleted m0 = Some false -> loaded (undoDelete k snapshot w1) = loaded w)
    /\ (forall w', find_by_id k (loaded w') = None ->
                   loaded (undoDelete k snapshot w') = loaded w').
Proof.
  intros Hfind w1. destruct (delete_then_undo w k m0 Hfind) as (Hsnap & Hdel & Hundo).
  exists (set_deleted true m0). fold w1 in Hdel, Hundo.
  split; [exact Hsnap|]. split; [|split; [|split; [exact Hundo|split]]].
  - rewrite Hdel, find_update_first by reflexivity.
    rewrite decide_True by reflexivity. now rewrite Hfind.
  - rewrite Hundo, find_update_first by reflexivity.
    rewrite decide_True by reflexivity. now rewrite Hfind.
  - intros Hflag. rewrite Hundo.
    rewrite (update_first_found k _ (fun x => x) (loaded w) m0 Hfind).
    + clear. induction (loaded w) as [|x l IH]; simpl; [reflexivity|].
      destruct (has_id k x); [reflexivity | now rewrite IH].
    + destruct m0; simpl in *. now rewrite Hflag.
  - intros w' Hnone. now rewrite loaded_undoDelete, Hnone.
Qed.

Lemma tombstone_restore_witness :
  let w := world_with [msg_at "a" 100; msg_at "b" 900] in
  exists snapshot,
    snd (onDeleteMessage "a" w) = Some snapshot
    /\ find_by_id "a" (loaded (undoDelete "a" snapshot (fst (onDeleteMessage "a" w))))
       = Some (set_deleted false (msg_at "a" 100)).
Proof.
  intros w.
  destruct (tombstone_restore w "a" (msg_at "a" 100) eq_refl)
    as (snapshot & Hsnap & _ & Hfound & _).
  exists snapshot. split; [exact Hsnap | exact Hfound].
Defined.

(** C8, as stated, fails: a message that never carried a [deleted] flag
    comes back from delete and undo with [deleted: false], so the restored
    object is not the pre-delete object. *)
Lemma tombstone_restore_counterexample :
  let m0 := msg_at "a" 100 in
  let w := world_with [m0] in
  let w2 :=
    match onDeleteMessage "a" w with
    | (w1, Some snapshot) => undoDelete "a" snapshot w1
    | (w1, None) => w1
    end in
  find_by_id "a" (loaded w) = Some m0
  /\ deleted m0 = None
  /\ exists restored, find_by_id "a" (loaded w2) = Some restored
                      /\ deleted restored = Some false
                      /\ restored <> m0.
Proof.
  repeat split. exists (set_deleted false (msg_at "a" 100)).
  repeat split; vm_compute; discriminate.
Qed.

(** ** Timers *)

Lemma timer_inv_view (w w' : World) :
  timer_view w' = timer_view w -> timer_inv w -> timer_inv w'.
Proof.
  unfold timer_view. intros [= Hb Ht Hn Hy] [H1 H2 H3 H4].
  constructor; rewrite ?Hb, ?Ht, ?Hn, ?Hy; assumption.
Qed.

Lemma view_set_storage (w : World) (ls : Storage) :
  timer_view (set_storage w ls) = timer_view w.
Proof. reflexivity. Qed.

Lemma view_getVisibleMessages (w : World) :
  timer_view (snd (getVisibleMessages w)) = timer_view w.
Proof.
  unfold getVisibleMessages. destruct (peerId (state w)); [|reflexivity].
  destruct (loadData (localStorage w)). reflexivity.
Qed.

Lemma view_renderMessages (w : World) : timer_view (renderMessages w) = timer_view w.
Proof.
  unfold renderMessages. destruct (peerId (state w)); [|reflexivity].
  now rewrite !view_getVisibleMessages.
Qed.

Lemma view_updateStatus (k : string) (s : Status) (now : Z) (w : World) :
  timer_view (updateStatus k s now w) = timer_view w.
Proof.
  unfold updateStatus. destruct (loadData (localStorage w)) as [d ls].
  destruct (find_by_id k (messages d)); [|reflexivity].
  now rewrite view_renderMessages.
Qed.

Lemma view_markAllSeen (nearBottom : bool) (now : Z) (w : World) :
  timer_view (markAllSeenIfAtBottom nearBottom now w) = timer_view w.
Proof.
  unfold markAllSeenIfAtBottom. destruct (peerId (state w)); [|reflexivity].
  destruct nearBottom; simpl; [|reflexivity].
  destruct (loadData (localStorage w)) as [d ls].
  rewrite view_set_storage. destruct (existsb _ _); [|reflexivity].
  now rewrite view_renderMessages.
Qed.

Lemma view_edit (k : string) (commit : bool) (original newText : jsstring)
  (enc : outcome CipherPayload) (now : Z) (w : World) :
  timer_view (run_op (OpEdit k commit original newText enc now) w) = timer_view w.
Proof.
  simpl. unfold onEditMessage_begin. destruct (loadData (localStorage w)) as [d ls].
  destruct (find_by_id k (messages d)); [|reflexivity].
  unfold onEditMessage_finish. destruct (commit && _ && _); [|reflexivity].
  destruct enc; [|reflexivity]. now rewrite view_renderMessages.
Qed.

Lemma view_onDeleteMessage (k : string) (w : World) :
  timer_view (fst (onDeleteMessage k w)) = timer_view w.
Proof.
  unfold onDeleteMessage. destruct (loadData (localStorage w)) as [d ls].
  destruct (find_by_id k (messages d)); [|reflexivity].
  simpl. unfold updateSidebarPreviews. now rewrite view_set_storage, view_renderMessages.
Qed.

Lemma view_undoDelete (k : string) (snapshot : Message) (w : World) :
  timer_view (undoDelete k snapshot w) = timer_view w.
Proof.
  unfold undoDelete. destruct (loadData (localStorage w)) as [d ls].
  destruct (find_by_id k (messages d)); [|reflexivity].
  unfold updateSidebarPreviews. now rewrite view_set_storage, view_renderMessages.
Qed.

(** Arming a timer that is not a reply timer. *)
Lemma timer_inv_setTimeout (j : Job) (w : World) :
  (forall u c p, j <> JobBotReply u c p) ->
  timer_inv w -> timer_inv (snd (setTimeout j w)).
Proof.
  intros Hj [H1 H2 H3 H4]. unfold setTimeout.
  assert (Hfresh : timers w !! nextTimer w = None).
  { destruct (timers w !! nextTimer w) as [j'|] eqn:E; [|reflexivity].
    apply H3 in E. lia. }
  constructor; cbn [snd botTimers timers nextTimer state].
  - intros c tid Hc. destruct (H1 c tid Hc) as (u & p & Ht). exists u, p.
    rewrite lookup_insert_ne; [assumption | congruence].
  - intros tid u c p Ht. destruct (decide (nextTimer w = tid)) as [<-|Hne].
    + rewrite lookup_insert_eq in Ht. injection Ht as ->. now destruct (Hj u c p).
    + rewrite lookup_insert_ne in Ht by assumption. eauto.
  - intros tid j' Ht. destruct (decide (nextTimer w = tid)) as [<-|Hne]; [lia|].
    rewrite lookup_insert_ne in Ht by assumption. apply H3 in Ht. lia.
  - intros t Ht. destruct (H4 t Ht) as [Hlt Hjob]. split; [lia|].
    intros j'. rewrite lookup_insert_ne by lia. apply Hjob.
Qed.

(** Clearing a handle that names no pending reply timer. *)
Lemma timer_inv_clearTimeout (t : positive) (w : World) :
  (forall u c p, timers w !! t <> Some (JobBotReply u c p)) ->
  timer_inv w -> timer_inv (clearTimeout t w).
Proof.
  intros Ht [H1 H2 H3 H4]. unfold clearTimeout.
  constructor; cbn [botTimers timers nextTimer state].
  - intros c tid Hc. destruct (H1 c tid Hc) as (u & p & Hp). exists u, p.
    rewrite lookup_delete_ne; [assumption|]. intros <-. exact (Ht _ _ _ Hp).
  - intros tid u c p Hp. apply lookup_delete_Some in Hp as [_ Hp]. eauto.
  - intros tid j Hp. apply lookup_delete_Some in Hp as [_ Hp]. eauto.
  - intros t' Ht'. destruct (H4 t' Ht') as [Hlt Hjob]. split; [assumption|].
    intros j Hp. apply lookup_delete_Some in Hp as [_ Hp]. eauto.
Qed.

(** What a reply that is not suppressed does to the timers. *)
Lemma simulateBotResponse_timers (userText : jsstring) (c peer : string) (now : Z)
  (w : World) :
  duplicate_within_600 (lastBot (state w)) c userText now = false ->
  let w' := simulateBotResponse userText c peer now w in
  botTimers w' = <[c := nextTimer w]> (botTimers w)
  /\ timers w' = <[nextTimer w := JobBotReply userText c peer]>
                   (match botTimers w !! c with
                    | Some prev => delete prev (timers w)
                    | None => timers w
                    end)
  /\ nextTimer w' = Pos.succ (nextTimer w)
  /\ typingTimer (state w') = typingTimer (state w).
Proof.
  intros Hd. simpl. unfold simulateBotResponse. rewrite Hd.
  cbn [botTimers set_state]. destruct (botTimers w !! c) as [prev|] eqn:E; simpl.
  - repeat split. apply insert_delete_eq.
  - repeat split.
Qed.

Lemma timer_inv_simulateBotResponse (userText : jsstring) (c peer : string) (now : Z)
  (w : World) :
  timer_inv w -> timer_inv (simulateBotResponse userText c peer now w).
Proof.
  intros Hinv.
  destruct (duplicate_within_600 (lastBot (state w)) c userText now) eqn:Hd.
  { unfold simulateBotResponse. now rewrite Hd. }
  destruct (simulateBotResponse_timers userText c peer now w Hd) as (Hb & Ht & Hn & Hy).
  destruct Hinv as [H1 H2 H3 H4].
  set (w' := simulateBotResponse userText c peer now w) in *.
  assert (Hold : forall tid j,
            tid <> nextTimer w ->
            timers w' !! tid = Some j ->
            timers w !! tid = Some j /\ botTimers w !! c <> Some tid).
  { intros tid j Hne Hj. rewrite Ht, lookup_insert_ne in Hj by congruence.
    destruct (botTimers w !! c) as [prev|] eqn:E.
    - apply lookup_delete_Some in Hj as [Hp Hj]. split; [assumption | congruence].
    - split; [assumption | discriminate]. }
  constructor.
  - intros c' tid Hc'. rewrite Hb in Hc'. destruct (decide (c = c')) as [<-|Hne].
    + rewrite lookup_insert_eq in Hc'. injection Hc' as <-. exists userText, peer.
      rewrite Ht. apply lookup_insert_eq.
    + rewrite lookup_insert_ne in Hc' by assumption.
      destruct (H1 c' tid Hc') as (u & p & Hp). exists u, p.
      assert (tid <> nextTimer w) by (apply H3 in Hp; lia).
      rewrite Ht, lookup_insert_ne by congruence.
      destruct (botTimers w !! c) as [prev|] eqn:E; [|assumption].
      rewrite lookup_delete_ne; [assumption|]. intros <-.
      destruct (H1 c prev E) as (u' & p' & Hp'). congruence.
  - intros tid u c' p Hp. rewrite Hb. destruct (decide (tid = nextTimer w)) as [->|Hne].
    + rewrite Ht, lookup_insert_eq in Hp. injection Hp as _ <- _. apply lookup_insert_eq.
    + destruct (Hold tid _ Hne Hp) as [Hp0 Hnot]. apply H2 in Hp0.
      rewrite lookup_insert_ne; [assumption|]. intros <-. contradiction.
  - intros tid j Hj. rewrite Hn. destruct (decide (tid = nextTimer w)) as [->|Hne]; [lia|].
    destruct (Hold tid j Hne Hj) as [Hj0 _]. apply H3 in Hj0. lia.
  - intros t Hty. rewrite Hy in Hty. destruct (H4 t Hty) as [Hlt Hjob]. rewrite Hn.
    split; [lia|]. intros j Hj.
    assert (t <> nextTimer w) by lia. destruct (Hold t j H Hj) as [Hj0 _]. eauto.
Qed.

Lemma timer_inv_fire (tid : positive) (enc : outcome CipherPayload) (newId : string)
  (now : Z) (nearBottom : bool) (w : World) :
  timer_inv w -> timer_inv (fire tid enc newId now nearBottom w).
Proof.
  intros Hinv. unfold fire. destruct (timers w !! tid) as [j|] eqn:Ej; [|assumption].
  destruct j as [k s | u c peer | | ].
  - eapply timer_inv_view; [apply view_updateStatus|].
    apply timer_inv_clearTimeout; [|assumption]. intros u c p. rewrite Ej. discriminate.
  - assert (Hcore : timer_inv (set_botTimers (clearTimeout tid w)
                                             (delete c (botTimers (clearTimeout tid w))))).
    { destruct Hinv as [H1 H2 H3 H4].
      constructor; cbn [botTimers timers nextTimer state set_botTimers clearTimeout].
      - intros c' t Hc'. apply lookup_delete_Some in Hc' as [Hne Hc'].
        destruct (H1 c' t Hc') as (u' & p' & Hp). exists u', p'.
        rewrite lookup_delete_ne; [assumption|]. intros <-. congruence.
      - intros t u' c' p' Hp. apply lookup_delete_Some in Hp as [Hne Hp].
        pose proof (H2 _ _ _ _ Hp) as Hc'. rewrite lookup_delete_ne; [assumption|].
        intros <-. apply H2 in Ej. congruence.
      - intros t j Hp. apply lookup_delete_Some in Hp as [_ Hp]. eauto.
      - intros t Hty. destruct (H4 t Hty) as [Hlt Hjob]. split; [assumption|].
        intros j Hp. apply lookup_delete_Some in Hp as [_ Hp]. eauto. }
    revert Hcore. unfold botReply_callback.
    generalize (set_botTimers (clearTimeout tid w) (delete c (botTimers (clearTimeout tid w)))).
    intros w1 Hcore. destruct (loadData (localStorage w1)) as [d ls].
    destruct enc as [payload|];
      [|eapply timer_inv_view; [|exact Hcore]; reflexivity].
    eapply timer_inv_view; [|exact Hcore].
    cbn [state set_storage localStorage].
    destruct (peerId (state w1)) as [p|].
    + destruct (bool_decide (getConversationId p = c)).
      * now rewrite view_markAllSeen, view_renderMessages.
      * reflexivity.
    + reflexivity.
  - apply timer_inv_clearTimeout; [|assumption]. intros u c p. rewrite Ej. discriminate.
  - apply timer_inv_clearTimeout; [|assumption]. intros u c p. rewrite Ej. discriminate.
Qed.

Lemma timer_inv_onInput (value : jsstring) (w : World) :
  timer_inv w -> timer_inv (onInput value w).
Proof.
  intros Hinv. unfold onInput. cbn [state set_storage].
  set (w1 := set_storage w _).
  assert (H1 : timer_inv w1) by (eapply timer_inv_view; [|exact Hinv]; reflexivity).
  assert (H2 : timer_inv (match typingTimer (state w) with
                          | Some t => clearTimeout t w1
                          | None => w1
                          end)).
  { destruct (typingTimer (state w)) as [t|] eqn:Et; [|exact H1].
    apply timer_inv_clearTimeout; [|exact H1].
    intros u c p Hp. destruct Hinv as [_ _ _ H4].
    destruct (H4 t Et) as [_ Hjob]. specialize (Hjob _ Hp). discriminate. }
  revert H2. generalize (match typingTimer (state w) with
                         | Some t => clearTimeout t w1
                         | None => w1
                         end).
  intros w2 [A B C D]. unfold setTimeout.
  assert (Hfresh : timers w2 !! nextTimer w2 = None).
  { destruct (timers w2 !! nextTimer w2) as [j'|] eqn:E; [|reflexivity]. apply C in E. lia. }
  constructor; cbn [botTimers timers nextTimer state set_state typingTimer].
  - intros c tid Hc. destruct (A c tid Hc) as (u & p & Hp). exists u, p.
    rewrite lookup_insert_ne; [assumption | congruence].
  - intros tid u c p Hp. destruct (decide (nextTimer w2 = tid)) as [<-|Hne].
    + rewrite lookup_insert_eq in Hp. discriminate.
    + rewrite lookup_insert_ne in Hp by assumption. eauto.
  - intros tid j Hp. destruct (decide (nextTimer w2 = tid)) as [<-|Hne]; [lia|].
    rewrite lookup_insert_ne in Hp by assumption. apply C in Hp. lia.
  - intros t [= <-]. split; [lia|]. intros j. rewrite lookup_insert_eq. congruence.
Qed.

Lemma timer_inv_set_state (w : World) (st : State) :
  typingTimer st = typingTimer (state w) -> timer_inv w -> timer_inv (set_state w st).
Proof.
  intros Hy. apply timer_inv_view. unfold timer_view. simpl. now rewrite Hy.
Qed.

Lemma timer_inv_sendMessage (text : jsstring) (now : Z) (enc : outcome CipherPayload)
  (newId : string) (botNow : Z) (w : World) :
  timer_inv w -> timer_inv (sendMessage text now enc newId botNow w).
Proof.
  intros Hinv. unfold sendMessage, sendMessage_begin.
  destruct (peerId (state w)) as [p|]; [|assumption].
  destruct (sending (state w)); [assumption|].
  destruct (duplicate_within_600 _ _ _ _); [assumption|].
  cbn [localStorage set_state]. destruct (loadData (localStorage w)) as [d ls].
  unfold sendMessage_resume. destruct enc as [payload|].
  - apply timer_inv_set_state; [reflexivity|].
    apply timer_inv_simulateBotResponse.
    apply timer_inv_setTimeout; [discriminate|].
    eapply timer_inv_view; [|exact Hinv]. now rewrite view_renderMessages.
  - eapply timer_inv_view; [|exact Hinv]. reflexivity.
Qed.

Lemma timer_inv_run_op (o : Op) (w : World) : timer_inv w -> timer_inv (run_op o w).
Proof.
  intros Hinv. destruct o.
  - eapply timer_inv_view; [apply view_updateStatus | assumption].
  - eapply timer_inv_view; [apply view_markAllSeen | assumption].
  - now apply timer_inv_sendMessage.
  - eapply timer_inv_view; [apply view_edit | assumption].
  - eapply timer_inv_view; [apply view_onDeleteMessage | assumption].
  - eapply timer_inv_view; [apply view_undoDelete | assumption].
Qed.

Lemma timer_inv_handle (e : Event) (w : World) : timer_inv w -> timer_inv (handle e w).
Proof.
  intros Hinv. destruct e; cbn [handle].
  - now apply timer_inv_run_op.
  - now apply timer_inv_simulateBotResponse.
  - now apply timer_inv_fire.
  - now apply timer_inv_onInput.
  - eapply timer_inv_view; [|exact Hinv]. unfold switchConversation, updateSidebarPreviews.
    now rewrite view_markAllSeen, view_renderMessages.
  - eapply timer_inv_view; [|exact Hinv]. reflexivity.
  - eapply timer_inv_view; [|exact Hinv]. unfold onScroll.
    destruct (peerId (state w)); [|reflexivity]. rewrite view_markAllSeen.
    destruct atTop; [|reflexivity]. destruct (loadData (localStorage w)) as [d ls].
    destruct (_ <? _); [now rewrite view_renderMessages | reflexivity].
  - apply timer_inv_setTimeout; [discriminate | assumption].
  - eapply timer_inv_view; [|exact Hinv]. reflexivity.
Qed.

Lemma reachable_timer_inv (w : World) : reachable w -> timer_inv w.
Proof.
  induction 1 as [ls | e w Hw IH]; [|now apply timer_inv_handle].
  constructor; cbn; intros; try discriminate; rewrite lookup_empty in *; discriminate.
Qed.

(** C9. Single-flight auto-reply. In every reachable state two pending
    reply timers for the same conversation are the same timer. And a reply
    scheduled there that is not suppressed cancels the timer [botTimers]
    held for that conversation, if any, and installs the new one, so that
    afterwards the new handle is the conversation's only pending reply
    timer. *)
Theorem single_flight_auto_reply (w : World) :
  reachable w ->
  (forall t1 t2 u1 u2 c p1 p2,
     timers w !! t1 = Some (JobBotReply u1 c p1) ->
     timers w !! t2 = Some (JobBotReply u2 c p2) -> t1 = t2)
  /\
  (forall userText c peer now,
     duplicate_within_600 (lastBot (state w)) c userText now = false ->
     let w' := simulateBotResponse userText c peer now w in
     (forall prev, botTimers w !! c = Some prev -> timers w' !! prev = None)
     /\ botTimers w' !! c = Some (nextTimer w)
     /\ timers w' !! nextTimer w = Some (JobBotReply userText c peer)
     /\ (forall t u p, timers w' !! t = Some (JobBotReply u c p) -> t = nextTimer w)).
Proof.
  intros Hreach. pose proof (reachable_timer_inv w Hreach) as Hinv. split.
  - intros t1 t2 u1 u2 c p1 p2 H1 H2.
    apply (inv_single w Hinv) in H1, H2. congruence.
  - intros userText c peer now Hd w'.
    destruct (simulateBotResponse_timers userText c peer now w Hd) as (Hb & Ht & _ & _).
    fold w' in Hb, Ht.
    assert (Hinv' : timer_inv w').
    { apply (reachable_timer_inv _ (reachable_handle (EvReply userText c peer now) w Hreach)). }
    assert (Hnew : botTimers w' !! c = Some (nextTimer w))
      by (rewrite Hb; apply lookup_insert_eq).
    repeat split.
    + intros prev Hprev. rewrite Ht, Hprev.
      destruct (inv_tracked w Hinv c prev Hprev) as (u & p & Hp).
      apply (inv_below w Hinv) in Hp.
      rewrite lookup_insert_ne by lia. apply lookup_delete_eq.
    + exact Hnew.
    + rewrite Ht. apply lookup_insert_eq.
    + intros t u p Hp. apply (inv_single w' Hinv') in Hp. congruence.
Qed.

Lemma single_flight_auto_reply_witness :
  let w := handle (EvOp (OpSend (js "hi") 1000 (Returned sample_payload) "m-1" 1001))
                  (handle (EvSwitch "u-1" true 900) (initial_world (mkStorage None ∅ ∅))) in
  let w' := simulateBotResponse (js "again") "conv-u-1" "u-1" 5000 w in
  botTimers w !! "conv-u-1" = Some 2%positive
  /\ timers w' !! 2%positive = None
  /\ botTimers w' !! "conv-u-1" = Some 3%positive
  /\ timers w' !! 3%positive = Some (JobBotReply (js "again") "conv-u-1" "u-1").
Proof.
  intros w w'.
  assert (Hreach : reachable w) by (unfold w; repeat constructor).
  destruct (proj2 (single_flight_auto_reply w Hreach) (js "again") "conv-u-1" "u-1" 5000
                  eq_refl) as (Hprev & Hb & Ht & _).
  split; [reflexivity|]. split; [apply Hprev; reflexivity|]. split; [exact Hb | exact Ht].
Defined.

(** ** Text encoding *)

Lemma Z_of_byte_of_Z (z : Z) : is_byte z -> Z_of_byte (byte_of_Z z) = z.
Proof.
  unfold is_byte, Z_of_byte, byte_of_Z. intros Hz. rewrite Z.mod_small by lia.
  destruct (Byte.of_N (Z.to_N z)) as [b|] eqn:E.
  - apply Byte.to_of_N in E. rewrite E. lia.
  - apply Byte.of_N_None_iff in E. lia.
Qed.

Lemma byte_of_Z_of_byte (b : byte) : byte_of_Z (Z_of_byte b) = b.
Proof.
  unfold Z_of_byte, byte_of_Z. pose proof (Byte.to_N_bounded b) as Hb.
  rewrite Z.mod_small by lia. rewrite N2Z.id. now rewrite Byte.of_to_N.
Qed.

Lemma Uint8Array_of_Array_from (bs : list byte) : Uint8Array_of (Some (Array_from bs)) = bs.
Proof.
  unfold Uint8Array_of, Array_from. rewrite map_map.
  erewrite map_ext; [apply map_id|]. apply byte_of_Z_of_byte.
Qed.

Lemma bytes_roundtrip (l : list Z) :
  Forall is_byte l -> map Z_of_byte (map byte_of_Z l) = l.
Proof.
  induction 1 as [|z l Hz _ IH]; simpl; [reflexivity|].
  now rewrite Z_of_byte_of_Z, IH.
Qed.

Lemma utf8_encode_scalar_bytes (c : Z) :
  is_scalar c -> Forall is_byte (utf8_encode_scalar c).
Proof.
  unfold is_scalar, is_byte, utf8_encode_scalar. intros Hc.
  repeat ztest; repeat constructor; dlia.
Qed.

Lemma utf8_decode_encode (c : Z) (rest : list Z) :
  is_scalar c -> utf8_decode (utf8_encode_scalar c ++ rest) = c :: utf8_decode rest.
Proof.
  unfold is_scalar, utf8_encode_scalar. intros Hc.
  destruct (Z.ltb_spec c 0x80); [|destruct (Z.ltb_spec c 0x800); [|destruct (Z.ltb_spec c 0x10000)]];
    cbn [app];
    match goal with
    | |- utf8_decode (?b :: ?r) = _ =>
        remember r as r0 eqn:Er; cbn [utf8_decode]; subst r0; lazy beta iota
    end;
    unfold between; repeat ztest; f_equal; dlia.
Qed.

Lemma utf8_decode_flat (cs : list Z) :
  Forall is_scalar cs -> utf8_decode (flat_map utf8_encode_scalar cs) = cs.
Proof.
  induction 1 as [|c cs Hc _ IH]; [reflexivity|].
  cbn [flat_map]. now rewrite utf8_decode_encode, IH.
Qed.

Lemma utf8_encode_flat_bytes (cs : list Z) :
  Forall is_scalar cs -> Forall is_byte (flat_map utf8_encode_scalar cs).
Proof.
  induction 1 as [|c cs Hc _ IH]; [constructor|].
  cbn [flat_map]. apply Forall_app. split; [now apply utf8_encode_scalar_bytes | exact IH].
Qed.

(** On a well-formed string the scalar values lose nothing. *)
Lemma scalar_values_well_formed (n : nat) (s : jsstring) :
  (length s <= n)%nat -> well_formed s = true ->
  Forall is_scalar (scalar_values s)
  /\ flat_map utf16_encode_scalar (scalar_values s) = s.
Proof.
  revert s. induction n as [|n IH]; intros s Hlen Hwf.
  - destruct s; [split; [constructor | reflexivity] | simpl in Hlen; lia].
  - destruct s as [|u rest]; [split; [constructor | reflexivity]|].
    cbn [well_formed scalar_values] in *. simpl in Hlen.
    destruct (is_high_surrogate u) eqn:Hhi.
    + destruct rest as [|v rest']; [discriminate|].
      apply andb_true_iff in Hwf as [Hlo Hwf]. rewrite Hlo.
      simpl in Hlen. destruct (IH rest' ltac:(lia) Hwf) as [Hsc Hrt].
      unfold is_high_surrogate, is_low_surrogate in Hhi, Hlo.
      apply andb_true_iff in Hhi as [Hu1 Hu2]. apply andb_true_iff in Hlo as [Hv1 Hv2].
      apply Z.leb_le in Hu1, Hu2, Hv1, Hv2.
      split.
      * constructor; [unfold is_scalar; lia | exact Hsc].
      * cbn [flat_map]. rewrite Hrt. unfold utf16_encode_scalar.
        ztest. cbn [app]. f_equal; [dlia|]. f_equal. dlia.
    + apply andb_true_iff in Hwf as [Hwf Hrest]. apply andb_true_iff in Hwf as [Hwf Hu2].
      apply andb_true_iff in Hwf as [Hlo Hu1]. apply negb_true_iff in Hlo. rewrite Hlo.
      destruct (IH rest ltac:(lia) Hrest) as [Hsc Hrt].
      unfold is_high_surrogate, is_low_surrogate in Hhi, Hlo.
      apply Z.leb_le in Hu1, Hu2.
      assert (Hu : is_scalar u /\ u < 0x10000).
      { unfold is_scalar. apply andb_false_iff in Hhi, Hlo.
        rewrite !Z.leb_gt in Hhi, Hlo. lia. }
      split.
      * constructor; tauto.
      * cbn [flat_map]. rewrite Hrt. unfold utf16_encode_scalar.
        destruct (Z.ltb_spec u 0x10000); [reflexivity | lia].
Qed.

Lemma scalar_values_head (s : jsstring) :
  well_formed s = true -> starts_with_bom s = false ->
  match scalar_values s with
  | c :: _ => c <> 0xFEFF
  | [] => True
  end.
Proof.
  destruct s as [|u rest]; [intros; exact I|]. cbn [well_formed scalar_values starts_with_bom].
  intros Hwf Hbom. apply Z.eqb_neq in Hbom.
  destruct (is_high_surrogate u) eqn:Hhi.
  - destruct rest as [|v rest']; [discriminate|].
    apply andb_true_iff in Hwf as [Hlo _]. rewrite Hlo.
    unfold is_high_surrogate, is_low_surrogate in Hhi, Hlo.
    apply andb_true_iff in Hhi as [Hu1 Hu2]. apply andb_true_iff in Hlo as [Hv1 Hv2].
    apply Z.leb_le in Hu1, Hu2, Hv1, Hv2. lia.
  - apply andb_true_iff in Hwf as [Hwf _]. apply andb_true_iff in Hwf as [Hwf _].
    apply andb_true_iff in Hwf as [Hlo _]. apply negb_true_iff in Hlo. now rewrite Hlo.
Qed.

Lemma strip_bom_encoded (cs : list Z) :
  Forall is_scalar cs ->
  match cs with c :: _ => c <> 0xFEFF | [] => True end ->
  strip_bom (flat_map utf8_encode_scalar cs) = flat_map utf8_encode_scalar cs.
Proof.
  intros Hsc Hhead. destruct cs as [|c cs]; [reflexivity|].
  inversion Hsc as [|? ? Hc _]; subst. cbn [flat_map].
  generalize (flat_map utf8_encode_scalar cs). intros tl.
  unfold is_scalar in Hc. unfold utf8_encode_scalar.
  destruct (Z.ltb_spec c 0x80); [|destruct (Z.ltb_spec c 0x800); [|destruct (Z.ltb_spec c 0x10000)]];
    cbn [app]; unfold strip_bom.
  - destruct tl as [|b1 [|b2 tl]]; try reflexivity. ztest. reflexivity.
  - destruct tl as [|b2 tl]; try reflexivity. ztest. reflexivity.
  - repeat ztest; reflexivity.
  - ztest. reflexivity.
Qed.

Lemma text_roundtrip (t : jsstring) :
  well_formed t = true -> starts_with_bom t = false ->
  TextDecoder_decode (TextEncoder_encode t) = t.
Proof.
  intros Hwf Hbom.
  destruct (scalar_values_well_formed (length t) t (le_n _) Hwf) as [Hsc Hrt].
  unfold TextDecoder_decode, TextEncoder_encode.
  rewrite bytes_roundtrip by now apply utf8_encode_flat_bytes.
  rewrite strip_bom_encoded; [|exact Hsc | exact (scalar_values_head t Hwf Hbom)].
  now rewrite utf8_decode_flat.
Qed.

(** ** Cipher service *)

Section CipherFacts.

Variable Key : Type.
Variable PBKDF2 : list byte -> list byte -> outcome Key.
Variable AES_GCM_encrypt : Key -> list byte -> list byte -> outcome (list byte).
Variable AES_GCM_decrypt : Key -> list byte -> list byte -> outcome (list byte).

Local Abbreviation encryptMessage' := (encryptMessage Key PBKDF2 AES_GCM_encrypt).
Local Abbreviation decryptMessage' := (decryptMessage Key PBKDF2 AES_GCM_decrypt).
Local Abbreviation decrypt_attempt' := (decrypt_attempt Key PBKDF2 AES_GCM_decrypt).
Local Abbreviation deriveKey' := (deriveKey Key PBKDF2).

(** C5. Decryption failure is silent and total: [decryptMessage] always
    returns a string and never throws, whatever the payload and whatever
    Web Crypto does. When the attempt fails (key derivation throws, the
    payload is missing, or AES-GCM rejects the key, nonce or ciphertext) the
    result is the sentinel ["[Unable to decrypt]"]; and any result is either
    that sentinel or the decoding of the whole authenticated plaintext. *)
Theorem decrypt_failure_is_silent (c : string) (payload : option CipherPayload) :
  (exists text, decryptMessage' c payload = Returned text)
  /\ (decrypt_attempt' c payload = Thrown ->
      decryptMessage' c payload = Returned UNABLE_TO_DECRYPT)
  /\ (deriveKey' c = Thrown -> decryptMessage' c payload = Returned UNABLE_TO_DECRYPT)
  /\ (payload = None -> decryptMessage' c payload = Returned UNABLE_TO_DECRYPT)
  /\ (forall key p,
        deriveKey' c = Returned key -> payload = Some p ->
        AES_GCM_decrypt key (Uint8Array_of (iv p)) (Uint8Array_of (data p)) = Thrown ->
        decryptMessage' c payload = Returned UNABLE_TO_DECRYPT)
  /\ (forall text,
        decryptMessage' c payload = Returned text ->
        text = UNABLE_TO_DECRYPT
        \/ exists key p pt,
             deriveKey' c = Returned key /\ payload = Some p
             /\ AES_GCM_decrypt key (Uint8Array_of (iv p)) (Uint8Array_of (data p))
                = Returned pt
             /\ text = TextDecoder_decode pt).
Proof.
  unfold decryptMessage, decrypt_attempt.
  split; [|split; [|split; [|split; [|split]]]].
  - destruct (bind _ _); eauto.
  - now intros ->.
  - now intros ->.
  - intros ->. now destruct (deriveKey' c).
  - intros key p -> -> Hdec. cbn [bind]. now rewrite Hdec.
  - intros text. destruct (deriveKey' c) as [key|]; cbn [bind]; [|intros [= <-]; now left].
    destruct payload as [p|]; cbn [bind]; [|intros [= <-]; now left].
    destruct (AES_GCM_decrypt key _ _) as [pt|] eqn:Hdec; cbn [bind];
      [|intros [= <-]; now left].
    intros [= <-]. right. exists key, p, pt. auto.
Qed.

Hypothesis AES_GCM_correct :
  forall key nonce pt ct,
    AES_GCM_encrypt key nonce pt = Returned ct ->
    AES_GCM_decrypt key nonce ct = Returned pt.

Lemma encrypt_then_decrypt (c : string) (t : jsstring) (nonce : list byte)
  (p : CipherPayload) :
  encryptMessage' c t nonce = Returned p ->
  decryptMessage' c (Some p) = Returned (TextDecoder_decode (TextEncoder_encode t)).
Proof.
  unfold encryptMessage, decryptMessage, decrypt_attempt.
  destruct (deriveKey' c) as [key|]; cbn [bind]; [|discriminate].
  destruct (AES_GCM_encrypt key nonce (TextEncoder_encode t)) as [ct|] eqn:Henc;
    cbn [bind]; [|discriminate].
  intros [= <-]. cbn [iv data]. rewrite !Uint8Array_of_Array_from.
  now rewrite (AES_GCM_correct _ _ _ _ Henc).
Qed.

(** C4, as amended. Encryption round trip: with AES-GCM decryption
    undoing AES-GCM encryption under the same key and nonce, for every
    conversation id [c] and every string [t] that is well-formed UTF-16 and
    does not start with U+FEFF, decrypting the payload that encrypting [t]
    under [c] returned gives [t] back. *)
Theorem encrypt_decrypt_roundtrip (c : string) (t : jsstring) (nonce : list byte)
  (p : CipherPayload) :
  well_formed t = true -> starts_with_bom t = false ->
  encryptMessage' c t nonce = Returned p ->
  decryptMessage' c (Some p) = Returned t.
Proof.
  intros Hwf Hbom Henc. rewrite (encrypt_then_decrypt c t nonce p Henc).
  now rewrite text_roundtrip.
Qed.

End CipherFacts.

Lemma toy_seal_open (key nonce pt ct : list byte) :
  toy_seal key nonce pt = Returned ct -> toy_open key nonce ct = Returned pt.
Proof.
  unfold toy_seal, toy_open. intros [= <-].
  replace (length (pt ++ nonce ++ key) - length (nonce ++ key))%nat with (length pt)
    by (rewrite !length_app; lia).
  rewrite skipn_app, skipn_all, Nat.sub_diag. cbn [skipn app].
  rewrite bool_decide_eq_true_2 by reflexivity.
  rewrite firstn_app, firstn_all, Nat.sub_diag. cbn [firstn]. now rewrite app_nil_r.
Qed.

Lemma encrypt_decrypt_roundtrip_witness :
  exists p,
    encryptMessage (list byte) toy_PBKDF2 toy_seal "conv-u-1" (js "Hello") sample_nonce
    = Returned p
    /\ decryptMessage (list byte) toy_PBKDF2 toy_open "conv-u-1" (Some p)
       = Returned (js "Hello").
Proof.
  eexists. split; [reflexivity|].
  apply (encrypt_decrypt_roundtrip (list byte) toy_PBKDF2 toy_seal toy_open toy_seal_open
           "conv-u-1" (js "Hello") sample_nonce); reflexivity.
Defined.

(** C4, as stated, fails. [TextEncoder] writes a surrogate that has no
    partner as U+FFFD, and [TextDecoder] drops a leading U+FEFF: under a
    cipher that decrypts what it encrypted, the one-unit string U+D800
    comes back as U+FFFD, and U+FEFF followed by the letter A comes back as
    the letter A alone. *)
Lemma encrypt_decrypt_roundtrip_counterexample :
  (forall key nonce pt ct,
     toy_seal key nonce pt = Returned ct -> toy_open key nonce ct = Returned pt)
  /\ (exists p,
        encryptMessage (list byte) toy_PBKDF2 toy_seal "conv-u-1" [0xD800] sample_nonce
        = Returned p
        /\ decryptMessage (list byte) toy_PBKDF2 toy_open "conv-u-1" (Some p)
           = Returned [0xFFFD])
  /\ (exists p,
        encryptMessage (list byte) toy_PBKDF2 toy_seal "conv-u-1" [0xFEFF; 0x41] sample_nonce
        = Returned p
        /\ decryptMessage (list byte) toy_PBKDF2 toy_open "conv-u-1" (Some p)
           = Returned [0x41]).
Proof.
  split; [exact toy_seal_open|].
  split; eexists; split; reflexivity.
Qed.

(** ** Further properties of the store *)

(** X1. Uniqueness: the compacted list holds at most one message per
    id. *)
Theorem compact_unique_ids (S : list entry) :
  List.NoDup (map the_id (compact S))
  /\ forall m1 m2, In m1 (compact S) -> In m2 (compact S) -> id m1 = id m2 -> m1 = m2.
Proof.
  pose proof (compact_compacted S) as [_ Hid _ _]. split; [exact Hid|].
  intros m1 m2 H1 H2 Heq.
  assert (Hnd : List.NoDup (compact S)) by (eapply NoDup_map_inv; exact Hid).
  revert Hid H1 H2 Hnd. generalize (compact S). intros l.
  induction l as [|x l IH]; simpl; [tauto|].
  intros Hid H1 H2 Hnd. inversion Hid as [|? ? Hx Hl]; subst.
  inversion Hnd as [|? ? _ Hnd']; subst.
  assert (Hkey : forall a b, In b l -> id a = id b -> In (the_id a) (map the_id l)).
  { intros a b Hb Hab. apply in_map_iff. exists b. split; [|assumption].
    unfold the_id. now rewrite Hab. }
  destruct H1 as [->|H1], H2 as [->|H2]; auto.
  - exfalso. apply Hx. now apply (Hkey m1 m2).
  - exfalso. apply Hx. apply (Hkey m2 m1); [assumption | now symmetry].
Qed.

(** X2. After any save, the stored messages read back sorted by
    [createdAt] ascending. *)
Theorem saved_messages_sorted (data : Snapshot) (ls : Storage) :
  Sorted createdAt_le (messages (fst (loadData (saveData data ls)))).
Proof. apply loadData_compacted. Qed.



(** Every message the second loop has seen is covered by the entry filed
    under its fingerprint, whose [createdAt] is at least its own. *)
Lemma byFp_fold_cover (arr l seen0 : list Message) (acc : JsMap string Message) :
  (forall m, In m l -> In m arr) ->
  byFp_inv arr acc ->
  (forall x, In x seen0 ->
     exists v, In (fingerprint x, v) acc /\ or0 (createdAt x) <= or0 (createdAt v)) ->
  forall x, In x (seen0 ++ l) ->
    exists v, In (fingerprint x, v) (fold_left byFp_step l acc)
              /\ or0 (createdAt x) <= or0 (createdAt v).
Proof.
  revert seen0 acc. induction l as [|m l IH]; intros seen0 acc Hsub Hinv Hcov x Hx.
  - rewrite app_nil_r in Hx. simpl. auto.
  - cbn [fold_left].
    replace (seen0 ++ m :: l) with ((seen0 ++ [m]) ++ l) in Hx by now rewrite <- app_assoc.
    apply (IH (seen0 ++ [m]) (byFp_step acc m)); [| | |exact Hx].
    + intros y Hy. apply Hsub. now right.
    + apply byFp_step_inv; [apply Hsub; now left | exact Hinv].
    + clear x Hx IH. intros x Hx. destruct Hinv as [Hnd _]. unfold byFp_step.
      destruct (Map_get (fingerprint m) acc) as [prev|] eqn:Eg.
      * apply Map_get_Some in Eg.
        destruct (Z.leb_spec (or0 (createdAt prev)) (or0 (createdAt m))) as [Hle|Hlt].
        -- apply in_app_or in Hx as [Hx|[<-|[]]].
           ++ destruct (Hcov x Hx) as (v & Hv & Hxv).
              destruct (decide (fingerprint x = fingerprint m)) as [Heq|Hne].
              ** exists m. rewrite Heq. split; [apply Map_set_In_new|].
                 rewrite Heq in Hv. rewrite (keys_unique _ v prev acc Hnd Hv Eg) in Hxv. lia.
              ** exists v. split; [now apply Map_set_In_other | exact Hxv].
           ++ exists m. split; [apply Map_set_In_new | lia].
        -- apply in_app_or in Hx as [Hx|[<-|[]]]; [now apply Hcov|].
           exists prev. split; [exact Eg | lia].
      * apply in_app_or in Hx as [Hx|[<-|[]]].
        -- destruct (Hcov x Hx) as (v & Hv & Hxv). exists v. split; [|exact Hxv].
           apply Map_set_In_other; [|exact Hv]. intros Heq.
           apply Map_get_None in Eg. apply Eg. rewrite <- Heq.
           unfold Map_keys. apply in_map_iff. now exists (fingerprint x, v).
        -- exists m. split; [apply Map_set_In_new | lia].
Qed.

(** X4. Fingerprint groups: whatever the input, every message that
    survives the identity merge is represented in the compacted list by a
    message of the same fingerprint whose [createdAt] is not smaller, and
    the compacted list holds no two messages of one fingerprint. *)
Theorem fingerprint_group_winner (S : list entry) (m : Message) :
  In m (identity_merge S) ->
  (exists m', In m' (compact S) /\ fingerprint m' = fingerprint m
              /\ or0 (createdAt m) <= or0 (createdAt m'))
  /\ List.NoDup (map fingerprint (compact S)).
Proof.
  intros Hm. split; [|apply compact_compacted].
  set (arr := identity_merge S) in *.
  destruct (byFp_fold_cover arr arr [] [] (fun _ H => H)) with (x := m)
    as (v & Hv & Hle); [split; constructor | intros x [] | exact Hm |].
  exists v. split; [|split; [|exact Hle]].
  - unfold compact. apply (Permutation_in _ (Permutation_sym (sort_perm _))).
    unfold fingerprint_merge, Map_values. apply in_map_iff. now exists (fingerprint m, v).
  - destruct (fingerprint_merge_inv arr) as [_ Hall].
    rewrite List.Forall_forall in Hall. now destruct (Hall _ Hv).
Qed.

Lemma fingerprint_group_winner_witness :
  exists m', In m' (compact [Some (msg_at "a" 100); Some (msg_at "b" 250);
                            Some (msg_at "c" 180)])
             /\ fingerprint m' = fingerprint (msg_at "c" 180)
             /\ 180 <= or0 (createdAt m').
Proof.
  apply (fingerprint_group_winner
           [Some (msg_at "a" 100); Some (msg_at "b" 250); Some (msg_at "c" 180)]
           (msg_at "c" 180)).
  vm_compute. tauto.
Defined.

(** ** One operation, one message *)

Lemma update_first_absent (k : string) (f : Message -> Message) (l : list Message) :
  find_by_id k l = None -> update_first (has_id k) f l = l.
Proof.
  unfold find_by_id. induction l as [|x l IH]; simpl; [reflexivity|].
  destruct (has_id k x); [discriminate|]. intros H. now rewrite IH.
Qed.

Lemma compact_update_first (k : string) (f : Message -> Message) (l : list Message) :
  (forall x, has_id k x = true -> compaction_view (f x) = compaction_view x) ->
  compacted l ->
  compact (map Some (update_first (has_id k) f l)) = update_first (has_id k) f l.
Proof. intros Hf Hl. now apply compact_fix, update_first_compacted. Qed.

Lemma mark_seen_view (c : string) (now : Z) (m : Message) :
  compaction_view (mark_seen c now m) = compaction_view m.
Proof. unfold mark_seen. now destruct (_ && _). Qed.

Lemma compact_map_view (g : Message -> Message) (l : list Message) :
  (forall x, compaction_view (g x) = compaction_view x) ->
  compacted l -> compact (map Some (map g l)) = map g l.
Proof.
  intros Hg Hl. apply compact_fix. apply (compacted_view l); [|exact Hl].
  rewrite map_map. apply map_ext. intros x. now rewrite Hg.
Qed.

Lemma mark_seen_unchanged (c : string) (now : Z) (l : list Message) :
  existsb (fun m => unseen_target c m && negb (bool_decide (status m = seen))) l = false ->
  map (mark_seen c now) l = l.
Proof.
  induction l as [|x l IH]; simpl; [reflexivity|].
  intros H. apply orb_false_iff in H as [Hx Hl].
  unfold mark_seen at 1. rewrite Hx. now rewrite IH.
Qed.

(** X5. [updateStatus] rewrites the status of the one message with the
    given id and leaves every other stored message, and the order of the
    store, as they were; it stamps [seenAt] exactly when the new status is
    seen; on an id the store does not hold it changes nothing. *)
Theorem updateStatus_one_message (k : string) (s : Status) (now : Z) (w : World) :
  let w' := updateStatus k s now w in
  loaded w' = update_first (has_id k) (set_status s now) (loaded w)
  /\ find_by_id k (loaded w') = option_map (set_status s now) (find_by_id k (loaded w))
  /\ (forall k', k' <> k -> find_by_id k' (loaded w') = find_by_id k' (loaded w))
  /\ (find_by_id k (loaded w) = None -> loaded w' = loaded w)
  /\ (forall m, seenAt (set_status s now m) = if decide (s = seen) then Some now else seenAt m).
Proof.
  intros w'.
  assert (H1 : loaded w' = update_first (has_id k) (set_status s now) (loaded w)).
  { unfold w'. rewrite loaded_updateStatus.
    destruct (find_by_id k (loaded w)) eqn:F.
    - apply compact_update_first; [reflexivity|apply loaded_compacted].
    - symmetry. now apply update_first_absent. }
  split; [exact H1|]. rewrite H1.
  assert (Hf : forall k', find_by_id k' (update_first (has_id k) (set_status s now) (loaded w))
               = if decide (k' = k) then option_map (set_status s now) (find_by_id k (loaded w))
                 else find_by_id k' (loaded w))
    by (intros k'; now apply find_update_first).
  split; [|split; [|split; [|]]].
  - rewrite Hf. now destruct (decide (k = k)).
  - intros k' Hk. rewrite Hf. now destruct (decide (k' = k)).
  - intros F. now apply update_first_absent.
  - intros m. now destruct s.
Qed.

Lemma loaded_markAllSeen_open (now : Z) (w : World) (p : string) :
  peerId (state w) = Some p ->
  loaded (markAllSeenIfAtBottom true now w) =
  map (mark_seen (getConversationId p) now) (loaded w).
Proof.
  intros Hp. unfold markAllSeenIfAtBottom. rewrite Hp. cbn [negb].
  destruct (loadData (localStorage w)) as [d ls] eqn:E.
  assert (Hl : loaded w = messages d) by (unfold loaded; now rewrite E).
  rewrite Hl. cbv zeta. destruct (existsb _ (messages d)) eqn:Ex.
  - pose proof (holds_after_save w (conversations d)
                  (map (mark_seen (getConversationId p) now) (messages d)) ls) as H.
    apply holds_renderMessages, holds_loaded in H.
    rewrite compact_map_view in H;
      [|apply mark_seen_view|rewrite <- Hl; apply loaded_compacted].
    etransitivity; [|exact H]. now apply loaded_stored_eq.
  - rewrite (mark_seen_unchanged _ _ _ Ex).
    rewrite <- (loaded_set_storage_load w d ls E). now apply loaded_stored_eq.
Qed.

Lemma lastRead_markAllSeen_open (now : Z) (w : World) (p : string) :
  peerId (state w) = Some p ->
  lastRead (localStorage (markAllSeenIfAtBottom true now w)) !! getConversationId p
  = Some now.
Proof.
  intros Hp. unfold markAllSeenIfAtBottom. rewrite Hp. cbn [negb].
  destruct (loadData (localStorage w)) as [d ls].
  cbn [localStorage set_storage lastRead]. apply lookup_insert_eq.
Qed.



(** ** Deleting hides, and only hides *)

Lemma state_set_storage (w : World) (ls : Storage) : state (set_storage w ls) = state w.
Proof. reflexivity. Qed.

Lemma state_updateSidebarPreviews (w : World) : state (updateSidebarPreviews w) = state w.
Proof. reflexivity. Qed.

Lemma state_onDeleteMessage (k : string) (w : World) :
  state (fst (onDeleteMessage k w)) = state w.
Proof.
  unfold onDeleteMessage. destruct (loadData (localStorage w)) as [d ls].
  destruct (find_by_id k (messages d)); cbn [fst]; [|reflexivity].
  now rewrite state_updateSidebarPreviews, state_renderMessages.
Qed.

Lemma state_markAllSeen (nearBottom : bool) (now : Z) (w : World) :
  state (markAllSeenIfAtBottom nearBottom now w) = state w.
Proof.
  unfold markAllSeenIfAtBottom. destruct (peerId (state w)); [|reflexivity].
  destruct nearBottom; cbn [negb]; [|reflexivity].
  destruct (loadData (localStorage w)) as [d ls].
  destruct (existsb _ _); cbn [state set_storage]; [|reflexivity].
  now rewrite state_renderMessages.
Qed.

Lemma getVisibleMessages_total (w : World) (p : string) :
  peerId (state w) = Some p ->
  vis_total (fst (getVisibleMessages w)) =
  Z.of_nat (length (visible_in (getConversationId p) (loaded w))).
Proof.
  intros Hp. unfold getVisibleMessages. rewrite Hp. unfold loaded, visible_in.
  destruct (loadData (localStorage w)) as [d ls]. reflexivity.
Qed.

Lemma In_slice {A : Type} (start stop : Z) (l : list A) (x : A) :
  In x (slice start stop l) -> In x l.
Proof.
  unfold slice. intros H.
  rewrite <- (firstn_skipn (Z.to_nat start) l). apply in_or_app. right.
  rewrite <- (firstn_skipn (Z.to_nat (stop - start)) (skipn (Z.to_nat start) l)).
  apply in_or_app. now left.
Qed.

Lemma getVisibleMessages_slice_In (w : World) (p : string) (m : Message) :
  peerId (state w) = Some p ->
  In m (vis_slice (fst (getVisibleMessages w))) ->
  In m (visible_in (getConversationId p) (loaded w)).
Proof.
  intros Hp. unfold getVisibleMessages. rewrite Hp. unfold loaded, visible_in.
  destruct (loadData (localStorage w)) as [d ls]. cbn [fst vis_slice].
  apply In_slice.
Qed.

Lemma In_the_id (m : Message) (l : list Message) : In m l -> In (the_id m) (map the_id l).
Proof. apply in_map. Qed.

Lemma has_id_the_id (k : string) (m : Message) : has_id k m = true -> the_id m = k.
Proof. unfold has_id, the_id. intros H. apply bool_decide_eq_true in H. now rewrite H. Qed.

Lemma filter_update_first_hide (k : string) (q : Message -> bool) (l : list Message) :
  List.NoDup (map the_id l) ->
  List.filter (fun m => q m && not_deleted m)
              (update_first (has_id k) (set_deleted true) l)
  = List.filter (fun m => negb (has_id k m)) (List.filter (fun m => q m && not_deleted m) l).
Proof.
  induction l as [|x l IH]; [reflexivity|].
  intros N. cbn [map] in N. apply List.NoDup_cons_iff in N as [Nx Nl].
  cbn [update_first]. destruct (has_id k x) eqn:Hx.
  - cbn [List.filter]. replace (not_deleted (set_deleted true x)) with false by reflexivity.
    rewrite andb_false_r.
    assert (Hrest : forall l', (forall y, In y l' -> In y l) ->
              List.filter (fun m => negb (has_id k m)) l' = l').
    { intros l' Sub. apply forallb_filter_id, forallb_forall. intros y Hy.
      destruct (has_id k y) eqn:Hy'; [|reflexivity].
      exfalso. apply Nx. rewrite (has_id_the_id _ _ Hx), <- (has_id_the_id _ _ Hy').
      now apply in_map, Sub. }
    destruct (q x && not_deleted x).
    + cbn [List.filter]. rewrite Hx. cbn [negb]. symmetry. apply Hrest.
      intros y Hy. now apply filter_In in Hy as [Hy _].
    + symmetry. apply Hrest. intros y Hy. now apply filter_In in Hy as [Hy _].
  - cbn [List.filter]. destruct (q x && not_deleted x).
    + cbn [List.filter]. rewrite Hx. cbn [negb]. now rewrite IH.
    + now apply IH.
Qed.

Lemma filter_out_one {A : Type} (p : A -> bool) (l : list A) (x : A) :
  In x l -> p x = false -> (forall y, In y l -> p y = false -> y = x) -> List.NoDup l ->
  S (length (List.filter p l)) = length l.
Proof.
  induction l as [|a l IH]; [intros []|].
  intros Hin Hx Huniq N. apply List.NoDup_cons_iff in N as [Na Nl]. cbn [List.filter length].
  destruct (p a) eqn:Pa.
  - cbn [length]. f_equal. apply IH; auto.
    + destruct Hin as [->|]; [congruence|assumption].
    + intros y Hy. apply Huniq. now right.
  - assert (a = x) by (apply Huniq; [now left|assumption]). subst a.
    do 2 f_equal. apply forallb_filter_id, forallb_forall. intros y Hy.
    destruct (p y) eqn:Py; [reflexivity|].
    exfalso. apply Na. rewrite <- (Huniq y); [assumption|now right|assumption].
Qed.

Lemma find_by_id_none (k : string) (l : list Message) :
  (forall x, In x l -> has_id k x = false) -> find_by_id k l = None.
Proof.
  unfold find_by_id. induction l as [|x l IH]; [reflexivity|].
  intros H. cbn [find]. rewrite (H x) by now left. apply IH. intros y Hy. apply H. now right.
Qed.

(** X7. Deleting a message removes nothing from the store: the message
    stays under its id as a tombstone, and the stored ids keep their order.
    It leaves the view of every conversation, the other messages of each
    view stay in place, and the count [getVisibleMessages] reports for the
    open conversation drops by exactly one when the message was in view. *)
Theorem delete_hides_message (w : World) (k : string) (m0 : Message) :
  find_by_id k (loaded w) = Some m0 ->
  let w1 := fst (onDeleteMessage k w) in
  map the_id (loaded w1) = map the_id (loaded w)
  /\ (forall c, visible_in c (loaded w1) =
                List.filter (fun m => negb (has_id k m)) (visible_in c (loaded w)))
  /\ (forall c, find_by_id k (visible_in c (loaded w1)) = None)
  /\ (forall p, peerId (state w) = Some p ->
                convId m0 = Some (getConversationId p) -> not_deleted m0 = true ->
                vis_total (fst (getVisibleMessages w1)) =
                vis_total (fst (getVisibleMessages w)) - 1).
Proof.
  intros F w1.
  pose proof (loaded_compacted w) as C.
  assert (H1 : loaded w1 = update_first (has_id k) (set_deleted true) (loaded w)).
  { unfold w1. rewrite loaded_onDeleteMessage, F.
    apply compact_update_first; [reflexivity|exact C]. }
  assert (H2 : forall c, visible_in c (loaded w1) =
                List.filter (fun m => negb (has_id k m)) (visible_in c (loaded w))).
  { intros c. rewrite H1. unfold visible_in.
    apply (filter_update_first_hide k (in_conversation c)), C. }
  split; [|split; [exact H2|split]].
  - rewrite H1. now apply update_first_map.
  - intros c. apply find_by_id_none. intros x Hx. rewrite H2 in Hx.
    apply filter_In in Hx as [_ Hx]. now apply negb_true_iff in Hx.
  - intros p Hp Hc Hd.
    rewrite (getVisibleMessages_total w p Hp).
    rewrite (getVisibleMessages_total w1 p)
      by (unfold w1; now rewrite state_onDeleteMessage).
    rewrite H2.
    apply find_by_id_Some in F as F'. destruct F' as [Hin Hid].
    assert (Hv : In m0 (visible_in (getConversationId p) (loaded w))).
    { apply filter_In. split; [exact Hin|]. unfold in_conversation.
      rewrite bool_decide_eq_true_2 by exact Hc. now rewrite Hd. }
    rewrite <- (filter_out_one (fun m => negb (has_id k m)) _ m0 Hv).
    + lia.
    + unfold has_id. now rewrite bool_decide_eq_true_2.
    + intros y Hy Hk. apply negb_false_iff in Hk. apply filter_In in Hy as [Hy _].
      unfold has_id in Hk. apply bool_decide_eq_true in Hk.
      pose proof (find_by_id_unique k _ y (compacted_ids _ C) Hy Hk) as Fy.
      congruence.
    + apply List.NoDup_filter. eapply NoDup_map_inv. apply (compacted_ids _ C).
Qed.

Lemma delete_hides_message_witness :
  let w := world_with [msg_at "a" 100; msg_at "b" 900] in
  let w1 := fst (onDeleteMessage "a" w) in
  map the_id (loaded w1) = ["a"; "b"]
  /\ visible_in "conv-u-1" (loaded w1) = [msg_at "b" 900]
  /\ vis_total (fst (getVisibleMessages w1)) = 1.
Proof.
  intros w w1.
  destruct (delete_hides_message w "a" (msg_at "a" 100) eq_refl) as (H1 & H2 & _ & H4).
  split; [exact H1|]. split; [exact (H2 "conv-u-1")|].
  exact (H4 "u-1" eq_refl eq_refl eq_refl).
Defined.

(** ** Sidebar previews *)

Lemma last_In {A : Type} (l : list A) (m : A) : last l = Some m -> In m l.
Proof.
  induction l as [|a [|b l'] IH]; cbn; [discriminate| |].
  - intros [= <-]. now left.
  - intros L. right. now apply IH.
Qed.

Lemma Sorted_last_max (l : list Message) (m : Message) :
  Sorted createdAt_le l -> last l = Some m -> Forall (fun x => createdAt_le x m) l.
Proof.
  intros S L. apply Sorted_StronglySorted in S; [|apply createdAt_le_trans].
  induction S as [|a l S IH Ha]; [constructor|].
  destruct l as [|b l'].
  - cbn in L. injection L as <-. constructor; [unfold createdAt_le; lia|constructor].
  - assert (Lb : last (b :: l') = Some m) by exact L.
    specialize (IH Lb). constructor; [|exact IH].
    rewrite List.Forall_forall in Ha. now apply Ha, last_In.
Qed.

(** X8. The message the sidebar previews for a contact belongs to the
    conversation with that contact, is not deleted, and is the newest of
    the conversation's messages that are not deleted; there is no preview
    exactly when the conversation has no such message. *)
Theorem preview_is_newest (c : Contact) (ls : Storage) :
  let data := fst (loadData ls) in
  let convId := getConversationId (contact_id c) in
  (forall m, preview_message c data = Some m ->
     In m (messages data) /\ in_conversation convId m = true /\ not_deleted m = true
     /\ forall m', In m' (messages data) -> in_conversation convId m' = true ->
                   not_deleted m' = true -> or0 (createdAt m') <= or0 (createdAt m))
  /\ (preview_message c data = None <-> visible_in convId (messages data) = []).
Proof.
  intros data convId. split.
  - intros m L. unfold preview_message in L. fold convId in L.
    apply last_In in L as Hin.
    apply filter_In in Hin as [Hm Hq].
    apply andb_true_iff in Hq as [Hc Hd]. repeat split; try assumption.
    intros m' Hm' Hc' Hd'.
    assert (S : Sorted createdAt_le (visible_in convId (messages data)))
      by apply Sorted_filter_createdAt, (compacted_sorted _ (loadData_compacted ls)).
    pose proof (Sorted_last_max _ _ S L) as A. rewrite List.Forall_forall in A.
    apply (A m'). apply filter_In. split; [exact Hm'|]. now rewrite Hc', Hd'.
  - unfold preview_message, visible_in. fold convId. apply last_None.
Qed.

Lemma preview_is_newest_witness :
  let ls := mkStorage (Some (mkSnapshot [] (Some [Some (msg_at "b" 900);
                                                  Some (msg_at "a" 100)]))) ∅ ∅ in
  preview_message (mkContact "u-1" "Ayesha" "A") (fst (loadData ls)) = Some (msg_at "b" 900)
  /\ or0 (createdAt (msg_at "a" 100)) <= or0 (createdAt (msg_at "b" 900)).
Proof.
  intros ls. split; [reflexivity|].
  destruct (preview_is_newest (mkContact "u-1" "Ayesha" "A") ls) as [H _].
  destruct (H (msg_at "b" 900) eq_refl) as (_ & _ & _ & Hmax).
  exact (Hmax (msg_at "a" 100) (or_introl eq_refl) eq_refl eq_refl).
Defined.

(** ** Unread messages *)

Lemma filter_nil {A : Type} (p : A -> bool) (l : list A) :
  (forall x, In x l -> p x = false) -> List.filter p l = [].
Proof.
  induction l as [|a l IH]; [reflexivity|].
  intros H. cbn [List.filter]. rewrite (H a) by now left.
  apply IH. intros x Hx. apply H. now right.
Qed.

Lemma setupUnreadJump_unread (w : World) (p : string) :
  peerId (state w) = Some p ->
  fst (setupUnreadJump w) =
  List.filter (is_unread (match lastRead (localStorage w) !! getConversationId p with
                          | Some t => t | None => 0 end))
              (vis_slice (fst (getVisibleMessages w))).
Proof.
  intros Hp. unfold setupUnreadJump. rewrite Hp.
  now destruct (getVisibleMessages w).
Qed.

(** X9. Once [markAllSeenIfAtBottom] has run near the bottom of the open
    conversation, and no message of the conversation is dated after the
    time it read, [setupUnreadJump] finds nothing unread. *)
Theorem unread_empty_after_reading (now : Z) (w : World) (p : string) :
  peerId (state w) = Some p ->
  (forall m, In m (loaded w) -> in_conversation (getConversationId p) m = true ->
             or0 (createdAt m) <= now) ->
  fst (setupUnreadJump (markAllSeenIfAtBottom true now w)) = [].
Proof.
  intros Hp Hold. set (w' := markAllSeenIfAtBottom true now w).
  assert (Hp' : peerId (state w') = Some p)
    by (unfold w'; now rewrite state_markAllSeen).
  rewrite (setupUnreadJump_unread w' p Hp').
  unfold w' at 1. rewrite (lastRead_markAllSeen_open now w p Hp).
  apply filter_nil. intros m Hm.
  apply (getVisibleMessages_slice_In w' p m Hp') in Hm.
  apply filter_In in Hm as [Hm Hq]. apply andb_true_iff in Hq as [Hc _].
  unfold w' in Hm. rewrite (loaded_markAllSeen_open now w p Hp) in Hm.
  apply in_map_iff in Hm as [x [<- Hx]].
  assert (Hcx : in_conversation (getConversationId p) x = true).
  { revert Hc. unfold mark_seen. now destruct (_ && _). }
  specialize (Hold x Hx Hcx).
  assert (Ht : createdAt (mark_seen (getConversationId p) now x) = createdAt x).
  { unfold mark_seen. now destruct (_ && _). }
  unfold is_unread. rewrite Ht. destruct (createdAt x) as [t|]; [|reflexivity].
  cbn [or0] in Hold. now rewrite (proj2 (Z.ltb_ge now t)) by exact Hold.
Qed.

Lemma unread_empty_after_reading_witness :
  let w := world_with [new_message "r" "conv-u-1" "u-1" "me" sample_payload 100 delivered;
                       msg_at "a" 900] in
  length (fst (setupUnreadJump w)) = 1%nat
  /\ fst (setupUnreadJump (markAllSeenIfAtBottom true 1000 w)) = [].
Proof.
  intros w. split; [reflexivity|].
  apply (unread_empty_after_reading 1000 w "u-1" eq_refl).
  intros m [<-|[<-|[]]] _; cbn; lia.
Defined.

(** X10. What [setupUnreadJump] counts is part of the page
    [getVisibleMessages] returned: never a message of the user's own, never
    a deleted one, never one dated at or before the last read, and never
    more than the page can hold, however many older messages are unread. *)
Theorem unread_within_page (w : World) (p : string) :
  peerId (state w) = Some p ->
  0 <= pageIndex (state w) ->
  let unread := fst (setupUnreadJump w) in
  let lastReadTs := match lastRead (localStorage w) !! getConversationId p with
                    | Some t => t | None => 0 end in
  Forall (fun m => In m (vis_slice (fst (getVisibleMessages w)))
                   /\ from m <> Some "me" /\ not_deleted m = true
                   /\ exists t, createdAt m = Some t /\ lastReadTs < t) unread
  /\ Z.of_nat (length unread) <= PAGE_SIZE * (pageIndex (state w) + 1).
Proof.
  intros Hp Hk unread lastReadTs. unfold unread.
  rewrite (setupUnreadJump_unread w p Hp). fold lastReadTs. split.
  - apply List.Forall_forall. intros m Hm. apply filter_In in Hm as [Hm Hu].
    split; [exact Hm|]. unfold is_unread in Hu.
    apply andb_true_iff in Hu as [Hu Hd]. apply andb_true_iff in Hu as [Ht Hf].
    split; [|split; [exact Hd|]].
    + apply negb_true_iff, bool_decide_eq_false in Hf. exact Hf.
    + destruct (createdAt m) as [t|]; [|discriminate].
      exists t. split; [reflexivity|]. now apply Z.ltb_lt.
  - etransitivity; [apply inj_le, List.filter_length_le|].
    unfold getVisibleMessages. rewrite Hp.
    destruct (loadData (localStorage w)) as [d ls]. cbn [fst vis_slice]. unfold slice.
    rewrite length_firstn. unfold PAGE_SIZE in *. lia.
Qed.

Lemma unread_within_page_witness :
  let w := world_with [new_message "r" "conv-u-1" "u-1" "me" sample_payload 100 delivered;
                       msg_at "a" 900] in
  Z.of_nat (length (fst (setupUnreadJump w))) <= 20.
Proof.
  intros w.
  exact (proj2 (unread_within_page w "u-1" eq_refl ltac:(cbn; lia))).
Defined.

(** ** Sending and delivery *)

Lemma Permutation_append_fresh (l : list Message) (msg : Message) :
  compacted l -> truthy (id msg) = true ->
  ~ In (the_id msg) (map the_id l) -> ~ In (fingerprint msg) (map fingerprint l) ->
  Permutation (compact (map Some (l ++ [msg]))) (l ++ [msg]).
Proof.
  intros [Htr Hids Hfps _] Hid Hfresh Hfp.
  rewrite compact_clean.
  - apply sort_perm.
  - apply Forall_app. split; [assumption | repeat constructor; exact Hid].
  - rewrite map_app. apply List.NoDup_app; [assumption | repeat constructor; simpl; tauto |].
    intros a Ha [<-|[]]. contradiction.
  - rewrite map_app. apply List.NoDup_app; [assumption | repeat constructor; simpl; tauto |].
    intros a Ha [<-|[]]. contradiction.
Qed.

Lemma find_append_fresh (l : list Message) (msg : Message) (k : string) :
  compacted l -> truthy (id msg) = true ->
  ~ In (the_id msg) (map the_id l) -> ~ In (fingerprint msg) (map fingerprint l) ->
  find_by_id k (compact (map Some (l ++ [msg]))) = find_by_id k (l ++ [msg]).
Proof.
  intros C Hid Hfresh Hfp.
  pose proof (Permutation_append_fresh l msg C Hid Hfresh Hfp) as P.
  pose proof (compact_compacted (map Some (l ++ [msg]))) as [_ N _ _].
  assert (N' : List.NoDup (map the_id (l ++ [msg]))).
  { eapply Permutation_NoDup; [|exact N]. now apply Permutation_map. }
  destruct (find_by_id k (l ++ [msg])) as [m|] eqn:F.
  - apply find_by_id_Some in F as [Hin Hk].
    apply find_by_id_unique; [exact N| |exact Hk].
    eapply Permutation_in; [symmetry; exact P|exact Hin].
  - destruct (find_by_id k (compact _)) as [m|] eqn:F'; [|reflexivity].
    apply find_by_id_Some in F' as [Hin Hk].
    rewrite (find_by_id_unique k (l ++ [msg]) m N') in F; [discriminate| |exact Hk].
    eapply Permutation_in; [exact P|exact Hin].
Qed.

Lemma the_id_fresh (k : string) (l : list Message) (msg : Message) :
  compacted l -> id msg = Some k -> find_by_id k l = None ->
  ~ In (the_id msg) (map the_id l).
Proof.
  intros C Hk F. unfold the_id at 1. rewrite Hk. cbn [join_elem].
  apply find_None_fresh; [apply (compacted_truthy _ C)|exact F].
Qed.

Lemma sendMessage_timers (w : World) (p : string) (text : jsstring) (now : Z)
  (payload : CipherPayload) (newId : string) (botNow : Z) :
  timer_inv w ->
  peerId (state w) = Some p ->
  sending (state w) = false ->
  duplicate_within_600 (lastSend (state w)) (getConversationId p) text now = false ->
  let w1 := sendMessage text now (Returned payload) newId botNow w in
  timers w1 !! nextTimer w = Some (JobUpdateStatus newId delivered)
  /\ (duplicate_within_600 (lastBot (state w)) (getConversationId p) text botNow = false ->
      botTimers w1 !! getConversationId p = Some (Pos.succ (nextTimer w))
      /\ timers w1 !! Pos.succ (nextTimer w)
         = Some (JobBotReply text (getConversationId p) p)).
Proof.
  intros Hinv Hp Hs Hd. unfold sendMessage, sendMessage_begin. rewrite Hp, Hs, Hd.
  cbn [localStorage set_state].
  destruct (loadData (localStorage w)) as [d ls] eqn:E.
  unfold sendMessage_resume. cbn [ps_convId ps_text ps_now ps_peerIdAtSend ps_data].
  cbn [timers botTimers set_state].
  match goal with
  | |- context [simulateBotResponse ?t ?c ?q ?n (snd (setTimeout ?j ?x))] =>
      set (w2 := x); set (w3 := snd (setTimeout j w2))
  end.
  assert (V : timer_view w2 = timer_view w)
    by (unfold w2; now rewrite view_renderMessages).
  assert (Hn : nextTimer w2 = nextTimer w) by (unfold timer_view in V; congruence).
  assert (Ht : timers w2 = timers w) by (unfold timer_view in V; congruence).
  assert (Hb : botTimers w2 = botTimers w) by (unfold timer_view in V; congruence).
  assert (Hlb : lastBot (state w3) = lastBot (state w)).
  { unfold w3, w2. cbn [setTimeout snd state]. now rewrite state_renderMessages. }
  assert (H3 : timers w3 !! nextTimer w = Some (JobUpdateStatus newId delivered)).
  { unfold w3. cbn [setTimeout snd timers]. rewrite Hn. apply lookup_insert_eq. }
  assert (Hn3 : nextTimer w3 = Pos.succ (nextTimer w))
    by (unfold w3; cbn [setTimeout snd nextTimer]; now rewrite Hn).
  assert (Hb3 : botTimers w3 = botTimers w) by (unfold w3; cbn; exact Hb).
  destruct (duplicate_within_600 (lastBot (state w3)) (getConversationId p) text botNow)
    eqn:Dup.
  - unfold simulateBotResponse. rewrite Dup. split; [exact H3|].
    rewrite Hlb in Dup. intros Dup'. congruence.
  - destruct (simulateBotResponse_timers text (getConversationId p) p botNow w3 Dup)
      as (B & T & _ & _).
    rewrite B, T, Hn3, Hb3. split.
    + rewrite lookup_insert_ne by lia.
      destruct (botTimers w !! getConversationId p) as [prev|] eqn:Prev; [|exact H3].
      rewrite lookup_delete_ne; [exact H3|].
      destruct (inv_tracked w Hinv _ _ Prev) as (u & q & Hprev).
      pose proof (inv_below w Hinv _ _ Hprev). lia.
    + intros _. split; apply lookup_insert_eq.
Qed.

Lemma loaded_fire_updateStatus (tid : positive) (k : string) (s : Status)
  (enc : outcome CipherPayload) (newId : string) (now : Z) (nearBottom : bool)
  (w : World) :
  timers w !! tid = Some (JobUpdateStatus k s) ->
  loaded (fire tid enc newId now nearBottom w) =
  update_first (has_id k) (set_status s now) (loaded w).
Proof.
  intros T. unfold fire. rewrite T. rewrite loaded_updateStatus.
  assert (L : loaded (clearTimeout tid w) = loaded w) by now apply loaded_stored_eq.
  rewrite L. destruct (find_by_id k (loaded w)) eqn:F.
  - apply compact_update_first; [reflexivity|apply loaded_compacted].
  - symmetry. now apply update_first_absent.
Qed.

(** X11. An accepted send stores the new message, from the user to the
    open peer, dated at the send and with status sent, leaves the messages
    already stored as they are, and arms the delivery timer; when that timer
    fires the message is delivered. Unless the auto-reply is suppressed as a
    duplicate, the reply timer of the conversation is armed as well. *)
Theorem send_then_delivered (w : World) (p : string) (text : jsstring) (now : Z)
  (payload : CipherPayload) (newId : string) (botNow : Z) :
  reachable w ->
  peerId (state w) = Some p ->
  sending (state w) = false ->
  duplicate_within_600 (lastSend (state w)) (getConversationId p) text now = false ->
  let c := getConversationId p in
  let msg := new_message newId c "me" p payload now sent in
  truthy (Some newId) = true ->
  find_by_id newId (loaded w) = None ->
  ~ In (fingerprint msg) (map fingerprint (loaded w)) ->
  let w1 := sendMessage text now (Returned payload) newId botNow w in
  find_by_id newId (loaded w1) = Some msg
  /\ (forall k m, find_by_id k (loaded w) = Some m -> find_by_id k (loaded w1) = Some m)
  /\ timers w1 !! nextTimer w = Some (JobUpdateStatus newId delivered)
  /\ (forall enc k t nearBottom,
        find_by_id newId (loaded (fire (nextTimer w) enc k t nearBottom w1))
        = Some (set_status delivered t msg))
  /\ (duplicate_within_600 (lastBot (state w)) c text botNow = false ->
      exists tid, botTimers w1 !! c = Some tid
                  /\ timers w1 !! tid = Some (JobBotReply text c p)).
Proof.
  intros R Hp Hs Hd c msg Hid Hfresh Hfp w1.
  pose proof (reachable_timer_inv w R) as Hinv.
  pose proof (loaded_compacted w) as C.
  destruct (sendMessage_accepted w p text now payload newId botNow Hp Hs Hd)
    as (_ & _ & Hld).
  fold w1 c msg in Hld.
  assert (Hnew : ~ In (the_id msg) (map the_id (loaded w)))
    by (apply (the_id_fresh newId); auto).
  assert (Hfind : forall k, find_by_id k (loaded w1) = find_by_id k (loaded w ++ [msg])).
  { intros k. rewrite Hld. now apply find_append_fresh. }
  destruct (sendMessage_timers w p text now payload newId botNow Hinv Hp Hs Hd)
    as [T B]. fold w1 c in T, B.
  assert (F1 : find_by_id newId (loaded w1) = Some msg).
  { rewrite Hfind, find_app_last, Hfresh. unfold has_id, msg. cbn [id new_message].
    now rewrite bool_decide_eq_true_2. }
  split; [exact F1|]. split; [|split; [exact T|split]].
  - intros k m F. now rewrite Hfind, find_app_last, F.
  - intros enc k t nearBottom.
    rewrite (loaded_fire_updateStatus _ newId delivered) by exact T.
    rewrite find_update_first by reflexivity.
    destruct (decide (newId = newId)); [|congruence]. now rewrite F1.
  - intros Dup. destruct (B Dup) as [B1 B2]. eauto.
Qed.

Lemma send_then_delivered_witness :
  let w := handle (EvSwitch "u-1" true 900) (initial_world (mkStorage None ∅ ∅)) in
  let w1 := sendMessage (js "hi") 1000 (Returned sample_payload) "m-1" 1001 w in
  status_of "m-1" w1 = Some sent
  /\ status_of "m-1" (fire 1%positive Thrown "unused" 1300 false w1) = Some delivered.
Proof.
  intros w w1.
  assert (R : reachable w) by (apply reachable_handle, reachable_initial).
  destruct (send_then_delivered w "u-1" (js "hi") 1000 sample_payload "m-1" 1001 R
              eq_refl eq_refl eq_refl eq_refl eq_refl) as (H1 & _ & _ & H4 & _).
  - cbn. tauto.
  - split.
    + exact (f_equal (option_map status) H1).
    + exact (f_equal (option_map status) (H4 Thrown "unused" 1300 false)).
Defined.

(** ** The auto-reply when its timer fires *)



(** ** The page index *)

Lemma state_updateStatus (k : string) (s : Status) (now : Z) (w : World) :
  state (updateStatus k s now w) = state w.
Proof.
  unfold updateStatus. destruct (loadData (localStorage w)) as [d ls].
  destruct (find_by_id k (messages d)); [|reflexivity].
  now rewrite state_renderMessages.
Qed.

Lemma state_undoDelete (k : string) (snapshot : Message) (w : World) :
  state (undoDelete k snapshot w) = state w.
Proof.
  unfold undoDelete. destruct (loadData (localStorage w)) as [d ls].
  destruct (find_by_id k (messages d)); [|reflexivity].
  now rewrite state_updateSidebarPreviews, state_renderMessages.
Qed.

Lemma state_edit (k : string) (commit : bool) (original newText : jsstring)
  (enc : outcome CipherPayload) (now : Z) (w : World) :
  state (run_op (OpEdit k commit original newText enc now) w) = state w.
Proof.
  cbn [run_op]. unfold onEditMessage_begin.
  destruct (loadData (localStorage w)) as [d ls].
  destruct (find_by_id k (messages d)); [|reflexivity].
  unfold onEditMessage_finish. destruct (_ && _); [|reflexivity].
  destruct enc; [|reflexivity]. now rewrite state_renderMessages.
Qed.

Lemma page_set_state (w : World) (st : State) :
  peerId st = peerId (state w) -> pageIndex st = pageIndex (state w) ->
  page_of (set_state w st) = page_of w.
Proof. unfold page_of. cbn [state set_state]. now intros -> ->. Qed.

Lemma page_simulateBotResponse (userText : jsstring) (c peer : string) (now : Z)
  (w : World) :
  page_of (simulateBotResponse userText c peer now w) = page_of w.
Proof.
  unfold simulateBotResponse. destruct (duplicate_within_600 _ _ _ _); [reflexivity|].
  cbn [botTimers set_state]. now destruct (botTimers w !! c).
Qed.

Lemma page_sendMessage (text : jsstring) (now : Z) (enc : outcome CipherPayload)
  (newId : string) (botNow : Z) (w : World) :
  page_of (sendMessage text now enc newId botNow w) = page_of w.
Proof.
  unfold sendMessage, sendMessage_begin.
  destruct (peerId (state w)) as [p|] eqn:Hp; [|reflexivity].
  destruct (sending (state w)); [reflexivity|].
  destruct (duplicate_within_600 _ _ _ _); [reflexivity|].
  cbn [localStorage set_state]. destruct (loadData (localStorage w)) as [d ls].
  unfold sendMessage_resume. destruct enc as [payload|].
  - cbv zeta. rewrite page_set_state by reflexivity.
    rewrite page_simulateBotResponse. unfold page_of. cbn [setTimeout snd state].
    rewrite state_renderMessages. cbn. now rewrite Hp.
  - unfold page_of. cbn. now rewrite Hp.
Qed.

Lemma page_botReply_callback (c peer : string) (enc : outcome CipherPayload)
  (newId : string) (now : Z) (nearBottom : bool) (seenNow : Z) (w : World) :
  page_of (botReply_callback c peer enc newId now nearBottom seenNow w) = page_of w.
Proof.
  unfold botReply_callback. cbn [localStorage set_botTimers].
  destruct (loadData (localStorage w)) as [d ls]. destruct enc; [|reflexivity].
  cbn [state set_storage set_botTimers].
  destruct (peerId (state w)) as [p|]; [|reflexivity].
  destruct (bool_decide _); [|reflexivity].
  unfold page_of. now rewrite state_markAllSeen, state_renderMessages.
Qed.

Lemma page_fire (tid : positive) (enc : outcome CipherPayload) (newId : string)
  (now : Z) (nearBottom : bool) (w : World) :
  page_of (fire tid enc newId now nearBottom w) = page_of w.
Proof.
  unfold fire. destruct (timers w !! tid) as [[k s|u c peer| |]|]; try reflexivity.
  - unfold page_of. now rewrite state_updateStatus.
  - now rewrite page_botReply_callback.
Qed.

Lemma page_run_op (o : Op) (w : World) : page_of (run_op o w) = page_of w.
Proof.
  destruct o.
  - unfold page_of. cbn [run_op]. now rewrite state_updateStatus.
  - unfold page_of. cbn [run_op]. now rewrite state_markAllSeen.
  - apply page_sendMessage.
  - unfold page_of. now rewrite state_edit.
  - unfold page_of. cbn [run_op]. now rewrite state_onDeleteMessage.
  - unfold page_of. cbn [run_op]. now rewrite state_undoDelete.
Qed.

Lemma page_onInput (value : jsstring) (w : World) : page_of (onInput value w) = page_of w.
Proof.
  unfold onInput. cbn [state set_storage]. now destruct (typingTimer (state w)).
Qed.

Lemma page_inv_same (w w' : World) : page_of w' = page_of w -> page_inv w -> page_inv w'.
Proof. unfold page_of, page_inv. intros [= -> ->]. tauto. Qed.

Lemma page_inv_handle (e : Event) (w : World) : page_inv w -> page_inv (handle e w).
Proof.
  intros I. destruct e; cbn [handle].
  - eapply page_inv_same; [apply page_run_op|exact I].
  - eapply page_inv_same; [apply page_simulateBotResponse|exact I].
  - eapply page_inv_same; [apply page_fire|exact I].
  - eapply page_inv_same; [apply page_onInput|exact I].
  - unfold switchConversation, page_inv.
    rewrite state_markAllSeen, state_renderMessages. cbn. split; [lia|discriminate].
  - unfold closeChat, page_inv. cbn. split; [lia|reflexivity].
  - unfold onScroll. destruct (peerId (state w)) as [p|] eqn:Hp; [|exact I].
    unfold page_inv. rewrite state_markAllSeen. destruct atTop; [|exact I].
    destruct (loadData (localStorage w)) as [d ls].
    destruct (_ <? _); [|exact I].
    rewrite state_renderMessages. cbn. destruct I as [I0 _].
    split; [lia|discriminate].
  - exact I.
  - exact I.
Qed.

(** X13. In every state the page can reach, the page index is not
    negative, and it is 0 while no conversation is open: it moves only by
    one page up on a scroll to the top and back to 0 when a conversation is
    opened or closed. *)
Theorem page_index_invariant (w : World) :
  reachable w ->
  0 <= pageIndex (state w)
  /\ (peerId (state w) = None -> pageIndex (state w) = 0)
  /\ (forall e, pageIndex (state (handle e w)) = pageIndex (state w)
                \/ pageIndex (state (handle e w)) = pageIndex (state w) + 1
                \/ pageIndex (state (handle e w)) = 0).
Proof.
  intros R.
  assert (I : page_inv w).
  { induction R as [ls|e w R IH]; [split; [cbn; lia|reflexivity]|].
    now apply page_inv_handle. }
  destruct I as [I0 I1]. split; [exact I0|]. split; [exact I1|].
  intros e.
  assert (Same : forall w', page_of w' = page_of w ->
                            pageIndex (state w') = pageIndex (state w))
    by (unfold page_of; intros w' [= _ H]; exact H).
  destruct e; cbn [handle].
  - left. apply Same, page_run_op.
  - left. apply Same, page_simulateBotResponse.
  - left. apply Same, page_fire.
  - left. apply Same, page_onInput.
  - right. right. unfold switchConversation.
    now rewrite state_markAllSeen, state_renderMessages.
  - right. right. reflexivity.
  - unfold onScroll. destruct (peerId (state w)) as [p|]; [|now left].
    rewrite state_markAllSeen. destruct atTop; [|now left].
    destruct (loadData (localStorage w)) as [d ls].
    destruct (_ <? _); [|now left].
    right. left. now rewrite state_renderMessages.
  - now left.
  - now left.
Qed.

Lemma page_index_invariant_witness :
  let w := handle (EvScroll true false 950)
             (handle (EvSwitch "u-1" true 900) (initial_world (mkStorage None ∅ ∅))) in
  0 <= pageIndex (state w).
Proof.
  intros w. apply (page_index_invariant w).
  unfold w. apply reachable_handle, reachable_handle, reachable_initial.
Defined.

(** ** Loading twice *)

Lemma loadData_stored (ls : Storage) :
  snd (loadData ls) = setItem_data ls (to_snapshot (fst (loadData ls))).
Proof. unfold loadData. now destruct (stored ls). Qed.

Lemma loadData_of_snapshot (ls : Storage) (d : Data) :
  compacted (messages d) ->
  loadData (setItem_data ls (to_snapshot d)) = (d, setItem_data ls (to_snapshot d)).
Proof.
  intros C. unfold loadData. cbn [stored setItem_data to_snapshot raw_messages
                                  raw_conversations].
  rewrite (compact_fix _ C). destruct d as [convs msgs]. reflexivity.
Qed.

(** X14. [loadData] leaves the store in a state a second [loadData] reads
    back unchanged and a [saveData] of what was read rewrites unchanged, as
    the start of the page does; it never touches the last-read times and
    the drafts; and on a store that was never written it returns one
    conversation for each contact and no message. *)
Theorem loadData_settles (ls : Storage) :
  let data := fst (loadData ls) in
  let ls1 := snd (loadData ls) in
  loadData ls1 = (data, ls1)
  /\ saveData (to_snapshot data) ls1 = ls1
  /\ lastRead ls1 = lastRead ls /\ drafts ls1 = drafts ls
  /\ (stored ls = None ->
      messages data = []
      /\ conversations data =
         map (fun c => mkConversation (getConversationId (contact_id c)) (contact_id c))
             CONTACTS).
Proof.
  intros data ls1.
  assert (E : ls1 = setItem_data ls (to_snapshot data)) by apply loadData_stored.
  pose proof (loadData_compacted ls) as C. fold data in C.
  split; [|split; [|split; [|split]]].
  - rewrite E. now apply loadData_of_snapshot.
  - rewrite E. unfold saveData.
    cbn [to_snapshot raw_messages raw_conversations setItem_data lastRead drafts].
    now rewrite (compact_fix _ C).
  - now rewrite E.
  - now rewrite E.
  - intros N. unfold data, loadData. rewrite N. split; reflexivity.
Qed.

(** ** Editing *)

Lemma In_update_first (p : Message -> bool) (f : Message -> Message) (l : list Message)
  (y : Message) :
  In y (update_first p f l) ->
  In y l \/ exists x, List.find p l = Some x /\ y = f x.
Proof.
  induction l as [|a l IH]; [intros []|]. cbn [update_first find].
  destruct (p a) eqn:Pa.
  - intros [<-|H]; [right; eauto|left; now right].
  - intros [<-|H]; [left; now left|].
    destruct (IH H) as [H'|H']; [left; now right|now right].
Qed.

Lemma NoDup_map_update_first {B : Type} (g : Message -> B) (p : Message -> bool)
  (f : Message -> Message) (l : list Message) (m0 : Message) :
  List.find p l = Some m0 ->
  ~ In (g (f m0)) (map g l) ->
  List.NoDup (map g l) -> List.NoDup (map g (update_first p f l)).
Proof.
  induction l as [|a l IH]; [discriminate|].
  cbn [find update_first map]. intros F Hnew N.
  apply List.NoDup_cons_iff in N as [Na Nl].
  destruct (p a) eqn:Pa.
  - injection F as ->. cbn [map]. constructor; [|exact Nl].
    intros H. apply Hnew. now right.
  - cbn [map]. constructor.
    + intros H. apply in_map_iff in H as [y [Hy Hin]].
      apply In_update_first in Hin as [Hin|[x [Fx ->]]].
      * apply Na. rewrite <- Hy. now apply in_map.
      * rewrite F in Fx. injection Fx as <-. apply Hnew. left. now symmetry.
    + apply IH; [exact F| |exact Nl]. intros H. apply Hnew. now right.
Qed.

Lemma edit_compacted (k : string) (payload : CipherPayload) (now : Z)
  (l : list Message) (m0 : Message) :
  find_by_id k l = Some m0 ->
  ~ In (fingerprint (set_cipher payload now m0)) (map fingerprint l) ->
  compacted l -> compacted (update_first (has_id k) (set_cipher payload now) l).
Proof.
  intros F Hfp [Htr Hids Hfps Hs]. constructor.
  - apply List.Forall_forall. intros y Hy.
    rewrite List.Forall_forall in Htr.
    apply In_update_first in Hy as [Hy|[x [Fx ->]]]; [now apply Htr|].
    apply find_by_id_Some in Fx as [Hx _]. cbn [set_cipher id]. now apply Htr.
  - rewrite update_first_map by reflexivity. exact Hids.
  - now apply (NoDup_map_update_first fingerprint _ _ _ m0).
  - apply (Sorted_view l); [|exact Hs]. symmetry. now apply update_first_map.
Qed.

(** X15. An edit that is cancelled, or leaves the text empty or as it
    was, or fails to encrypt, changes nothing in the store. A committed
    edit replaces the cipher of the one message and stamps [editedAt]; its
    id, addressing, creation time, status and tombstone flag stay, and so
    does every other message. *)
Theorem edit_effect (k : string) (commit : bool) (original newText : jsstring)
  (enc : outcome CipherPayload) (now : Z) (w : World) (m0 : Message) :
  find_by_id k (loaded w) = Some m0 ->
  let w' := run_op (OpEdit k commit original newText enc now) w in
  (commit = false \/ newText = [] \/ newText = original \/ enc = Thrown ->
   loaded w' = loaded w)
  /\ (forall payload,
        commit = true -> newText <> [] -> newText <> original -> enc = Returned payload ->
        ~ In (fingerprint (set_cipher payload now m0)) (map fingerprint (loaded w)) ->
        loaded w' = update_first (has_id k) (set_cipher payload now) (loaded w)
        /\ find_by_id k (loaded w') = Some (set_cipher payload now m0)
        /\ (forall k', k' <> k -> find_by_id k' (loaded w') = find_by_id k' (loaded w))).
Proof.
  intros F w'.
  assert (Hw : w' = let '(d, ls) := loadData (localStorage w) in
                    onEditMessage_finish d k commit original newText enc now
                                         (set_storage w ls)).
  { unfold w'. cbn [run_op]. unfold onEditMessage_begin.
    destruct (loadData (localStorage w)) as [d ls] eqn:E.
    assert (Hl : loaded w = messages d) by (unfold loaded; now rewrite E).
    rewrite <- Hl, F. reflexivity. }
  destruct (loadData (localStorage w)) as [d ls] eqn:E.
  assert (Hl : loaded w = messages d) by (unfold loaded; now rewrite E).
  assert (Hsame : loaded (set_storage w ls) = loaded w)
    by (rewrite Hl; now apply loaded_set_storage_load).
  split.
  - intros H. rewrite Hw. unfold onEditMessage_finish.
    destruct H as [-> | [-> | [-> | ->]]]; cbn [andb]; try exact Hsame.
    + rewrite bool_decide_eq_true_2 by reflexivity. cbn [negb]. rewrite andb_false_r.
      exact Hsame.
    + rewrite (bool_decide_eq_true_2 (original = original)) by reflexivity. cbn [negb].
      rewrite andb_false_r. exact Hsame.
    + destruct (_ && _ && _); exact Hsame.
  - intros payload -> Hne Hno -> Hfp.
    assert (H1 : loaded w' = update_first (has_id k) (set_cipher payload now) (loaded w)).
    { rewrite Hw. unfold onEditMessage_finish.
      rewrite (bool_decide_eq_false_2 _ Hne), (bool_decide_eq_false_2 _ Hno). cbn [andb negb].
      pose proof (holds_after_save (set_storage w ls) (conversations d)
                    (update_first (has_id k) (set_cipher payload now) (messages d))
                    (localStorage (set_storage w ls))) as H.
      apply holds_renderMessages, holds_loaded in H.
      rewrite compact_fix in H.
      - rewrite Hl. exact H.
      - rewrite <- Hl. apply (edit_compacted k payload now _ m0 F Hfp), loaded_compacted. }
    split; [exact H1|]. rewrite H1.
    assert (Hf : forall k', find_by_id k' (update_first (has_id k) (set_cipher payload now)
                                                        (loaded w))
                 = if decide (k' = k)
                   then option_map (set_cipher payload now) (find_by_id k (loaded w))
                   else find_by_id k' (loaded w))
      by (intros k'; now apply find_update_first).
    split.
    + rewrite Hf, F. now destruct (decide (k = k)).
    + intros k' Hk. rewrite Hf. now destruct (decide (k' = k)).
Qed.

Lemma edit_effect_witness :
  let w := world_with [msg_at "a" 100; msg_at "b" 900] in
  let payload := mkCipher (Some [1; 2; 3; 4; 5; 6; 7; 8; 9; 10; 11; 12]) (Some [42]) in
  let w' := run_op (OpEdit "a" true (js "hi") (js "hello") (Returned payload) 5000) w in
  find_by_id "a" (loaded w') = Some (set_cipher payload 5000 (msg_at "a" 100))
  /\ find_by_id "b" (loaded w') = Some (msg_at "b" 900).
Proof.
  intros w payload w'.
  destruct (edit_effect "a" true (js "hi") (js "hello") (Returned payload) 5000 w
              (msg_at "a" 100) eq_refl) as [_ H].
  destruct (H payload eq_refl) as (_ & H2 & H3).
  - discriminate.
  - discriminate.
  - reflexivity.
  - cbn. intros [E|[E|[]]]; discriminate E.
  - split; [exact H2|]. exact (H3 "b" ltac:(discriminate)).
Defined.

(** ** What is saved after an [await] *)

Lemma find_by_id_In (k : string) (l : list Message) (m : Message) :
  In m l -> id m = Some k -> find_by_id k l <> None.
Proof.
  unfold find_by_id. induction l as [|a l IH]; [intros []|].
  cbn [find]. intros [->|H] Hk.
  - unfold has_id. now rewrite bool_decide_eq_true_2.
  - destruct (has_id k a); [discriminate|]. now apply IH.
Qed.

Lemma find_compact_None (k : string) (l : list Message) :
  find_by_id k l = None -> find_by_id k (compact (map Some l)) = None.
Proof.
  intros F. destruct (find_by_id k (compact (map Some l))) as [m|] eqn:F'; [|reflexivity].
  apply find_by_id_Some in F' as [Hin Hk]. apply compact_In in Hin as [Hin _].
  apply in_map_iff in Hin as [x [[= ->] Hx]].
  now destruct (find_by_id_In k l m Hx Hk).
Qed.

Lemma loaded_sendMessage_resume (ps : PendingSend) (payload : CipherPayload)
  (newId : string) (botNow : Z) (w : World) :
  loaded (sendMessage_resume ps (Returned payload) newId botNow w) =
  compact (map Some (messages (ps_data ps) ++
                     [new_message newId (ps_convId ps) "me" (ps_peerIdAtSend ps) payload
                                  (ps_now ps) sent])).
Proof.
  unfold sendMessage_resume.
  match goal with
  | |- context [simulateBotResponse ?t ?c ?q ?n ?x] =>
      pose proof (holds_simulateBotResponse t c q n x) as Hholds
  end.
  apply holds_loaded. eapply holds_storage_irrelevant; [|apply Hholds].
  - reflexivity.
  - eapply holds_storage_irrelevant; [|apply holds_renderMessages, holds_after_save].
    reflexivity.
Qed.

Lemma sendMessage_begin_pending (text : jsstring) (now : Z) (w0 w1 : World)
  (ps : PendingSend) :
  sendMessage_begin text now w0 = (w1, Some ps) ->
  messages (ps_data ps) = loaded w0 /\ ps_now ps = now /\ ps_text ps = text
  /\ peerId (state w0) = Some (ps_peerIdAtSend ps)
  /\ ps_convId ps = getConversationId (ps_peerIdAtSend ps).
Proof.
  unfold sendMessage_begin. destruct (peerId (state w0)) as [p|]; [|discriminate].
  destruct (sending (state w0)); [discriminate|].
  destruct (duplicate_within_600 _ _ _ _); [discriminate|].
  cbn [localStorage set_state]. unfold loaded.
  destruct (loadData (localStorage w0)) as [d ls]. intros [= <- <-]. now cbn.
Qed.

(** X16. [sendMessage] saves the snapshot of the store it loaded before
    it awaited the encryption, with the new message appended: whatever the
    store holds by the time the encryption settles is overwritten, so a
    message stored in between is lost. *)
Theorem send_saves_earlier_snapshot (text : jsstring) (now : Z) (w0 w1 : World)
  (ps : PendingSend) (payload : CipherPayload) (newId : string) (botNow : Z)
  (w : World) :
  sendMessage_begin text now w0 = (w1, Some ps) ->
  let msg := new_message newId (ps_convId ps) "me" (ps_peerIdAtSend ps) payload now sent in
  let w' := sendMessage_resume ps (Returned payload) newId botNow w in
  loaded w' = compact (map Some (loaded w0 ++ [msg]))
  /\ (forall k, k <> newId -> find_by_id k (loaded w0) = None ->
                find_by_id k (loaded w') = None).
Proof.
  intros B msg w'. destruct (sendMessage_begin_pending _ _ _ _ _ B) as (Hm & Hn & _).
  assert (H1 : loaded w' = compact (map Some (loaded w0 ++ [msg]))).
  { unfold w', msg. rewrite loaded_sendMessage_resume. now rewrite Hm, Hn. }
  split; [exact H1|]. intros k Hk F. rewrite H1. apply find_compact_None.
  rewrite find_app_last, F. unfold has_id, msg. cbn [id new_message].
  rewrite bool_decide_eq_false_2; [reflexivity|]. congruence.
Qed.

Lemma send_saves_earlier_snapshot_witness :
  let w0 := mkWorld (mkState (Some "u-1") 0 None false None None)
                    (mkStorage (Some (mkSnapshot [] (Some [Some (msg_at "a" 100)]))) ∅ ∅)
                    ∅ (<[1%positive := JobUpdateStatus "a" delivered]> ∅) 2%positive in
  let w := fire 1%positive Thrown "unused" 1200
                false (fst (sendMessage_begin (js "next") 1100 w0)) in
  let w' :=
    match snd (sendMessage_begin (js "next") 1100 w0) with
    | Some ps => sendMessage_resume ps (Returned sample_payload) "b" 1300 w
    | None => w
    end in
  status_of "a" w = Some delivered /\ status_of "a" w' = Some sent.
Proof.
  intros w0 w w'. split; [reflexivity|].
  pose (ps := mkPending "conv-u-1" (js "next") 1100 "u-1" (mkData [] [msg_at "a" 100])).
  assert (B : sendMessage_begin (js "next") 1100 w0
              = (fst (sendMessage_begin (js "next") 1100 w0), Some ps)) by reflexivity.
  exact (f_equal (fun l => option_map status (find_by_id "a" l))
           (proj1 (send_saves_earlier_snapshot (js "next") 1100 w0 _ ps sample_payload
                     "b" 1300 w B))).
Defined.

(** X17. A committed edit saves the snapshot of the store the handler
    loaded when the edit began, with the one message changed: what the store
    holds by the time the edit is committed is overwritten. *)
Theorem edit_saves_earlier_snapshot (k : string) (w0 w1 : World) (data : Data)
  (original newText : jsstring) (payload : CipherPayload) (now : Z) (w : World) :
  onEditMessage_begin k w0 = (w1, Some data) ->
  newText <> [] -> newText <> original ->
  let w' := onEditMessage_finish data k true original newText (Returned payload) now w in
  loaded w' = compact (map Some (update_first (has_id k) (set_cipher payload now)
                                              (loaded w0)))
  /\ (forall k', find_by_id k' (loaded w0) = None -> find_by_id k' (loaded w') = None).
Proof.
  intros B Hne Hno w'.
  assert (Hd : messages data = loaded w0).
  { revert B. unfold onEditMessage_begin, loaded.
    destruct (loadData (localStorage w0)) as [d ls].
    destruct (find_by_id k (messages d)); now intros [= _ <-]. }
  assert (H1 : loaded w' = compact (map Some (update_first (has_id k)
                                     (set_cipher payload now) (loaded w0)))).
  { unfold w', onEditMessage_finish.
    rewrite (bool_decide_eq_false_2 _ Hne), (bool_decide_eq_false_2 _ Hno). cbn [andb negb].
    rewrite <- Hd. apply holds_loaded, holds_renderMessages, holds_after_save. }
  split; [exact H1|]. intros k' F. rewrite H1. apply find_compact_None.
  rewrite find_update_first by reflexivity.
  destruct (decide (k' = k)) as [->|_]; [|exact F]. now rewrite F.
Qed.

Lemma edit_saves_earlier_snapshot_witness :
  let w0 := world_with [msg_at "a" 100] in
  let w := fst (sendMessage_begin (js "x") 0 (world_with [msg_at "a" 100; msg_at "b" 900])) in
  let payload := mkCipher (Some [1; 2; 3; 4; 5; 6; 7; 8; 9; 10; 11; 12]) (Some [42]) in
  let w' :=
    match snd (onEditMessage_begin "a" w0) with
    | Some data => onEditMessage_finish data "a" true (js "hi") (js "hello")
                                        (Returned payload) 5000 w
    | None => w
    end in
  find_by_id "b" (loaded w) = Some (msg_at "b" 900) /\ find_by_id "b" (loaded w') = None.
Proof.
  intros w0 w payload w'. split; [reflexivity|].
  assert (B : onEditMessage_begin "a" w0
              = (fst (onEditMessage_begin "a" w0), Some (mkData [] [msg_at "a" 100])))
    by reflexivity.
  refine (proj2 (edit_saves_earlier_snapshot "a" w0 _ _ (js "hi") (js "hello") payload
                   5000 w B _ _) "b" eq_refl); discriminate.
Defined.

(** ** Loading older messages *)

Lemma getVisibleMessages_last_n (w : World) (p : string) :
  peerId (state w) = Some p ->
  0 <= pageIndex (state w) ->
  vis_slice (fst (getVisibleMessages w)) =
  last_n (Z.to_nat (PAGE_SIZE * (pageIndex (state w) + 1)))
         (visible_in (getConversationId p) (loaded w)).
Proof.
  intros Hp Hk. unfold getVisibleMessages. rewrite Hp. unfold loaded, visible_in.
  destruct (loadData (localStorage w)) as [d ls]. cbn [fst vis_slice].
  set (all := List.filter _ (messages d)).
  unfold slice, last_n, PAGE_SIZE in *.
  rewrite firstn_all2 by (rewrite length_skipn; lia).
  f_equal. lia.
Qed.

Lemma last_n_extend {A : Type} (n n' : nat) (l : list A) :
  (n <= n')%nat ->
  exists older, last_n n' l = older ++ last_n n l /\ (length older <= n' - n)%nat.
Proof.
  intros Hn. unfold last_n.
  exists (firstn ((length l - n) - (length l - n')) (skipn (length l - n') l)). split.
  - rewrite <- (firstn_skipn ((length l - n) - (length l - n')) (skipn (length l - n') l))
      at 1.
    f_equal. rewrite skipn_skipn. f_equal. lia.
  - rewrite length_firstn. lia.
Qed.

Lemma loaded_onScroll_away (atTop : bool) (now : Z) (w : World) :
  loaded (onScroll atTop false now w) = loaded w.
Proof.
  unfold onScroll. destruct (peerId (state w)) as [p|] eqn:Hp; [|reflexivity].
  assert (M : forall x, markAllSeenIfAtBottom false now x = x)
    by (intros x; unfold markAllSeenIfAtBottom; now destruct (peerId (state x))).
  rewrite M. destruct atTop; [|reflexivity].
  destruct (loadData (localStorage w)) as [d ls] eqn:E.
  assert (Hl : loaded w = messages d) by (unfold loaded; now rewrite E).
  assert (L : loaded (set_storage w ls) = loaded w)
    by (rewrite Hl; now apply loaded_set_storage_load).
  destruct (_ <? _); [|exact L].
  apply holds_loaded, holds_renderMessages.
  eapply holds_storage_irrelevant; [|apply (holds_after_load w)].
  now rewrite E.
Qed.

(** X18. A scroll to the top of the pane, away from its bottom, changes
    no stored message, and the slice shown afterwards is the slice shown
    before with at most one page of older messages put in front of it. *)
Theorem scroll_loads_older (now : Z) (w : World) (p : string) :
  peerId (state w) = Some p ->
  0 <= pageIndex (state w) ->
  let w' := onScroll true false now w in
  loaded w' = loaded w
  /\ exists older,
       vis_slice (fst (getVisibleMessages w')) =
       older ++ vis_slice (fst (getVisibleMessages w))
       /\ Z.of_nat (length older) <= PAGE_SIZE.
Proof.
  intros Hp Hk w'.
  assert (L : loaded w' = loaded w) by apply loaded_onScroll_away.
  split; [exact L|].
  assert (S : peerId (state w') = Some p
              /\ (pageIndex (state w') = pageIndex (state w)
                  \/ pageIndex (state w') = pageIndex (state w) + 1)).
  { unfold w', onScroll. rewrite Hp, state_markAllSeen.
    destruct (loadData (localStorage w)) as [d ls].
    destruct (_ <? _).
    - rewrite state_renderMessages. cbn. auto.
    - cbn. auto. }
  destruct S as [Hp' Hk'].
  rewrite (getVisibleMessages_last_n w p Hp Hk).
  rewrite (getVisibleMessages_last_n w' p Hp') by lia. rewrite L.
  destruct (last_n_extend (Z.to_nat (PAGE_SIZE * (pageIndex (state w) + 1)))
                          (Z.to_nat (PAGE_SIZE * (pageIndex (state w') + 1)))
                          (visible_in (getConversationId p) (loaded w)))
    as (older & Ho & Hlen).
  - unfold PAGE_SIZE. lia.
  - exists older. split; [exact Ho|]. unfold PAGE_SIZE in *. lia.
Qed.

Lemma scroll_loads_older_witness :
  let w := world_with [msg_at "a" 100; msg_at "b" 900] in
  loaded (onScroll true false 950 w) = loaded w.
Proof.
  intros w. apply (scroll_loads_older 950 w "u-1" eq_refl). cbn. lia.
Defined.

(** ** Escaping text for the page *)

Lemma escape_unit_cases (u : Z) :
  (u = 38 /\ escape_unit u = js "&amp;") \/ (u = 60 /\ escape_unit u = js "&lt;")
  \/ (u = 62 /\ escape_unit u = js "&gt;") \/ (u = 34 /\ escape_unit u = js "&quot;")
  \/ (u = 39 /\ escape_unit u = js "&#39;")
  \/ (u <> 38 /\ u <> 60 /\ u <> 62 /\ u <> 34 /\ u <> 39 /\ escape_unit u = [u]).
Proof.
  unfold escape_unit.
  destruct (Z.eqb_spec u 38); [now left|].
  destruct (Z.eqb_spec u 60); [now right; left|].
  destruct (Z.eqb_spec u 62); [now right; right; left|].
  destruct (Z.eqb_spec u 34); [now right; right; right; left|].
  destruct (Z.eqb_spec u 39); [now right; right; right; right; left|].
  now repeat right.
Qed.

Lemma decode_escape_unit (u : Z) (rest : jsstring) :
  decode_references (escape_unit u ++ rest) = u :: decode_references rest.
Proof.
  destruct (escape_unit_cases u)
    as [[-> ->]|[[-> ->]|[[-> ->]|[[-> ->]|[[-> ->]|(H1 & _ & _ & _ & _ & ->)]]]]];
    try reflexivity.
  cbn [app decode_references]. now rewrite (proj2 (Z.eqb_neq u 38) H1).
Qed.

(** X19. The text [escapeHtml] returns contains none of the characters
    less-than, greater-than, double quote and apostrophe, and reading its
    character references back gives the text it was given: two texts are
    never escaped to the same text. A text without the five characters is
    returned as it is. *)
Theorem escapeHtml_safe :
  (forall s, Forall (fun u => u <> 60 /\ u <> 62 /\ u <> 34 /\ u <> 39) (escapeHtml s))
  /\ (forall s, decode_references (escapeHtml s) = s)
  /\ (forall s1 s2, escapeHtml s1 = escapeHtml s2 -> s1 = s2)
  /\ (forall s, Forall (fun u => u <> 38 /\ u <> 60 /\ u <> 62 /\ u <> 34 /\ u <> 39) s ->
                escapeHtml s = s).
Proof.
  assert (D : forall s, decode_references (escapeHtml s) = s).
  { induction s as [|u s IH]; [reflexivity|].
    unfold escapeHtml. cbn [flat_map]. rewrite decode_escape_unit. f_equal. exact IH. }
  split; [|split; [exact D|split]].
  - induction s as [|u s IH]; [constructor|].
    unfold escapeHtml. cbn [flat_map]. apply Forall_app. split; [|exact IH].
    destruct (escape_unit_cases u)
      as [[-> ->]|[[-> ->]|[[-> ->]|[[-> ->]|[[-> ->]|(_ & H2 & H3 & H4 & H5 & ->)]]]]];
      repeat constructor; try discriminate; assumption.
  - intros s1 s2 H. rewrite <- (D s1), <- (D s2). now rewrite H.
  - induction s as [|u s IH]; [reflexivity|].
    intros H. apply List.Forall_cons_iff in H as [(H1 & H2 & H3 & H4 & H5) Hs].
    unfold escapeHtml. cbn [flat_map].
    destruct (escape_unit_cases u)
      as [[E _]|[[E _]|[[E _]|[[E _]|[[E _]|(_ & _ & _ & _ & _ & ->)]]]]];
      try contradiction.
    cbn [app]. f_equal. now apply IH.
Qed.

Lemma escapeHtml_safe_witness :
  escapeHtml (js "<b>Tom & Jerry</b>") = js "&lt;b&gt;Tom &amp; Jerry&lt;/b&gt;"
  /\ decode_references (js "&lt;b&gt;Tom &amp; Jerry&lt;/b&gt;") = js "<b>Tom & Jerry</b>".
Proof.
  split; [reflexivity|].
  exact (proj1 (proj2 escapeHtml_safe) (js "<b>Tom & Jerry</b>")).
Defined.

(** ** The send button *)

Lemma trimStart_blank (s : jsstring) :
  trimStart s = [] <-> forallb is_white_space s = true.
Proof.
  induction s as [|u s IH]; [easy|]. cbn [trimStart forallb].
  destruct (is_white_space u); cbn [andb]; [exact IH|easy].
Qed.

Lemma trimStart_head (s : jsstring) (u : Z) (rest : jsstring) :
  trimStart s = u :: rest -> is_white_space u = false.
Proof.
  induction s as [|v s IH]; [discriminate|]. cbn [trimStart].
  destruct (is_white_space v) eqn:W; [exact IH|]. now intros [= <- _].
Qed.

Lemma trimStart_suffix (s : jsstring) : exists pre, s = pre ++ trimStart s
                                                    /\ forallb is_white_space pre = true.
Proof.
  induction s as [|u s (pre & E & W)]; [now exists []|]. cbn [trimStart].
  destruct (is_white_space u) eqn:Wu.
  - exists (u :: pre). cbn [app forallb]. rewrite Wu, W. split; [now f_equal|reflexivity].
  - now exists [].
Qed.

Lemma forallb_rev {A : Type} (p : A -> bool) (l : list A) :
  forallb p (rev l) = forallb p l.
Proof.
  induction l as [|a l IH]; [reflexivity|]. cbn [rev forallb].
  rewrite forallb_app, IH. cbn. now rewrite andb_true_r, andb_comm.
Qed.

Lemma trim_blank (s : jsstring) : trim s = [] <-> forallb is_white_space s = true.
Proof.
  unfold trim, trimEnd. split.
  - intros H. apply (f_equal (@rev Z)) in H. rewrite rev_involutive in H. cbn in H.
    apply trimStart_blank in H. rewrite forallb_rev in H.
    destruct (trimStart s) as [|u rest] eqn:T; [now apply trimStart_blank|].
    apply trimStart_head in T. cbn [forallb] in H. now rewrite T in H.
  - intros H. apply trimStart_blank in H. now rewrite H.
Qed.

Lemma loaded_setTimeout (j : Job) (w : World) : loaded (snd (setTimeout j w)) = loaded w.
Proof. reflexivity. Qed.

Lemma onSendClick_returned (value : jsstring) (now : Z) (payload : CipherPayload)
  (newId : string) (botNow : Z) (w : World) (p : string) :
  peerId (state w) = Some p -> sending (state w) = false -> trim value <> [] ->
  onSendClick false value now (Returned payload) newId botNow w =
  clear_composer (sendMessage (trim value) now (Returned payload) newId botNow
                              (snd (setTimeout JobPageOnly w))).
Proof.
  intros Hp Hs Ht. unfold onSendClick. cbn [setTimeout snd state]. rewrite Hp, Hs.
  rewrite (bool_decide_eq_false_2 _ Ht). unfold sendMessage.
  now destruct (sendMessage_begin _ _ _) as [w2 [ps|]].
Qed.

(** X20. A click on the send button with an input that is empty or all
    white space stores no message and sends nothing: the input, the state
    and [localStorage] stay as they are. All it does, when the gate was
    open, is close the gate and arm the timer that reopens it. *)
Theorem send_click_blank (gate : bool) (value : jsstring) (now : Z)
  (enc : outcome CipherPayload) (newId : string) (botNow : Z) (w : World) :
  forallb is_white_space value = true ->
  let r := onSendClick gate value now enc newId botNow w in
  clickGate r = true
  /\ inputValue r = value
  /\ state (world r) = state w
  /\ localStorage (world r) = localStorage w
  /\ botTimers (world r) = botTimers w
  /\ timers (world r) = (if gate then timers w else <[nextTimer w := JobPageOnly]> (timers w)).
Proof.
  intros B r. apply trim_blank in B. unfold r, onSendClick.
  destruct gate; [now repeat split|].
  cbn [setTimeout snd state]. rewrite B.
  rewrite bool_decide_eq_true_2 by reflexivity.
  destruct (peerId (state w)); [destruct (sending (state w))|]; now repeat split.
Qed.

Lemma send_click_blank_witness :
  let r := onSendClick false (js "  ") 1000 (Returned sample_payload) "m-1" 1001
                       (world_with [msg_at "a" 100]) in
  inputValue r = js "  " /\ localStorage (world r) = localStorage (world_with [msg_at "a" 100]).
Proof.
  intros r.
  destruct (send_click_blank false (js "  ") 1000 (Returned sample_payload) "m-1" 1001
              (world_with [msg_at "a" 100]) eq_refl) as (_ & H1 & _ & H2 & _).
  split; [exact H1|exact H2].
Defined.

(** X21. A click that gets through, on an input with text, with a
    conversation open and an encryption that succeeds, empties the composer
    and removes the draft of the open conversation. The message stored
    carries the time of the click and is recorded as the last send with the
    trimmed text; when the send is dropped as a duplicate of the last one,
    no message is stored and the composer is emptied all the same. *)
Theorem send_click_clears_composer (value : jsstring) (now : Z) (payload : CipherPayload)
  (newId : string) (botNow : Z) (w : World) (p : string) :
  peerId (state w) = Some p -> sending (state w) = false -> trim value <> [] ->
  let c := getConversationId p in
  let r := onSendClick false value now (Returned payload) newId botNow w in
  inputValue r = []
  /\ drafts (localStorage (world r)) !! c = None
  /\ (duplicate_within_600 (lastSend (state w)) c (trim value) now = true ->
      loaded (world r) = loaded w)
  /\ (duplicate_within_600 (lastSend (state w)) c (trim value) now = false ->
      lastSend (state (world r)) = Some (mkLast c (trim value) now)
      /\ loaded (world r) =
         compact (map Some (loaded w ++ [new_message newId c "me" p payload now sent]))).
Proof.
  intros Hp Hs Ht c r.
  set (w1 := snd (setTimeout JobPageOnly w)).
  set (w2 := sendMessage (trim value) now (Returned payload) newId botNow w1).
  assert (Hr : r = clear_composer w2) by now apply (onSendClick_returned _ _ _ _ _ _ p).
  assert (Hp1 : peerId (state w1) = Some p) by exact Hp.
  assert (Hs1 : sending (state w1) = false) by exact Hs.
  assert (Hp2 : peerId (state w2) = Some p).
  { pose proof (page_sendMessage (trim value) now (Returned payload) newId botNow w1) as P.
    fold w2 in P. unfold page_of in P. congruence. }
  assert (L : loaded (world r) = loaded w2).
  { rewrite Hr. unfold clear_composer. cbn [world]. now apply loaded_stored_eq. }
  split; [now rewrite Hr|]. split; [|split].
  - rewrite Hr. unfold clear_composer. cbn [world localStorage set_storage drafts].
    rewrite Hp2. apply lookup_delete_eq.
  - intros Dup. rewrite L. unfold w2, sendMessage, sendMessage_begin.
    rewrite Hp1, Hs1. fold c. replace (lastSend (state w1)) with (lastSend (state w))
      by reflexivity. now rewrite Dup.
  - intros Dup.
    destruct (sendMessage_accepted w1 p (trim value) now payload newId botNow Hp1 Hs1 Dup)
      as (_ & Hls & Hld). fold w2 c in Hls, Hld.
    split; [rewrite Hr; exact Hls|]. rewrite L. exact Hld.
Qed.

Lemma send_click_clears_composer_witness :
  let w := onInput (js " hi ") (world_with []) in
  let r := onSendClick false (js " hi ") 1000 (Returned sample_payload) "m-1" 1001 w in
  drafts (localStorage w) !! "conv-u-1" = Some (js " hi ")
  /\ inputValue r = []
  /\ drafts (localStorage (world r)) !! "conv-u-1" = None
  /\ lastSend (state (world r)) = Some (mkLast "conv-u-1" (js "hi") 1000).
Proof.
  intros w r. split; [reflexivity|].
  destruct (send_click_clears_composer (js " hi ") 1000 sample_payload "m-1" 1001 w "u-1"
              eq_refl eq_refl) as (H1 & H2 & _ & H4).
  - discriminate.
  - split; [exact H1|]. split; [exact H2|]. exact (proj1 (H4 eq_refl)).
Defined.

(** ** The auto-reply text *)

Lemma starts_with_spec (p s : jsstring) :
  starts_with p s = true <-> exists r, s = p ++ r.
Proof.
  revert s. induction p as [|a p IH]; intros s; cbn [starts_with].
  - split; [intros _; now exists s|reflexivity].
  - destruct s as [|b s].
    + split; [discriminate|intros [r H]; discriminate H].
    + rewrite andb_true_iff, Z.eqb_eq, IH. split.
      * intros [-> [r ->]]. now exists r.
      * intros [r [= -> ->]]. split; [reflexivity|now exists r].
Qed.

Lemma includes_spec (p s : jsstring) :
  includes p s = true <-> exists l r, s = l ++ p ++ r.
Proof.
  induction s as [|b s IH]; cbn [includes]; rewrite orb_true_iff, starts_with_spec.
  - split.
    + intros [[r H]|H]; [|discriminate]. now exists [], r.
    + intros (l & r & H). left. destruct l; [now exists r|discriminate H].
  - rewrite IH. split.
    + intros [[r H]|(l & r & H)]; [now exists [], r|]. exists (b :: l), r. now rewrite H.
    + intros (l & r & H). destruct l as [|x l].
      * left. now exists r.
      * right. injection H as _ H. now exists l, r.
Qed.

Lemma includes_rev (p s : jsstring) : includes (rev p) (rev s) = includes p s.
Proof.
  apply eq_true_iff_eq. rewrite !includes_spec. split.
  - intros (l & r & H). exists (rev r), (rev l).
    apply (f_equal (@rev Z)) in H. rewrite rev_involutive in H.
    rewrite H, !rev_app_distr, rev_involutive. now rewrite app_assoc.
  - intros (l & r & ->). exists (rev r), (rev l).
    rewrite !rev_app_distr. now rewrite app_assoc.
Qed.

Lemma includes_trimStart (a : Z) (p s : jsstring) :
  is_white_space a = false -> includes (a :: p) (trimStart s) = includes (a :: p) s.
Proof.
  intros Wa. induction s as [|u s IH]; [reflexivity|]. cbn [trimStart].
  destruct (is_white_space u) eqn:Wu; [|reflexivity].
  rewrite IH. cbn [includes starts_with].
  destruct (Z.eqb_spec a u) as [->|_]; [congruence|reflexivity].
Qed.

Lemma includes_trim (p s : jsstring) (a z : Z) (p1 p2 : jsstring) :
  p = a :: p1 -> p = p2 ++ [z] -> is_white_space a = false -> is_white_space z = false ->
  includes p (trim s) = includes p s.
Proof.
  intros Ea Ez Wa Wz. unfold trim, trimEnd.
  rewrite <- (includes_rev p), rev_involutive.
  assert (Er : rev p = z :: rev p2) by (rewrite Ez, rev_app_distr; reflexivity).
  rewrite Er, (includes_trimStart z _ _ Wz), <- Er, includes_rev.
  rewrite Ea. now apply includes_trimStart.
Qed.

(** X22. The [trim] in [botReply] never changes its answer: the reply is
    decided by which keywords occur anywhere in the lower-cased text, tested
    in the order hello or hi, how are you, theme, edit, delete, paginate or
    scroll. In particular a text whose lower-cased form contains hi, even
    inside a word, gets the greeting whatever else it contains. *)
Theorem botReply_selection (toLowerCase : jsstring -> jsstring) (text : jsstring) :
  let l := toLowerCase text in
  botReply toLowerCase text =
    (if includes (js "hello") l || includes (js "hi") l then ReplyGreeting
     else if includes (js "how are you") l then ReplyWellbeing
     else if includes (js "theme") l then ReplyTheme
     else if includes (js "edit") l then ReplyEdit
     else if includes (js "delete") l then ReplyDelete
     else if includes (js "paginate") l || includes (js "scroll") l then ReplyScroll
     else ReplyFallback)
  /\ (includes (js "hi") l = true -> botReply toLowerCase text = ReplyGreeting).
Proof.
  intros l.
  assert (H : botReply toLowerCase text =
      (if includes (js "hello") l || includes (js "hi") l then ReplyGreeting
       else if includes (js "how are you") l then ReplyWellbeing
       else if includes (js "theme") l then ReplyTheme
       else if includes (js "edit") l then ReplyEdit
       else if includes (js "delete") l then ReplyDelete
       else if includes (js "paginate") l || includes (js "scroll") l then ReplyScroll
       else ReplyFallback)).
  { unfold botReply. fold l. cbv zeta.
    repeat match goal with
           | |- context [includes (js ?k) (trim l)] =>
               rewrite (includes_trim (js k) l (hd 0 (js k)) (List.last (js k) 0)
                          (tl (js k)) (removelast (js k)) eq_refl eq_refl eq_refl eq_refl)
           end.
    reflexivity. }
  split; [exact H|].
  intros Hi. rewrite H, Hi. now rewrite orb_true_r.
Qed.

Lemma botReply_selection_witness :
  botReply (map ascii_lower) (js "  Delete THIS  ") = ReplyGreeting.
Proof.
  exact (proj2 (botReply_selection (map ascii_lower) (js "  Delete THIS  ")) eq_refl).
Defined.

Lemma ascii_lower_upper (u : Z) : ascii_lower (ascii_upper u) = ascii_lower u.
Proof.
  unfold ascii_lower, ascii_upper.
  destruct (Z.leb_spec 97 u), (Z.leb_spec u 122); cbn [andb];
    repeat match goal with
           | |- context [Z.leb ?a ?b] => destruct (Z.leb_spec a b); cbn [andb]
           end; lia.
Qed.

Lemma ascii_upper_is_ascii (u : Z) : is_ascii u -> is_ascii (ascii_upper u).
Proof.
  unfold is_ascii, ascii_upper.
  destruct (Z.leb_spec 97 u), (Z.leb_spec u 122); cbn [andb]; lia.
Qed.

(** X23. On a text of ASCII characters, where [toLowerCase] turns the
    letters A to Z into a to z and leaves the rest, [botReply] gives the
    text in capitals the reply it gives the text itself. *)
Theorem botReply_ignores_case (toLowerCase : jsstring -> jsstring) (text : jsstring) :
  (forall s, Forall is_ascii s -> toLowerCase s = map ascii_lower s) ->
  Forall is_ascii text ->
  botReply toLowerCase (map ascii_upper text) = botReply toLowerCase text.
Proof.
  intros Hlow Ha. unfold botReply.
  rewrite (Hlow text Ha).
  rewrite Hlow by (apply Forall_map; eapply List.Forall_impl; [|exact Ha];
                   apply ascii_upper_is_ascii).
  rewrite map_map. now rewrite (map_ext _ _ ascii_lower_upper).
Qed.

Lemma botReply_ignores_case_witness :
  botReply (map ascii_lower) (map ascii_upper (js "Scroll up"))
  = botReply (map ascii_lower) (js "Scroll up").
Proof.
  apply botReply_ignores_case; [reflexivity|].
  repeat constructor; unfold is_ascii; cbn; lia.
Defined.

(** ** The undo toast *)

Lemma tick_bounds (now : Z) (t : Toast) :
  lastTick t <= now -> 0 <= remaining t ->
  0 <= remaining (tick now t) <= remaining t
  /\ (removed t = true -> removed (tick now t) = true)
  /\ lastTick t <= lastTick (tick now t) <= now.
Proof.
  intros Hc Hr. unfold tick.
  destruct (removed t) eqn:R; cbn [orb]; [repeat split; auto; lia|].
  destruct (paused t); [repeat split; auto; lia|].
  cbn [remaining]. destruct (Z.leb_spec (Z.max 0 (remaining t - (now - lastTick t))) 0);
    cbn [toast_remove removed remaining lastTick]; repeat split; try discriminate; lia.
Qed.

(** X24. While the clock does not run backwards, the time left on the
    undo toast stays between 0 and what it was, so never above the 6000 ms
    it starts with; a toast that was removed stays removed; and while the
    pointer rests on the toast, animation frames leave the time as it is. *)
Theorem toast_time_bounded (evs : list ToastEvent) (t : Toast) :
  clock_forward (lastTick t) evs -> 0 <= remaining t ->
  0 <= remaining (toast_run evs t) <= remaining t
  /\ (removed t = true -> removed (toast_run evs t) = true)
  /\ (forall now, paused t = true -> tick now t = t).
Proof.
  intros Hc Hr. split; [|split].
  - revert t Hc Hr. induction evs as [|e evs IH]; intros t Hc Hr; [cbn; lia|].
    unfold toast_run. cbn [fold_left]. fold (toast_run evs (toast_step e t)).
    destruct e as [now| |now|]; cbn [clock_forward toast_step] in *.
    + destruct Hc as [Hn Hc]. destruct (tick_bounds now t Hn Hr) as (Hb & _ & Hl).
      assert (Hc' : clock_forward (lastTick (tick now t)) evs).
      { unfold tick in *. destruct (removed t || paused t).
        - clear -Hn Hc. revert Hn Hc. generalize (lastTick t) as a. revert now.
          induction evs as [|e evs IHe]; intros now a Hn Hc; [exact I|].
          destruct e; cbn [clock_forward] in *; try (destruct Hc; split; [lia|assumption]);
            now apply (IHe now).
        - cbn [remaining] in *. destruct (_ <=? 0); exact Hc. }
      specialize (IH (tick now t) Hc' ltac:(lia)). lia.
    + specialize (IH (mkToast (removed t) (remaining t) (lastTick t) true) Hc Hr).
      cbn [remaining] in IH. exact IH.
    + destruct Hc as [Hn Hc].
      specialize (IH (mkToast (removed t) (remaining t) now false) Hc Hr).
      cbn [remaining] in IH. exact IH.
    + specialize (IH (toast_remove t) Hc Hr). cbn [toast_remove remaining] in IH. exact IH.
  - intros R. clear Hc Hr. revert t R. induction evs as [|e evs IH]; intros t R; [exact R|].
    unfold toast_run. cbn [fold_left]. fold (toast_run evs (toast_step e t)).
    apply IH. destruct e; cbn [toast_step removed toast_remove]; auto.
    unfold tick. now rewrite R.
  - intros now P. unfold tick. rewrite P. now rewrite orb_true_r.
Qed.

Lemma toast_time_bounded_witness :
  let t := toast_run [Frame 1016; MouseEnter; Frame 3000; MouseLeave 4000; Frame 4016]
                     (toast_shown 1000) in
  0 <= remaining t <= 6000.
Proof.
  intros t. apply (toast_time_bounded _ (toast_shown 1000)); cbn; lia.
Defined.

Lemma last_cons_default {A : Type} (a d : A) (l : list A) :
  List.last (a :: l) d = List.last l a.
Proof.
  revert a d. induction l as [|b l IH]; intros a d; [reflexivity|].
  change (List.last (a :: b :: l) d) with (List.last (b :: l) d).
  now rewrite (IH b d), (IH b a).
Qed.

Lemma tick_alone (shown last now : Z) (t : Toast) :
  last <= now -> toast_alone shown last t -> toast_alone shown now (tick now t).
Proof.
  intros Hn (P & Hs & Hr & Hrm & Hl). unfold tick, toast_alone.
  destruct (removed t) eqn:R; cbn [orb].
  - symmetry in Hrm. apply Z.leb_le in Hrm. rewrite R.
    repeat apply conj; [assumption|lia|lia| |discriminate].
    symmetry. now apply Z.leb_le.
  - rewrite P. specialize (Hl eq_refl). symmetry in Hrm. apply Z.leb_gt in Hrm.
    cbn [remaining].
    destruct (Z.leb_spec (Z.max 0 (remaining t - (now - lastTick t))) 0) as [Hle|Hgt];
      cbn [toast_remove remaining removed paused lastTick];
      (repeat apply conj; [reflexivity|lia|lia| |]).
    + symmetry. now apply Z.leb_le.
    + discriminate.
    + symmetry. now apply Z.leb_gt.
    + reflexivity.
Qed.

Lemma frames_alone (shown : Z) (times : list Z) (last : Z) (t : Toast) :
  toast_alone shown last t -> clock_forward last (map Frame times) ->
  toast_alone shown (List.last times last) (toast_run (map Frame times) t).
Proof.
  revert last t. induction times as [|now times IH]; intros last t J Hc; [exact J|].
  cbn [map clock_forward] in Hc. destruct Hc as [Hn Hc].
  rewrite last_cons_default. unfold toast_run. cbn [map fold_left].
  apply IH; [|exact Hc]. now apply (tick_alone shown last).
Qed.

(** X25. Left alone, the undo toast lasts 6000 ms: after animation frames
    at times that do not run backwards, the time left is 6000 less the time
    since the toast was shown, or 0 when that is negative, and the toast is
    removed exactly when the last frame came 6000 ms or more after the toast
    was shown. *)
Theorem toast_lasts_six_seconds (shown : Z) (times : list Z) :
  clock_forward shown (map Frame times) ->
  let t := toast_run (map Frame times) (toast_shown shown) in
  let final := List.last times shown in
  remaining t = Z.max 0 (6000 - (final - shown))
  /\ (removed t = true <-> 6000 <= final - shown).
Proof.
  intros Hc t final.
  destruct (frames_alone shown times shown (toast_shown shown)) as (_ & _ & Hr & Hrm & _);
    [|exact Hc|].
  - repeat split; cbn; lia.
  - fold t final in Hr, Hrm. split; [exact Hr|]. rewrite Hrm, Z.leb_le, Hr. lia.
Qed.

Lemma toast_lasts_six_seconds_witness :
  let t := toast_run (map Frame [1016; 4000; 6999]) (toast_shown 1000) in
  let t' := toast_run (map Frame [1016; 4000; 7000]) (toast_shown 1000) in
  remaining t = 1 /\ removed t' = true.
Proof.
  intros t t'. split.
  - exact (proj1 (toast_lasts_six_seconds 1000 [1016; 4000; 6999] ltac:(cbn; lia))).
  - apply (proj2 (toast_lasts_six_seconds 1000 [1016; 4000; 7000] ltac:(cbn; lia))).
    cbn. lia.
Defined.

(** ** Which record of an id survives *)

Lemma Map_get_set {K V : Type} `{EqDecision K} (k k' : K) (v : V) (m : JsMap K V) :
  Map_get k (Map_set k' v m) = if decide (k' = k) then Some v else Map_get k m.
Proof.
  induction m as [|[k0 v0] m IH]; cbn [Map_set Map_get].
  - reflexivity.
  - destruct (decide (k0 = k')) as [->|Hne]; cbn [Map_get].
    + now destruct (decide (k' = k)).
    + destruct (decide (k0 = k)) as [->|Hk].
      * destruct (decide (k' = k)); [congruence|reflexivity].
      * exact IH.
Qed.

Lemma find_app {A : Type} (p : A -> bool) (l1 l2 : list A) :
  List.find p (l1 ++ l2) =
  match List.find p l1 with Some x => Some x | None => List.find p l2 end.
Proof.
  induction l1 as [|a l1 IH]; [reflexivity|]. cbn [app find].
  now destruct (p a).
Qed.

Lemma Map_get_byId_step (k : string) (acc : JsMap string Message) (e : entry) :
  truthy (Some k) = true ->
  Map_get k (byId_step acc e) =
  if entry_has_id k e then e else Map_get k acc.
Proof.
  intros Hk. destruct e as [m|]; [|reflexivity]. cbn [byId_step entry_has_id].
  unfold has_id. destruct (id m) as [k0|] eqn:I.
  - destruct (truthy (Some k0)) eqn:T.
    + rewrite Map_get_set. destruct (decide (k0 = k)) as [->|Hne].
      * now rewrite bool_decide_eq_true_2.
      * rewrite bool_decide_eq_false_2; [reflexivity|congruence].
    + rewrite bool_decide_eq_false_2; [reflexivity|].
      intros [= ->]. congruence.
  - now rewrite bool_decide_eq_false_2.
Qed.

Lemma Map_get_byId_fold (k : string) (l : list entry) (acc : JsMap string Message) :
  truthy (Some k) = true ->
  Map_get k (fold_left byId_step l acc) =
  match List.find (entry_has_id k) (rev l) with
  | Some e => e
  | None => Map_get k acc
  end.
Proof.
  intros Hk. revert acc. induction l as [|e l IH]; intros acc; [reflexivity|].
  cbn [fold_left rev]. rewrite IH, find_app. cbn [find].
  destruct (List.find (entry_has_id k) (rev l)); [reflexivity|].
  rewrite (Map_get_byId_step k acc e Hk). now destruct (entry_has_id k e).
Qed.

Lemma find_values_get (k : string) (acc : JsMap string Message) :
  Forall (fun p => the_id (snd p) = fst p /\ truthy (id (snd p)) = true) acc ->
  find_by_id k (Map_values acc) = Map_get k acc.
Proof.
  unfold find_by_id, Map_values.
  induction acc as [|[k0 v] acc IH]; [reflexivity|].
  intros H. apply List.Forall_cons_iff in H as [[Hid Ht] H]. cbn [map snd find Map_get fst] in *.
  apply truthy_the_id in Ht. unfold has_id. rewrite Ht, Hid.
  destruct (decide (k0 = k)) as [->|Hne].
  - now rewrite bool_decide_eq_true_2.
  - rewrite bool_decide_eq_false_2 by congruence. now apply IH.
Qed.

(** X26. Of the records of one id in a stored array, the identity merge
    keeps the last: looking an id up after the merge gives the last entry of
    the array that carries it. An entry without an id, or with the empty id,
    is never found. *)
Theorem identity_merge_last_wins (S : list entry) (k : string) :
  (truthy (Some k) = true ->
   option_map Some (find_by_id k (identity_merge S))
   = List.find (entry_has_id k) (rev S))
  /\ (truthy (Some k) = false -> find_by_id k (identity_merge S) = None).
Proof.
  destruct (identity_merge_inv S) as [_ Hinv].
  assert (Hv : find_by_id k (identity_merge S) = Map_get k (fold_left byId_step S [])).
  { unfold identity_merge. apply find_values_get.
    eapply List.Forall_impl; [|exact Hinv]. cbn. tauto. }
  split.
  - intros Hk. rewrite Hv, (Map_get_byId_fold k S [] Hk). cbn [Map_get].
    destruct (List.find (entry_has_id k) (rev S)) as [[m|]|] eqn:F; try reflexivity.
    apply find_some in F as [_ F]. discriminate F.
  - intros Hk. destruct (find_by_id k (identity_merge S)) as [m|] eqn:F; [|reflexivity].
    apply find_by_id_Some in F as [Hin Hid].
    apply identity_merge_In in Hin as [_ Ht]. rewrite Hid in Ht. congruence.
Qed.

Lemma identity_merge_last_wins_witness :
  find_by_id "a" (identity_merge [Some (msg_at "a" 100); Some (msg_at "b" 400);
                                  Some (with_status seen (msg_at "a" 100))])
  = Some (with_status seen (msg_at "a" 100)).
Proof.
  pose proof (proj1 (identity_merge_last_wins
                       [Some (msg_at "a" 100); Some (msg_at "b" 400);
                        Some (with_status seen (msg_at "a" 100))] "a") eq_refl) as H.
  cbn [rev app find entry_has_id] in H.
  destruct (find_by_id "a" _) as [m|]; [|discriminate H].
  injection H as ->. reflexivity.
Defined.

(** ** Conversations do not touch each other *)

Lemma getConversationId_inj (p q : string) :
  getConversationId p = getConversationId q -> p = q.
Proof. unfold getConversationId. cbn. intros H. now injection H. Qed.

Lemma filter_sort_insert (p : Message -> bool) (a : Message) (l : list Message) :
  Sorted createdAt_le l ->
  List.filter p (sort_insert a l) =
  if p a then sort_insert a (List.filter p l) else List.filter p l.
Proof.
  intros S. apply Sorted_StronglySorted in S; [|apply createdAt_le_trans].
  induction S as [|b l S IH Hb]; cbn [sort_insert List.filter].
  - now destruct (p a).
  - destruct (Z.leb_spec (or0 (createdAt a)) (or0 (createdAt b))) as [Hab|Hab].
    + cbn [List.filter]. destruct (p a) eqn:Pa; [|reflexivity].
      destruct (p b) eqn:Pb.
      * cbn [sort_insert]. now rewrite (proj2 (Z.leb_le _ _) Hab).
      * destruct (List.filter p l) as [|c l'] eqn:F; [reflexivity|].
        cbn [sort_insert].
        assert (Hc : In c l).
        { assert (In c (List.filter p l)) by (rewrite F; now left).
          now apply filter_In in H as [H _]. }
        rewrite List.Forall_forall in Hb. specialize (Hb c Hc). unfold createdAt_le in Hb.
        now rewrite (proj2 (Z.leb_le _ _)) by lia.
    + cbn [List.filter]. rewrite IH. destruct (p b) eqn:Pb, (p a) eqn:Pa; try reflexivity.
      cbn [sort_insert]. now rewrite (proj2 (Z.leb_gt _ _) Hab).
Qed.

Lemma filter_sort (p : Message -> bool) (l : list Message) :
  List.filter p (sort_by_createdAt l) = sort_by_createdAt (List.filter p l).
Proof.
  induction l as [|a l IH]; [reflexivity|]. cbn [sort_by_createdAt List.filter].
  rewrite filter_sort_insert by apply sort_sorted. rewrite IH.
  now destruct (p a).
Qed.

Lemma visible_in_append_other (c' : string) (l : list Message) (msg : Message) :
  compacted l -> truthy (id msg) = true ->
  ~ In (the_id msg) (map the_id l) -> ~ In (fingerprint msg) (map fingerprint l) ->
  convId msg <> Some c' ->
  visible_in c' (compact (map Some (l ++ [msg]))) = visible_in c' l.
Proof.
  intros C Hid Hnew Hfp Hc. destruct C as [Htr Hids Hfps Hs].
  rewrite compact_clean.
  - unfold visible_in. rewrite filter_sort, List.filter_app. cbn [List.filter].
    unfold in_conversation at 2. rewrite (bool_decide_eq_false_2 _ Hc). cbn [andb].
    rewrite app_nil_r. now apply sort_sorted_id, Sorted_filter_createdAt.
  - apply Forall_app. split; [assumption | repeat constructor; exact Hid].
  - rewrite map_app. apply List.NoDup_app; [assumption | repeat constructor; simpl; tauto |].
    intros a Ha [<-|[]]. contradiction.
  - rewrite map_app. apply List.NoDup_app; [assumption | repeat constructor; simpl; tauto |].
    intros a Ha [<-|[]]. contradiction.
Qed.

Lemma append_stays_last (l : list Message) (msg : Message) :
  compacted l -> truthy (id msg) = true ->
  ~ In (the_id msg) (map the_id l) -> ~ In (fingerprint msg) (map fingerprint l) ->
  Forall (fun m => createdAt_le m msg) l ->
  compact (map Some (l ++ [msg])) = l ++ [msg].
Proof.
  intros C Hid Hnew Hfp Hle. destruct C as [Htr Hids Hfps Hs].
  apply compact_fix. constructor.
  - apply Forall_app. split; [assumption | repeat constructor; exact Hid].
  - rewrite map_app. apply List.NoDup_app; [assumption | repeat constructor; simpl; tauto |].
    intros a Ha [<-|[]]. contradiction.
  - rewrite map_app. apply List.NoDup_app; [assumption | repeat constructor; simpl; tauto |].
    intros a Ha [<-|[]]. contradiction.
  - clear -Hs Hle. induction l as [|a l IH]; [repeat constructor|].
    apply List.Forall_cons_iff in Hle as [Ha Hle]. inversion Hs as [|? ? Hs' Hhd]; subst.
    cbn [app]. constructor; [now apply IH|].
    destruct l as [|b l]; cbn [app]; constructor; [exact Ha|].
    now inversion Hhd.
Qed.

(** X27. Conversation ids of different peers differ, and what happens in
    the open conversation leaves the others as they are: an accepted send,
    and a marking as seen, change the visible messages of no other
    conversation. A message sent when no stored message is dated after it
    goes to the end of the store. *)
Theorem conversations_are_separate (w : World) (p : string) :
  peerId (state w) = Some p ->
  (forall q, q <> p -> getConversationId q <> getConversationId p)
  /\ (forall q now, q <> p ->
        visible_in (getConversationId q) (loaded (markAllSeenIfAtBottom true now w))
        = visible_in (getConversationId q) (loaded w))
  /\ (forall text now payload newId botNow,
        sending (state w) = false ->
        duplicate_within_600 (lastSend (state w)) (getConversationId p) text now = false ->
        let msg := new_message newId (getConversationId p) "me" p payload now sent in
        truthy (Some newId) = true ->
        find_by_id newId (loaded w) = None ->
        ~ In (fingerprint msg) (map fingerprint (loaded w)) ->
        let w1 := sendMessage text now (Returned payload) newId botNow w in
        (forall q, q <> p ->
           visible_in (getConversationId q) (loaded w1)
           = visible_in (getConversationId q) (loaded w))
        /\ (Forall (fun m => or0 (createdAt m) <= now) (loaded w) ->
            loaded w1 = loaded w ++ [msg])).
Proof.
  intros Hp.
  assert (Hinj : forall q, q <> p -> getConversationId q <> getConversationId p).
  { intros q Hq E. now apply Hq, getConversationId_inj. }
  split; [exact Hinj|]. split.
  - intros q now Hq. rewrite (loaded_markAllSeen_open now w p Hp).
    unfold visible_in. induction (loaded w) as [|m l IH]; [reflexivity|].
    cbn [map List.filter]. rewrite IH.
    assert (E : in_conversation (getConversationId q) m = true -> mark_seen (getConversationId p) now m = m).
    { intros Hc. unfold mark_seen, unseen_target.
      unfold in_conversation in *. apply bool_decide_eq_true in Hc.
      rewrite bool_decide_eq_false_2; [reflexivity|].
      rewrite Hc. intros [= E]. now apply (Hinj q Hq). }
    destruct (in_conversation (getConversationId q) m) eqn:Hc.
    + rewrite (E eq_refl), Hc. reflexivity.
    + assert (Hc' : in_conversation (getConversationId q) (mark_seen (getConversationId p) now m) = false).
      { unfold mark_seen. now destruct (_ && _). }
      now rewrite Hc'.
  - intros text now payload newId botNow Hs Hd msg Hid Hfresh Hfp w1.
    pose proof (loaded_compacted w) as C.
    destruct (sendMessage_accepted w p text now payload newId botNow Hp Hs Hd)
      as (_ & _ & Hld). fold w1 msg in Hld.
    assert (Hnew : ~ In (the_id msg) (map the_id (loaded w)))
      by (apply (the_id_fresh newId); auto).
    split.
    + intros q Hq. rewrite Hld. apply visible_in_append_other; auto.
      cbn. intros [= E]. symmetry in E. now apply (Hinj q Hq).
    + intros Hle. rewrite Hld. apply append_stays_last; auto.
Qed.

Lemma conversations_are_separate_witness :
  let w := world_with [new_message "r" "conv-u-2" "u-2" "me" sample_payload 100 delivered] in
  visible_in "conv-u-2" (loaded (markAllSeenIfAtBottom true 500 w))
  = visible_in "conv-u-2" (loaded w)
  /\ getConversationId "u-2" <> getConversationId "u-1".
Proof.
  intros w.
  destruct (conversations_are_separate w "u-1" eq_refl) as (H1 & H2 & _).
  split; [apply (H2 "u-2" 500); discriminate|apply H1; discriminate].
Defined.

(** ** What a fingerprint tells apart *)

Lemma chars_app (s1 s2 : string) :
  list_ascii_of_string (String.append s1 s2)
  = list_ascii_of_string s1 ++ list_ascii_of_string s2.
Proof.
  induction s1 as [|a s1 IH]; [reflexivity|].
  change (list_ascii_of_string (String.append (String a s1) s2))
    with (a :: list_ascii_of_string (String.append s1 s2)).
  now rewrite IH.
Qed.

Lemma chars_inj (s1 s2 : string) :
  list_ascii_of_string s1 = list_ascii_of_string s2 -> s1 = s2.
Proof.
  intros H. rewrite <- (string_of_list_ascii_of_string s1),
                    <- (string_of_list_ascii_of_string s2). now rewrite H.
Qed.

Lemma split_first {A : Type} (c : A) (X X' R R' : list A) :
  ~ In c X -> ~ In c X' -> X ++ c :: R = X' ++ c :: R' -> X = X' /\ R = R'.
Proof.
  revert X'. induction X as [|a X IH]; intros [|a' X'] HX HX' E; cbn [app] in E.
  - now injection E.
  - injection E as <- _. exfalso. apply HX'. now left.
  - injection E as -> _. exfalso. apply HX. now left.
  - injection E as <- E. destruct (IH X') as [-> ->]; auto.
    + intros H. apply HX. now right.
    + intros H. apply HX'. now right.
Qed.

Lemma split_last {A : Type} (c : A) (X X' Y Y' : list A) :
  ~ In c Y -> ~ In c Y' -> X ++ c :: Y = X' ++ c :: Y' -> X = X' /\ Y = Y'.
Proof.
  intros HY HY' E. apply (f_equal (@rev A)) in E.
  rewrite !rev_app_distr in E. cbn [rev] in E. rewrite <- !app_assoc in E. cbn [app] in E.
  apply split_first in E as [E1 E2]; try (rewrite <- in_rev; assumption).
  apply (f_equal (@rev A)) in E1, E2. rewrite !rev_involutive in E1, E2. auto.
Qed.

Lemma uint_chars (d : Decimal.uint) (a : ascii) :
  In a (list_ascii_of_string (NilEmpty.string_of_uint d)) ->
  In a (list_ascii_of_string "0123456789").
Proof.
  induction d; cbn [NilEmpty.string_of_uint list_ascii_of_string]; [intros []|..];
    (intros [<-|H]; [cbn; tauto|now apply IHd]).
Qed.

Lemma show_Z_chars (n : Z) (a : ascii) :
  In a (list_ascii_of_string (show_Z n)) ->
  In a (list_ascii_of_string "-0123456789").
Proof.
  unfold show_Z. destruct (Z.to_int n) as [d|d]; cbn [NilZero.string_of_int].
  - intros H. right. revert H. unfold NilZero.string_of_uint.
    destruct d; try apply uint_chars. cbn. tauto.
  - cbn [list_ascii_of_string]. intros [<-|H]; [now left|]. right. revert H.
    unfold NilZero.string_of_uint. destruct d; try apply uint_chars. cbn. tauto.
Qed.

Lemma show_Z_nonempty (n : Z) : list_ascii_of_string (show_Z n) <> [].
Proof.
  unfold show_Z. destruct (Z.to_int n) as [d|d]; cbn [NilZero.string_of_int];
    [|discriminate].
  unfold NilZero.string_of_uint. destruct d; discriminate.
Qed.

Lemma show_Z_inj (a b : Z) : show_Z a = show_Z b -> a = b.
Proof.
  unfold show_Z. intros H.
  assert (N : forall n, Z.to_int n <> Decimal.Pos Decimal.Nil
                        /\ Z.to_int n <> Decimal.Neg Decimal.Nil).
  { intros n. split; intros E; pose proof (DecimalZ.of_to n) as O; rewrite E in O;
      cbn in O; subst n; discriminate E. }
  apply (f_equal NilZero.int_of_string) in H.
  rewrite !NilZero.isi in H by apply N.
  injection H as H. apply (f_equal Z.of_int) in H. now rewrite !DecimalZ.of_to in H.
Qed.

Lemma join_cons2 (sep x y : string) (xs : list string) :
  join sep (x :: y :: xs) = String.append x (String.append sep (join sep (y :: xs))).
Proof. reflexivity. Qed.

Lemma join_numbers_chars (l : list Z) (a : ascii) :
  In a (list_ascii_of_string (join "," (map show_Z l))) ->
  In a (list_ascii_of_string ",-0123456789").
Proof.
  induction l as [|x [|y l] IH].
  - intros [].
  - cbn [map join String.concat]. intros H. right. now apply (show_Z_chars x).
  - change (map show_Z (x :: y :: l)) with (show_Z x :: show_Z y :: map show_Z l).
    rewrite join_cons2, !chars_app. intros H.
    apply in_app_or in H as [H|H]; [right; now apply (show_Z_chars x)|].
    apply in_app_or in H as [H|H]; [cbn in H; destruct H as [<-|[]]; now left|].
    now apply IH.
Qed.

Lemma join_numbers_inj (l1 l2 : list Z) :
  join "," (map show_Z l1) = join "," (map show_Z l2) -> l1 = l2.
Proof.
  assert (Comma : forall n, ~ In ","%char (list_ascii_of_string (show_Z n))).
  { intros n H. apply show_Z_chars in H. cbn in H.
    repeat (destruct H as [H|H]; [discriminate H|]). exact H. }
  assert (Start : forall x l, list_ascii_of_string (join "," (map show_Z (x :: l))) <> []).
  { intros x [|y l].
    - apply show_Z_nonempty.
    - change (map show_Z (x :: y :: l)) with (show_Z x :: show_Z y :: map show_Z l).
      rewrite join_cons2, chars_app. intros H. apply app_eq_nil in H as [H _].
      now apply show_Z_nonempty in H. }
  revert l2. induction l1 as [|x l1 IH]; intros [|y l2] E.
  - reflexivity.
  - exfalso. apply (Start y l2). now rewrite <- E.
  - exfalso. apply (Start x l1). now rewrite E.
  - destruct l1 as [|x' l1], l2 as [|y' l2].
    + cbn in E. f_equal. now apply show_Z_inj.
    + exfalso. apply (Comma x).
      change (map show_Z [x]) with [show_Z x] in E. cbn [join String.concat] in E.
      rewrite E. change (map show_Z (y :: y' :: l2))
        with (show_Z y :: show_Z y' :: map show_Z l2).
      rewrite join_cons2, !chars_app. apply in_or_app. right. apply in_or_app. left.
      now left.
    + exfalso. apply (Comma y).
      change (map show_Z [y]) with [show_Z y] in E. cbn [join String.concat] in E.
      rewrite <- E. change (map show_Z (x :: x' :: l1))
        with (show_Z x :: show_Z x' :: map show_Z l1).
      rewrite join_cons2, !chars_app. apply in_or_app. right. apply in_or_app. left.
      now left.
    + change (map show_Z (x :: x' :: l1))
        with (show_Z x :: show_Z x' :: map show_Z l1) in E.
      change (map show_Z (y :: y' :: l2))
        with (show_Z y :: show_Z y' :: map show_Z l2) in E.
      rewrite !join_cons2 in E. apply (f_equal list_ascii_of_string) in E.
      rewrite !chars_app in E. cbn [list_ascii_of_string app] in E.
      apply split_first in E as [E1 E2]; try apply Comma.
      apply chars_inj, show_Z_inj in E1. apply chars_inj in E2.
      f_equal; [exact E1|]. now apply IH.
Qed.

Lemma fingerprint_chars (m : Message) :
  list_ascii_of_string (fingerprint m) =
  ((list_ascii_of_string (join "|" [join_elem (convId m); join_elem (from m);
                                     join_elem (to m)])
    ++ "|"%char :: list_ascii_of_string (show_Z (bucket m)))
   ++ "|"%char :: list_ascii_of_string (ivStr m))
  ++ "|"%char :: list_ascii_of_string (dataStr m).
Proof.
  unfold fingerprint. rewrite !join_cons2. cbn [join String.concat].
  rewrite !chars_app. cbn [list_ascii_of_string app].
  repeat (rewrite <- app_assoc; cbn [app]). reflexivity.
Qed.

(** X28. Two messages have the same fingerprint only when they have the
    same nonce, the same first 24 bytes of ciphertext and the same 200 ms
    bucket: a message whose nonce no stored message has is never collapsed
    into another by the fingerprint merge. *)
Theorem fingerprint_collision_needs (m1 m2 : Message) :
  fingerprint m1 = fingerprint m2 ->
  nonce_bytes m1 = nonce_bytes m2
  /\ firstn 24 (ciphertext_bytes m1) = firstn 24 (ciphertext_bytes m2)
  /\ bucket m1 = bucket m2
  /\ forall l, Forall (fun m => nonce_bytes m <> nonce_bytes m1) l ->
               ~ In (fingerprint m1) (map fingerprint l).
Proof.
  assert (Bar : forall l, ~ In "|"%char (list_ascii_of_string (join "," (map show_Z l)))).
  { intros l H. apply join_numbers_chars in H. cbn in H.
    repeat (destruct H as [H|H]; [discriminate H|]). exact H. }
  assert (BarZ : forall n, ~ In "|"%char (list_ascii_of_string (show_Z n))).
  { intros n H. apply show_Z_chars in H. cbn in H.
    repeat (destruct H as [H|H]; [discriminate H|]). exact H. }
  assert (Key : forall a b, fingerprint a = fingerprint b ->
            nonce_bytes a = nonce_bytes b
            /\ firstn 24 (ciphertext_bytes a) = firstn 24 (ciphertext_bytes b)
            /\ bucket a = bucket b).
  { intros a b E. apply (f_equal list_ascii_of_string) in E.
    rewrite !fingerprint_chars in E.
    apply split_last in E as [E Ed];
      try (rewrite dataStr_prefix; apply Bar).
    apply split_last in E as [E Ei]; try (rewrite ivStr_nonce; apply Bar).
    apply split_last in E as [_ Eb]; try apply BarZ.
    apply chars_inj in Ed, Ei, Eb.
    rewrite !ivStr_nonce in Ei. rewrite !dataStr_prefix in Ed.
    split; [now apply join_numbers_inj|]. split; [now apply join_numbers_inj|].
    now apply show_Z_inj. }
  intros E. destruct (Key m1 m2 E) as (H1 & H2 & H3).
  split; [exact H1|]. split; [exact H2|]. split; [exact H3|].
  intros l Hl Hin. apply in_map_iff in Hin as [m [Em Hm]].
  rewrite List.Forall_forall in Hl. apply (Hl m Hm). now apply Key.
Qed.

Lemma fingerprint_collision_needs_witness :
  nonce_bytes (msg_at "a" 100) = nonce_bytes (msg_at "b" 250)
  /\ bucket (msg_at "a" 100) = bucket (msg_at "b" 250).
Proof.
  destruct (fingerprint_collision_needs (msg_at "a" 100) (msg_at "b" 250) eq_refl)
    as (H1 & _ & H3 & _).
  split; [exact H1|exact H3].
Defined.

(** ** The typing indicator *)

Lemma typing_single_step (w w' : World) :
  no_new_typing w w' -> typing_single w -> typing_single w'.
Proof. intros [H1 H2] S t Ht. rewrite H2. now apply S, H1. Qed.

Lemma no_new_typing_trans (w1 w2 w3 : World) :
  no_new_typing w1 w2 -> no_new_typing w2 w3 -> no_new_typing w1 w3.
Proof. intros [A1 A2] [B1 B2]. split; [auto|congruence]. Qed.

Lemma no_new_typing_view (w w' : World) :
  timer_view w' = timer_view w -> no_new_typing w w'.
Proof.
  unfold timer_view. intros V.
  assert (Ht : timers w' = timers w) by congruence.
  assert (Hy : typingTimer (state w') = typingTimer (state w)) by congruence.
  split; [now rewrite Ht|exact Hy].
Qed.

Lemma no_new_typing_setTimeout (j : Job) (w : World) :
  j <> JobTypingOff -> no_new_typing w (snd (setTimeout j w)).
Proof.
  intros Hj. split; [|reflexivity]. cbn [setTimeout snd timers]. intros t Ht.
  destruct (decide (nextTimer w = t)) as [<-|Hne].
  - rewrite lookup_insert_eq in Ht. congruence.
  - now rewrite lookup_insert_ne in Ht.
Qed.

Lemma no_new_typing_clearTimeout (tid : positive) (w : World) :
  no_new_typing w (clearTimeout tid w).
Proof.
  split; [|reflexivity]. cbn [clearTimeout timers]. intros t Ht.
  now apply lookup_delete_Some in Ht as [_ Ht].
Qed.

Lemma no_new_typing_simulateBotResponse (userText : jsstring) (c peer : string) (now : Z)
  (w : World) :
  no_new_typing w (simulateBotResponse userText c peer now w).
Proof.
  destruct (duplicate_within_600 (lastBot (state w)) c userText now) eqn:Dup.
  - unfold simulateBotResponse. rewrite Dup. now split.
  - destruct (simulateBotResponse_timers userText c peer now w Dup) as (_ & T & _ & Y).
    split; [|exact Y]. rewrite T. intros t Ht.
    destruct (decide (nextTimer w = t)) as [<-|Hne].
    + rewrite lookup_insert_eq in Ht. discriminate.
    + rewrite lookup_insert_ne in Ht by assumption.
      destruct (botTimers w !! c); [|exact Ht].
      now apply lookup_delete_Some in Ht as [_ Ht].
Qed.

Lemma no_new_typing_set_state (w : World) (st : State) :
  typingTimer st = typingTimer (state w) -> no_new_typing w (set_state w st).
Proof. intros H. now split. Qed.

Lemma no_new_typing_sendMessage (text : jsstring) (now : Z) (enc : outcome CipherPayload)
  (newId : string) (botNow : Z) (w : World) :
  no_new_typing w (sendMessage text now enc newId botNow w).
Proof.
  assert (Refl : forall x, no_new_typing x x) by now split.
  unfold sendMessage, sendMessage_begin.
  destruct (peerId (state w)) as [p|]; [|apply Refl].
  destruct (sending (state w)); [apply Refl|].
  destruct (duplicate_within_600 _ _ _ _); [apply Refl|].
  cbn [localStorage set_state]. destruct (loadData (localStorage w)) as [d ls].
  unfold sendMessage_resume. destruct enc as [payload|].
  - eapply no_new_typing_trans; [|apply no_new_typing_set_state; reflexivity].
    eapply no_new_typing_trans; [|apply no_new_typing_simulateBotResponse].
    eapply no_new_typing_trans; [|apply no_new_typing_setTimeout; discriminate].
    apply no_new_typing_view. now rewrite view_renderMessages.
  - now split.
Qed.

Lemma no_new_typing_fire (tid : positive) (enc : outcome CipherPayload) (newId : string)
  (now : Z) (nearBottom : bool) (w : World) :
  no_new_typing w (fire tid enc newId now nearBottom w).
Proof.
  unfold fire. destruct (timers w !! tid) as [j|]; [|now split].
  destruct j as [k s | u c peer | | ]; try apply no_new_typing_clearTimeout.
  - eapply no_new_typing_trans; [apply (no_new_typing_clearTimeout tid)|].
    apply no_new_typing_view, view_updateStatus.
  - eapply no_new_typing_trans; [apply (no_new_typing_clearTimeout tid)|].
    generalize (clearTimeout tid w). intros w1. unfold botReply_callback.
    cbn [localStorage set_botTimers]. destruct (loadData (localStorage w1)) as [d ls].
    destruct enc as [payload|]; [|now split].
    cbn [state set_storage set_botTimers].
    destruct (peerId (state w1)) as [p|]; [|now split].
    destruct (bool_decide _); [|now split].
    match goal with
    | |- no_new_typing _ (markAllSeenIfAtBottom _ _ (renderMessages ?x)) =>
        pose proof (view_markAllSeen nearBottom now (renderMessages x)) as V;
        rewrite view_renderMessages in V
    end.
    unfold timer_view in V.
    match type of V with
    | (_, timers ?X, _, _) = _ => set (x := X) in *
    end.
    assert (Ht : timers x = timers w1)
      by (apply (f_equal (fun q => snd (fst (fst q)))) in V; exact V).
    assert (Hy : typingTimer (state x) = typingTimer (state w1))
      by (apply (f_equal snd) in V; exact V).
    split; [now rewrite Ht|exact Hy].
Qed.

Lemma no_new_typing_run_op (o : Op) (w : World) : no_new_typing w (run_op o w).
Proof.
  destruct o.
  - apply no_new_typing_view, view_updateStatus.
  - apply no_new_typing_view, view_markAllSeen.
  - apply no_new_typing_sendMessage.
  - apply no_new_typing_view, view_edit.
  - apply no_new_typing_view, view_onDeleteMessage.
  - apply no_new_typing_view, view_undoDelete.
Qed.

Lemma onInput_timers (value : jsstring) (w : World) :
  typingTimer (state (onInput value w)) = Some (nextTimer w)
  /\ timers (onInput value w) =
     <[nextTimer w := JobTypingOff]>
       (match typingTimer (state w) with
        | Some t => delete t (timers w)
        | None => timers w
        end).
Proof.
  unfold onInput. cbn [state set_storage]. now destruct (typingTimer (state w)).
Qed.

Lemma typing_single_handle (e : Event) (w : World) :
  typing_single w -> typing_single (handle e w).
Proof.
  intros S. destruct e; cbn [handle].
  - eapply typing_single_step; [apply no_new_typing_run_op|exact S].
  - eapply typing_single_step; [apply no_new_typing_simulateBotResponse|exact S].
  - eapply typing_single_step; [apply no_new_typing_fire|exact S].
  - destruct (onInput_timers value w) as [Hy Ht]. intros t. rewrite Hy, Ht.
    destruct (decide (nextTimer w = t)) as [<-|Hne]; [reflexivity|].
    rewrite lookup_insert_ne by assumption. intros H. exfalso.
    destruct (typingTimer (state w)) as [t0|] eqn:Y.
    + apply lookup_delete_Some in H as [Hne0 H]. apply S in H. congruence.
    + apply S in H. congruence.
  - eapply typing_single_step; [|exact S]. apply no_new_typing_view.
    unfold switchConversation, updateSidebarPreviews.
    now rewrite view_markAllSeen, view_renderMessages.
  - eapply typing_single_step; [|exact S]. now apply no_new_typing_view.
  - eapply typing_single_step; [|exact S]. apply no_new_typing_view. unfold onScroll.
    destruct (peerId (state w)); [|reflexivity]. rewrite view_markAllSeen.
    destruct atTop; [|reflexivity]. destruct (loadData (localStorage w)) as [d ls].
    destruct (_ <? _); [now rewrite view_renderMessages | reflexivity].
  - eapply typing_single_step; [apply no_new_typing_setTimeout; discriminate|exact S].
  - eapply typing_single_step; [|exact S]. now apply no_new_typing_view.
Qed.

(** X29. In every state the page can reach, at most one timer that hides
    the typing indicator is pending. Each input clears the pending one and
    arms a new one, which is then the only one, and stores the text as the
    draft of the conversation. *)
Theorem typing_timer_single (w : World) :
  reachable w ->
  (forall t1 t2, timers w !! t1 = Some JobTypingOff ->
                 timers w !! t2 = Some JobTypingOff -> t1 = t2)
  /\ (forall value,
        let w' := onInput value w in
        let c := getConversationId (match peerId (state w) with
                                    | Some p => p | None => "null" end) in
        typingTimer (state w') = Some (nextTimer w)
        /\ timers w' !! nextTimer w = Some JobTypingOff
        /\ (forall t, timers w' !! t = Some JobTypingOff -> t = nextTimer w)
        /\ drafts (localStorage w') !! c = Some value).
Proof.
  intros R.
  assert (S : typing_single w).
  { induction R as [ls|e w R IH]; [intros t Ht; cbn in Ht; discriminate|].
    now apply typing_single_handle. }
  split.
  - intros t1 t2 H1 H2. apply S in H1, H2. congruence.
  - intros value w' c.
    pose proof (typing_single_handle (EvInput value) w S) as S'. cbn [handle] in S'.
    destruct (onInput_timers value w) as [Hy Ht]. fold w' in Hy, Ht, S'.
    split; [exact Hy|]. split; [rewrite Ht; apply lookup_insert_eq|]. split.
    + intros t H. apply S' in H. congruence.
    + unfold w', onInput. cbn [state set_storage]. fold c.
      destruct (typingTimer (state w)); cbn [setTimeout clearTimeout localStorage set_state];
        apply lookup_insert_eq.
Qed.

Lemma typing_timer_single_witness :
  let w := handle (EvInput (js "h"))
             (handle (EvSwitch "u-1" true 900) (initial_world (mkStorage None ∅ ∅))) in
  let w' := onInput (js "hi") w in
  timers w !! 1%positive = Some JobTypingOff
  /\ timers w' !! 1%positive = None
  /\ timers w' !! 2%positive = Some JobTypingOff
  /\ drafts (localStorage w') !! "conv-u-1" = Some (js "hi").
Proof.
  intros w w'. split; [reflexivity|]. split; [reflexivity|].
  assert (R : reachable w) by (apply reachable_handle, reachable_handle, reachable_initial).
  destruct (typing_timer_single w R) as [_ H].
  destruct (H (js "hi")) as (_ & H2 & _ & H4).
  split; [exact H2|exact H4].
Defined.

(** ** The first run *)

Lemma seed_fingerprints_differ (id1 id2 : string) (c1 c2 : CipherPayload)
  (now1 now2 now3 : Z) :
  fingerprint (seed_received id1 c1 now1) <> fingerprint (seed_sent id2 c2 now2 now3).
Proof. unfold fingerprint. cbn. discriminate. Qed.

Lemma loaded_seedDemoIfEmpty (id1 id2 : string) (enc1 enc2 : outcome CipherPayload)
  (now1 now2 now3 : Z) (nearBottom : bool) (seenNow : Z) (w : World) :
  peerId (state w) = None ->
  loaded (seedDemoIfEmpty id1 id2 enc1 enc2 now1 now2 now3 nearBottom seenNow w) =
  match loaded w, enc1, enc2 with
  | [], Returned c1, Returned c2 =>
      compact [Some (seed_received id1 c1 now1); Some (seed_sent id2 c2 now2 now3)]
  | l, _, _ => l
  end.
Proof.
  intros Hp. unfold seedDemoIfEmpty.
  destruct (loadData (localStorage w)) as [d ls] eqn:E.
  assert (Hl : loaded w = messages d) by (unfold loaded; now rewrite E).
  assert (Hsame : loaded (set_storage w ls) = loaded w)
    by (rewrite Hl; now apply loaded_set_storage_load).
  rewrite Hl in *. destruct (messages d) as [|m l] eqn:M; [|exact Hsame].
  destruct enc1 as [c1|]; [|exact Hsame]. destruct enc2 as [c2|]; [|exact Hsame].
  unfold markAllSeenIfAtBottom. rewrite state_renderMessages. cbn [state set_storage updateSidebarPreviews].
  rewrite Hp. apply holds_loaded, holds_renderMessages, holds_updateSidebarPreviews.
  apply (holds_after_save _ (conversations d)
           [seed_received id1 c1 now1; seed_sent id2 c2 now2 now3]).
Qed.

(** X30. On a store that holds messages, [seedDemoIfEmpty] stores nothing.
    On a store without messages it stores, when both encryptions succeed,
    the ids drawn are two different non-empty ids and the clock has not run
    back by a minute in between, exactly the two demo messages: the one from
    the first contact, delivered, and after it the user's own, seen. When an
    encryption fails nothing is stored. At the start of the page, where no
    conversation is open, [start] leaves the same store. *)
Theorem seeding_effect (id1 id2 : string) (enc1 enc2 : outcome CipherPayload)
  (now1 now2 now3 : Z) (nearBottom : bool) (seenNow : Z) (w : World) :
  peerId (state w) = None ->
  let w' := seedDemoIfEmpty id1 id2 enc1 enc2 now1 now2 now3 nearBottom seenNow w in
  (loaded w <> [] -> loaded w' = loaded w)
  /\ (enc1 = Thrown \/ enc2 = Thrown -> loaded w' = loaded w)
  /\ (forall c1 c2,
        loaded w = [] -> enc1 = Returned c1 -> enc2 = Returned c2 ->
        truthy (Some id1) = true -> truthy (Some id2) = true -> id1 <> id2 ->
        now1 - 60000 <= now2 ->
        loaded w' = [seed_received id1 c1 now1; seed_sent id2 c2 now2 now3])
  /\ loaded (start id1 id2 enc1 enc2 now1 now2 now3 nearBottom seenNow w) = loaded w'.
Proof.
  intros Hp w'.
  pose proof (loaded_seedDemoIfEmpty id1 id2 enc1 enc2 now1 now2 now3 nearBottom seenNow w Hp)
    as H. fold w' in H.
  split; [|split; [|split]].
  - intros Hne. rewrite H. destruct (loaded w); [congruence|reflexivity].
  - intros Ht. rewrite H. destruct (loaded w) as [|m l]; [|reflexivity].
    destruct enc1; [|reflexivity]. destruct enc2; [|reflexivity].
    destruct Ht; discriminate.
  - intros c1 c2 He -> -> T1 T2 Hid Hn. rewrite H, He.
    apply (compact_fix [seed_received id1 c1 now1; seed_sent id2 c2 now2 now3]).
    constructor.
    + repeat constructor; assumption.
    + cbn. repeat constructor; cbn; [intros [E|[]]; congruence|tauto].
    + cbn [map]. repeat constructor; cbn [In]; [|tauto].
      intros [E|[]]. symmetry in E. revert E. apply seed_fingerprints_differ.
    + repeat constructor. unfold createdAt_le. cbn. lia.
  - unfold start. destruct (loadData (localStorage w)) as [d ls] eqn:E.
    assert (Hl : loaded w = messages d) by (unfold loaded; now rewrite E).
    cbv zeta. set (w1 := set_storage w (saveData (to_snapshot d) ls)).
    assert (P2 : peerId (state (updateSidebarPreviews w1)) = None) by exact Hp.
    rewrite P2.
    assert (L3 : loaded (updateSidebarPreviews w1) = loaded w).
    { apply holds_loaded, holds_updateSidebarPreviews. unfold w1.
      pose proof (holds_after_save w (conversations d) (messages d) ls) as Hh.
      rewrite compact_fix in Hh by (rewrite <- Hl; apply loaded_compacted).
      rewrite Hl. destruct d. exact Hh. }
    rewrite (loaded_seedDemoIfEmpty _ _ _ _ _ _ _ _ _ (updateSidebarPreviews w1)) by exact P2.
    now rewrite H, L3.
Qed.

Lemma seeding_effect_witness :
  let w := initial_world (mkStorage None ∅ ∅) in
  let w' := seedDemoIfEmpty "s-1" "s-2" (Returned sample_payload) (Returned sample_payload)
                            200000 200010 200011 true 200020 w in
  map the_id (loaded w') = ["s-1"; "s-2"] /\ map status (loaded w') = [delivered; seen].
Proof.
  intros w w'.
  destruct (seeding_effect "s-1" "s-2" (Returned sample_payload) (Returned sample_payload)
              200000 200010 200011 true 200020 w eq_refl) as (_ & _ & H & _).
  fold w' in H.
  rewrite (H sample_payload sample_payload eq_refl eq_refl eq_refl eq_refl eq_refl
             ltac:(discriminate) ltac:(lia)).
  split; reflexivity.
Defined.
